(** * ultra-bot: command pipeline, role guard, rate limiter and fun loops

    A shallow embedding of the JavaScript sources

    - [RateLimiter]: class [RateLimiter] of [src/utils/rateLimiter.js];
    - [Validator]: class [Validator], required as [utils/validator]
      (it follows the metrics collector in [src/utils/stats.js]);
    - [Guard]: [guard] and [verifyOwner] of [src/secure/guard.js];
    - [CommandProcessor]: [src/middleware/commandProcessor.js];
    - [FunEngine]: class [FunEngine], required as [utils/funEngine]
      (it follows the delay helpers in [src/utils/delay.js]);
    - [Bot], [Murgi]: the [murgi] command module and the table
      [bot.funThreads] it works on;
    - [StartFun]: [src/commands/admin/startFun.js];

    and the properties of the specification proved, or refuted, on it.

    Conventions of the embedding.

    - A JavaScript string is a [string]: one [ascii] per code unit.  Literals
      that hold characters outside ASCII are kept as the bytes of the source
      file; they are only ever compared and concatenated, never measured.
    - A JavaScript number that is a timestamp, a length, a counter or an
      index is an integer ([Z] or [nat]); [Date.now()] is an argument of the
      function that reads it.
    - A function that may throw returns a [result]; a [try]/[catch] is a
      match on it.
    - A [Map] is a [gmap]; an object that is shared between a table and a
      closure lives in a heap and is referred to by its location.
    - A timer ([setInterval], [setTimeout]) is an entry of a table of live
      timers keyed by its handle; [clearInterval] deletes the entry, and only
      live timers can fire.  Handles are never reused.
    - The body of an asynchronous callback is taken in one piece, with what
      the transport answers as an argument.
    - The calls of [logger.info], [logger.warn] and [logger.error] write to
      the log and to nothing the properties speak about; they are left out.
      The sinks a pipeline stage hands its record to, the cache and the
      command modules are collaborators, whose answers are arguments. *)

From stdpp Require Import base option list gmap strings.
From Stdlib Require Import ZArith Lia Ascii Sorted.

Local Open Scope string_scope.

(** ** JavaScript values and exceptions *)

Module Js.

(** The primitive values a sender id, a thread id or a command argument can
    be.  [VNum] holds integer-valued numbers. *)
Inductive value :=
  | VUndefined
  | VNull
  | VBool (b : bool)
  | VNum (n : Z)
  | VStr (s : string).

#[global] Instance value_eq_dec : EqDecision value.
Proof. solve_decision. Defined.

Inductive error :=
  | TypeError (msg : string)
  | Error (msg : string).

#[global] Instance error_eq_dec : EqDecision error.
Proof. solve_decision. Defined.

(** The outcome of a call: a returned value or a thrown exception. *)
Inductive result (A : Type) :=
  | Ok (a : A)
  | Throw (e : error).
Arguments Ok {A} a.
Arguments Throw {A} e.

Definition returns {A} (r : result A) : Prop := exists a, r = Ok a.

(** ToBoolean. *)
Definition truthy (v : value) : bool :=
  match v with
  | VUndefined | VNull => false
  | VBool b => b
  | VNum n => negb (n =? 0)%Z
  | VStr s => negb (String.eqb s EmptyString)
  end.

(** [typeof v === 'string']. *)
Definition is_string (v : value) : bool :=
  match v with VStr _ => true | _ => false end.

(** Strict equality [===] on primitive values. *)
Definition strict_eq (a b : value) : bool := bool_decide (a = b).

Section Engine.
(** [Number.prototype.toString] on an integer-valued number. *)
Variable numberToString : Z -> string.

(** [v.toString()]: a method call, so it throws on [null] and
    [undefined]. *)
Definition toStringMethod (v : value) : result string :=
  match v with
  | VUndefined => Throw (TypeError "Cannot read properties of undefined (reading 'toString')")
  | VNull => Throw (TypeError "Cannot read properties of null (reading 'toString')")
  | VBool true => Ok "true"
  | VBool false => Ok "false"
  | VNum n => Ok (numberToString n)
  | VStr s => Ok s
  end.

(** The abstract operation ToString, used by template literals: total. *)
Definition toString (v : value) : string :=
  match v with
  | VUndefined => "undefined"
  | VNull => "null"
  | VBool true => "true"
  | VBool false => "false"
  | VNum n => numberToString n
  | VStr s => s
  end.
End Engine.

End Js.
Import Js.

(** ** The rate limiter ([src/utils/rateLimiter.js]) *)

Module RateLimiter.

(** [this.limits]: for every key the list of the admitted timestamps. *)
Abbreviation limits_t := (gmap string (list Z)).

(** [check(key, limit, windowMs)], with [now] the reading of [Date.now()].
    The result pairs the returned boolean with [this.limits] afterwards. *)
Definition check (key : string) (limit windowMs : Z) (now : Z)
    (limits : limits_t) : bool * limits_t :=
  let userLimits := default [] (limits !! key) in
  let validLimits := filter (fun time => (now - time < windowMs)%Z) userLimits in
  if decide (limit <= Z.of_nat (length validLimits))%Z then
    (false, limits)
  else
    (true, <[key := (validLimits ++ [now])%list]> limits).

Section Keys.
Variable numberToString : Z -> string.

Definition userCmdKey (userId : value) : string :=
  "user:cmd:" +:+ toString numberToString userId.
Definition threadMsgKey (threadId : value) : string :=
  "thread:msg:" +:+ toString numberToString threadId.
Definition userFunKey (userId funType : value) : string :=
  "user:fun:" +:+ toString numberToString userId +:+ ":" +:+ toString numberToString funType.
Definition userAdminKey (userId : value) : string :=
  "user:admin:" +:+ toString numberToString userId.

Definition checkUserCommand (userId : value) :=
  check (userCmdKey userId) 30 60000.
Definition checkThreadMessage (threadId : value) :=
  check (threadMsgKey threadId) 50 60000.
Definition checkFunCommand (userId funType : value) :=
  check (userFunKey userId funType) 5 60000.
Definition checkAdminAction (userId : value) :=
  check (userAdminKey userId) 20 60000.
End Keys.

(** A run of consecutive checks of one key, at the given times. *)
Fixpoint checks (key : string) (limit windowMs : Z) (times : list Z)
    (limits : limits_t) : list bool * limits_t :=
  match times with
  | [] => ([], limits)
  | now :: rest =>
      let '(b, limits1) := check key limit windowMs now limits in
      let '(bs, limits2) := checks key limit windowMs rest limits1 in
      (b :: bs, limits2)
  end.

(** The times of the checks of such a run that were admitted. *)
Fixpoint admissions (key : string) (limit windowMs : Z) (times : list Z)
    (limits : limits_t) : list Z :=
  match times with
  | [] => []
  | now :: rest =>
      let '(b, limits1) := check key limit windowMs now limits in
      if b then now :: admissions key limit windowMs rest limits1
      else admissions key limit windowMs rest limits1
  end.

(** [cleanup()], run at time [now]: every list loses the timestamps that
    are an hour old or older, and a key whose list empties is deleted. *)
Definition cleanup (now : Z) (limits : limits_t) : limits_t :=
  omap (fun times : list Z =>
          let hourAgo := (now - 3600000)%Z in
          let validTimes := filter (fun time => (hourAgo < time)%Z) times in
          if decide (length validTimes = 0%nat) then None else Some validTimes)
       limits.

(** [reset(key)]. *)
Definition reset (key : string) (limits : limits_t) : limits_t := delete key limits.

(** The object [getUserStatus] returns. *)
Record userStatus := UserStatus {
  us_userId : value;
  recentAttempts : nat;
  us_limit : Z;
  remaining : Z;
  resetIn : Z
}.

Section Status.
Variable numberToString : Z -> string.

(** [getUserStatus(userId)], at time [now].  [recent[0] || now] takes [now]
    when there is no recent timestamp, and when the first one is [0]. *)
Definition getUserStatus (userId : value) (now : Z) (limits : limits_t) : userStatus :=
  let userLimits := default [] (limits !! userCmdKey numberToString userId) in
  let recent := filter (fun time => (now - time < 60000)%Z) userLimits in
  let first := match head recent with
               | Some time => if decide (time = 0)%Z then now else time
               | None => now
               end in
  UserStatus userId (length recent) 30
             (Z.max 0 (30 - Z.of_nat (length recent)))
             (60000 - (now - first)).
End Status.

End RateLimiter.

(** ** The validator (class [Validator], required as [utils/validator]) *)

Module Validator.

(** Case folding of the regular expressions' [i] flag: without the [u] flag
    a pattern letter of ASCII matches its two ASCII cases and nothing else. *)
Definition lower (c : ascii) : ascii :=
  let n := nat_of_ascii c in
  if (65 <=? n)%nat && (n <=? 90)%nat then ascii_of_nat (n + 32) else c.

(** The pattern [p], a literal, matches at the start of [s]. *)
Fixpoint matches_here (p s : string) : bool :=
  match p, s with
  | EmptyString, _ => true
  | String _ _, EmptyString => false
  | String a p', String b s' =>
      if decide (lower a = lower b) then matches_here p' s' else false
  end.

(** [/p/i.test(s)] for a literal [p]: it matches somewhere in [s]. *)
Fixpoint test (p s : string) : bool :=
  matches_here p s ||
  match s with
  | EmptyString => false
  | String _ s' => test p s'
  end.

Definition maliciousPatterns : list string :=
  [ "<script>"; "javascript:"; "onload="; "onerror="; "eval("; "document.";
    "window."; "localStorage."; "process."; "require("; "fs.";
    "child_process" ].

(** [Validator.isValidCommandInput(input, minLength, maxLength)]. *)
Definition isValidCommandInput (input : value) (minLength maxLength : nat) : bool :=
  if negb (truthy input) || negb (is_string input) then false
  else
    match input with
    | VStr s =>
        if (String.length s <? minLength)%nat || (maxLength <? String.length s)%nat
        then false
        else negb (existsb (fun pattern => test pattern s) maliciousPatterns)
    | _ => false
    end.

End Validator.

(** ** The role guard ([verifyOwner] and [guard] of [src/secure/guard.js]) *)

Module Guard.

(** What [JSON.parse(fs.readFileSync(ownerLockPath, 'utf8'))] yields: it
    throws (no file, no JSON), or it is [null], whose property access throws,
    or it is any other JSON value, with [ownerHash] the value of that
    property ([VUndefined] when there is none). *)
Inductive lockFile :=
  | LockUnreadable
  | LockNull
  | LockData (ownerHash : value).

Section Guard.
Variable numberToString : Z -> string.
(** [crypto.createHash('sha256').update(s).digest('hex')]. *)
Variable sha256hex : string -> string.

Definition hashUid (uid : value) : result string :=
  match toStringMethod numberToString uid with
  | Ok s => Ok (sha256hex s)
  | Throw e => Throw e
  end.

(** The [try] block of [verifyOwner]. *)
Definition verifyOwner_try (lock : lockFile) (userId : value) : result bool :=
  match lock with
  | LockUnreadable => Throw (Error "owner.lock cannot be read")
  | LockNull =>
      match hashUid userId with
      | Ok _ => Throw (TypeError "Cannot read properties of null (reading 'ownerHash')")
      | Throw e => Throw e
      end
  | LockData ownerHash =>
      match hashUid userId with
      | Ok hashedInput => Ok (strict_eq ownerHash (VStr hashedInput))
      | Throw e => Throw e
      end
  end.

(** [verifyOwner(userId)]: the [catch] block returns [false]. *)
Definition verifyOwner (lock : lockFile) (userId : value) : result bool :=
  match verifyOwner_try lock userId with
  | Ok b => Ok b
  | Throw _ => Ok false
  end.

Definition isOwner (lock : lockFile) (userId : value) : result bool :=
  verifyOwner lock userId.

(** [config.admins.includes(userId.toString())]. *)
Definition isAdmin (admins : list value) (userId : value) : result bool :=
  match toStringMethod numberToString userId with
  | Ok s => Ok (bool_decide (VStr s ∈ admins))
  | Throw e => Throw e
  end.

(** [!guard.isOwner(userId) && !guard.isAdmin(userId)]. *)
Definition isUser (lock : lockFile) (admins : list value) (userId : value) : result bool :=
  match isOwner lock userId with
  | Ok true => Ok false
  | Ok false =>
      match isAdmin admins userId with
      | Ok b => Ok (negb b)
      | Throw e => Throw e
      end
  | Throw e => Throw e
  end.

Definition requireOwner (lock : lockFile) (userId : value) : result unit :=
  match isOwner lock userId with
  | Ok true => Ok tt
  | Ok false => Throw (Error "Owner access required.")
  | Throw e => Throw e
  end.

(** [!guard.isAdmin(userId) && !guard.isOwner(userId)] decides the throw. *)
Definition requireAdmin (lock : lockFile) (admins : list value) (userId : value) : result unit :=
  match isAdmin admins userId with
  | Ok true => Ok tt
  | Ok false =>
      match isOwner lock userId with
      | Ok true => Ok tt
      | Ok false => Throw (Error "Admin access required.")
      | Throw e => Throw e
      end
  | Throw e => Throw e
  end.
End Guard.

End Guard.

(** ** The command pipeline ([src/middleware/commandProcessor.js]) *)

Module CommandProcessor.
Import RateLimiter.

Record event := Event { senderID : value; threadID : value }.

(** The per-invocation [context] object of [process]. *)
Record context := Context {
  ctx_event : event;
  command : value;
  args : list value;
  userId : value;
  threadId : value;
  startTime : Z;
  shouldContinue : bool;
  response : value;
  error : option Js.error;
  cached : bool
}.

(** A command module as [require] returns it: what calling it with the
    event and the arguments gives. *)
Definition handler := event -> list value -> result value.

(** The collaborators of one invocation: the configuration and the lock file
    the guard reads, the handlers that can be resolved, and what the cache
    and the log and statistics sinks answer. *)
Record collaborators := Collaborators {
  admins : list value;
  lock : Guard.lockFile;
  getCommandHandler : value -> option handler;
  cacheGet : string -> value;
  auditSink : context -> result unit;
  funUsageSink : context -> result unit;
  debugLog : context -> result unit
}.

(** What an invocation can change: its context, the rate limiter's table,
    and what it hands to the audit sink and to the cache. *)
Record state := State {
  ctx : context;
  limits : limits_t;
  audit : list (value * value * value * list value);
  cacheSets : list (string * value)
}.

(** Stages run in a state monad with exceptions; the state written before
    a [throw] stays written. *)
Definition M (A : Type) : Type := state -> result A * state.

Definition ret {A} (a : A) : M A := fun st => (Ok a, st).
Definition throw {A} (e : Js.error) : M A := fun st => (Throw e, st).
Definition bind {A B} (m : M A) (k : A -> M B) : M B :=
  fun st =>
    match m st with
    | (Ok a, st1) => k a st1
    | (Throw e, st1) => (Throw e, st1)
    end.
Definition lift {A} (r : result A) : M A := fun st => (r, st).
Definition getCtx : M context := fun st => (Ok (ctx st), st).
Definition modifyCtx (f : context -> context) : M unit :=
  fun st => (Ok tt, State (f (ctx st)) (limits st) (audit st) (cacheSets st)).
(** A call of one of the rate limiter's checks. *)
Definition limiter (chk : limits_t -> bool * limits_t) : M bool :=
  fun st =>
    let '(b, limits1) := chk (limits st) in
    (Ok b, State (ctx st) limits1 (audit st) (cacheSets st)).

Notation "x <- m ;; k" := (bind m (fun x => k))
  (at level 100, m at next level, right associativity).
Notation "m ;;; k" := (bind m (fun _ => k))
  (at level 100, right associativity).

Definition set_rejected (msg : string) (c : context) : context :=
  Context (ctx_event c) (command c) (args c) (userId c) (threadId c) (startTime c)
          false (VStr msg) (error c) (cached c).
Definition set_response (v : value) (isCached : bool) (c : context) : context :=
  Context (ctx_event c) (command c) (args c) (userId c) (threadId c) (startTime c)
          (shouldContinue c) v (error c) isCached.
Definition set_error (e : Js.error) (c : context) : context :=
  Context (ctx_event c) (command c) (args c) (userId c) (threadId c) (startTime c)
          (shouldContinue c) (response c) (Some e) (cached c).
Definition set_stopped (c : context) : context :=
  Context (ctx_event c) (command c) (args c) (userId c) (threadId c) (startTime c)
          false (response c) (error c) (cached c).

(** [context.shouldContinue = false; context.response = msg; return;] *)
Definition reject (msg : string) : M unit := modifyCtx (set_rejected msg).

Definition quote : string := String "034" EmptyString.
Definition newline : string := String "010" EmptyString.

Definition msgInvalidName := "❌ Invalid command name".
Definition msgInvalidArgs := "❌ Invalid command arguments".
Definition msgInvalidContext := "❌ Invalid message context".
Definition msgRateUser := "⚠️ Rate limit exceeded. Please wait a moment.".
Definition msgRateThread := "⚠️ Too many messages in this thread. Please slow down.".
Definition msgRateFun := "⚠️ Too many fun commands. Please wait before starting another.".
Definition msgRateAdmin := "⚠️ Admin action rate limit exceeded.".
Definition msgOwnerRequired := "❌ Owner access required for this command.".
Definition msgAdminRequired := "❌ Admin access required for this command.".
Definition msgFunRequired := "❌ Admin/Owner access required for fun commands.".
Definition msgUnknownCategory := "❌ Unknown command category.".
Definition msgError := "❌ An error occurred while processing your command.".

Section Pipeline.
Variable numberToString : Z -> string.
Variable sha256hex : string -> string.
(** [JSON.stringify] of the argument array. *)
Variable jsonStringify : list value -> string.
Variable collab : collaborators.

Definition guardIsOwner (u : value) : M bool :=
  lift (Guard.isOwner numberToString sha256hex (lock collab) u).
Definition guardIsAdmin (u : value) : M bool :=
  lift (Guard.isAdmin numberToString (admins collab) u).

Definition msgNotFound (cmd : value) : string :=
  "❌ Command " +:+ quote +:+ toString numberToString cmd +:+ quote
  +:+ " not found. Use !help for available commands.".

(** Middleware 1. *)
Definition validateInput : M unit :=
  c <- getCtx ;;
  if negb (Validator.isValidCommandInput (command c) 1 50) then
    reject msgInvalidName
  else if existsb (fun arg => negb (Validator.isValidCommandInput arg 0 500)) (args c) then
    reject msgInvalidArgs
  else if negb (truthy (threadID (ctx_event c))) || negb (truthy (senderID (ctx_event c))) then
    reject msgInvalidContext
  else ret tt.

(** [command.startsWith(p)]: a method of strings only. *)
Definition startsWith (cmd : value) (p : string) : result bool :=
  match cmd with
  | VStr s => Ok (String.prefix p s)
  | _ => Throw (TypeError "command.startsWith is not a function")
  end.

(** [args[0]]. *)
Definition arg0 (c : context) : value := default VUndefined (head (args c)).

(** The last test of middleware 2, the admin-action quota. *)
Definition checkAdminQuota (now : Z) (c : context) : M unit :=
  isAdm <- guardIsAdmin (userId c) ;;
  isOwn <- (if isAdm then guardIsOwner (userId c) else ret true) ;;
  if isAdm && negb isOwn then
    ok <- limiter (checkAdminAction numberToString (userId c) now) ;;
    if negb ok then reject msgRateAdmin else ret tt
  else ret tt.

(** The test of the fun-start quota, then the admin-action quota. *)
Definition checkFunQuota (now : Z) (c : context) : M unit :=
  isStart <- lift (startsWith (command c) "startfun") ;;
  if isStart then
    ok <- limiter (checkFunCommand numberToString (userId c) (arg0 c) now) ;;
    if negb ok then reject msgRateFun else checkAdminQuota now c
  else checkAdminQuota now c.

(** Middleware 2; [now] is the clock of the turn in which it runs. *)
Definition checkRateLimit (now : Z) : M unit :=
  c <- getCtx ;;
  ok <- limiter (checkUserCommand numberToString (userId c) now) ;;
  if negb ok then reject msgRateUser
  else
    ok <- limiter (checkThreadMessage numberToString (threadId c) now) ;;
    if negb ok then reject msgRateThread
    else checkFunQuota now c.

Inductive category := CatOwner | CatAdmin | CatFun | CatUser | CatUnknown.

Definition ownerCommands : list string :=
  ["emergencystop"; "shutdown"; "addadmin"; "removeadmin"; "diagnostics";
   "reloadconfig"; "execute"; "backup"; "cleanup"].
Definition adminCommands : list string :=
  ["startfun"; "stopfun"; "managegroups"; "editadminphoto"; "updatefun"].
Definition funCommands : list string := ["startfun"; "stopfun"].
Definition userCommands : list string := ["help"; "info"; "stats"].

(** [list.includes(v)] for a list of string literals. *)
Definition includes (l : list string) (v : value) : bool :=
  match v with
  | VStr s => bool_decide (s ∈ l)
  | _ => false
  end.

Definition getCommandCategory (cmd : value) : category :=
  if includes ownerCommands cmd then CatOwner
  else if includes adminCommands cmd then CatAdmin
  else if includes funCommands cmd then CatFun
  else if includes userCommands cmd then CatUser
  else CatUnknown.

(** [!guard.isAdmin(userId) && !guard.isOwner(userId)]. *)
Definition notAdminNorOwner (u : value) : M bool :=
  isAdm <- guardIsAdmin u ;;
  if isAdm then ret false
  else isOwn <- guardIsOwner u ;; ret (negb isOwn).

(** Middleware 3. *)
Definition checkPermissions : M unit :=
  c <- getCtx ;;
  match getCommandCategory (command c) with
  | CatOwner =>
      isOwn <- guardIsOwner (userId c) ;;
      if negb isOwn then reject msgOwnerRequired else ret tt
  | CatAdmin =>
      denied <- notAdminNorOwner (userId c) ;;
      if denied then reject msgAdminRequired else ret tt
  | CatFun =>
      denied <- notAdminNorOwner (userId c) ;;
      if denied then reject msgFunRequired else ret tt
  | CatUser => ret tt
  | CatUnknown => reject msgUnknownCategory
  end.

(** [s.includes(p)] on strings. *)
Fixpoint strIncludes (p s : string) : bool :=
  String.prefix p s ||
  match s with
  | EmptyString => false
  | String _ s' => strIncludes p s'
  end.

Definition recordAudit (c : context) : M unit :=
  fun st => (Ok tt, State (ctx st) (limits st)
                      (audit st ++ [(userId c, threadId c, command c, args c)])%list
                      (cacheSets st)).

(** Middleware 4: [logger.command] and [stats.recordCommand], then
    [stats.recordFunUsage] for a command whose name holds [fun]. *)
Definition logCommand : M unit :=
  c <- getCtx ;;
  lift (auditSink collab c) ;;;
  recordAudit c ;;;
  match command c with
  | VStr s =>
      if strIncludes "fun" s && truthy (arg0 c)
      then lift (funUsageSink collab c)
      else ret tt
  | _ => throw (TypeError "command.includes is not a function")
  end.

Definition shouldCacheCommand (cmd : value) : bool :=
  includes ["help"; "info"; "stats"] cmd.
Definition shouldSkipCache (cmd : value) : bool :=
  includes ["startfun"; "stopfun"; "execute"; "emergencystop"] cmd.

Definition cacheKey (c : context) : string :=
  "cmd_result:" +:+ toString numberToString (command c) +:+ ":" +:+ jsonStringify (args c)
  +:+ ":" +:+ toString numberToString (senderID (ctx_event c)).

Definition cacheSet (key : string) (v : value) : M unit :=
  fun st => (Ok tt, State (ctx st) (limits st) (audit st)
                      (cacheSets st ++ [(key, v)])%list).

(** The [try] block of middleware 5. *)
Definition runHandler (h : handler) (c : context) : M unit :=
  result <- lift (h (ctx_event c) (args c)) ;;
  (if truthy result && shouldCacheCommand (command c)
   then cacheSet (cacheKey c) result else ret tt) ;;;
  modifyCtx (set_response result (cached c)) ;;;
  lift (debugLog collab c).

(** Middleware 5. *)
Definition executeCommand : M unit :=
  c <- getCtx ;;
  match getCommandHandler collab (command c) with
  | None => reject (msgNotFound (command c))
  | Some h =>
      let cachedResult := cacheGet collab (cacheKey c) in
      if truthy cachedResult && negb (shouldSkipCache (command c)) then
        modifyCtx (set_response cachedResult true)
      else
        fun st =>
          match runHandler h c st with
          | (Ok u, st1) => (Ok u, st1)
          | (Throw e, st1) =>
              (Throw e, State (set_stopped (set_error e (ctx st1)))
                              (limits st1) (audit st1) (cacheSets st1))
          end
  end.

Definition middlewares (now : Z) : list (M unit) :=
  [validateInput; checkRateLimit now; checkPermissions; logCommand; executeCommand].

(** The loop of [process]: stop at the first stage that cleared
    [shouldContinue]. *)
Fixpoint runChain (ms : list (M unit)) : M unit :=
  match ms with
  | [] => ret tt
  | middleware :: rest =>
      c <- getCtx ;;
      if negb (shouldContinue c) then ret tt
      else middleware ;;; runChain rest
  end.

Definition errorMessage (e : Js.error) : string :=
  match e with TypeError m | Error m => m end.

(** [handleError(context)]; the guard's calls are outside any [try]. *)
Definition handleError (e : Js.error) : M value :=
  c <- getCtx ;;
  isAdm <- guardIsAdmin (userId c) ;;
  privileged <- (if isAdm then ret true else guardIsOwner (userId c)) ;;
  if (privileged : bool) then
    ret (VStr (msgError +:+ newline +:+ newline +:+ "Debug: " +:+ errorMessage e))
  else ret (VStr msgError).

Definition initialContext (ev : event) (cmd : value) (arguments : list value) (start : Z) : context :=
  Context ev cmd arguments (senderID ev) (threadID ev) start true VNull None false.

(** [process(api, event, command, args)]. *)
Definition process (ev : event) (cmd : value) (arguments : list value)
    (start now : Z) (limits0 : limits_t) : result value * state :=
  let st0 := State (initialContext ev cmd arguments start) limits0 [] [] in
  match runChain (middlewares now) st0 with
  | (Ok _, st) => (Ok (response (ctx st)), st)
  | (Throw e, st) =>
      handleError e (State (set_error e (ctx st)) (limits st) (audit st) (cacheSets st))
  end.
End Pipeline.

End CommandProcessor.

(** ** The fun engine (class [FunEngine], required as [utils/funEngine]) *)

Module FunEngine.

(** An entry of [this.activeFuns]. *)
Record activeFun := ActiveFun {
  type : string;
  interval : positive;
  index : nat;
  lines : list string;
  userId : value;
  startTime : Z;
  messageCount : nat
}.

(** The variables the callback given to [setInterval] closes over. *)
Record closure := Closure {
  c_threadId : string;
  c_funType : string;
  c_userId : value;
  c_lines : list string;
  currentIndex : nat
}.

(** The engine and what it acts on: its two tables, the live intervals with
    the handle the next [setInterval] returns, and the calls of
    [api.sendMessage] made so far, oldest first, each with its thread. *)
Record world := World {
  activeFuns : gmap string activeFun;
  funTemplates : gmap string (list string);
  timers : gmap positive closure;
  nextTimer : positive;
  outbox : list (string * string)
}.

Record stats := Stats {
  s_type : string;
  duration : Z;
  messagesSent : nat;
  s_userId : value
}.

(** The objects [startFun] and [stopFun] return. *)
Inductive reply :=
  | Success (message : string) (st : option stats)
  | Failure (error : string).

Definition success (r : reply) : bool :=
  match r with Success _ _ => true | Failure _ => false end.

Definition errAlreadyRunning := "Fun already running in this thread".
Definition errNoLines := "No lines available for this fun type".
Definition errNoActive := "No active fun in this thread".
Definition msgSendFailed := "❌ Error sending fun message. Fun stopped.".

(** How the body of one tick ends: the typing indicator is refused, the
    message is refused, the message goes out and [stats.recordFunUsage]
    throws, or all of it goes through. *)
Inductive outcome := TypingFails | SendFails | StatsFails | Delivered.

(** [Math.round(ms / 1000)] on an integer [ms]. *)
Definition roundSeconds (ms : Z) : Z := ((ms + 500) / 1000)%Z.

Definition send (threadId text : string) (w : world) : world :=
  World (activeFuns w) (funTemplates w) (timers w) (nextTimer w)
        (outbox w ++ [(threadId, text)])%list.

Section Engine.
Variable numberToString : Z -> string.

Definition stoppedMessage (s : stats) : string :=
  "⛔ Fun stopped." +:+ String "010" EmptyString
  +:+ "Duration: " +:+ numberToString (duration s) +:+ "s" +:+ String "010" EmptyString
  +:+ "Messages: " +:+ numberToString (Z.of_nat (messagesSent s)).

(** [startFun(api, threadId, funType, userId)], called at time [now].
    The period of the interval, drawn by [getRandomDelay(300, 600)], only
    decides when the scheduler fires it. *)
Definition startFun (threadId funType : string) (user : value) (now : Z)
    (w : world) : reply * world :=
  if decide (is_Some (activeFuns w !! threadId)) then
    (Failure errAlreadyRunning, w)
  else
    match funTemplates w !! funType with
    | None => (Failure ("Unknown fun type: " +:+ funType), w)
    | Some templateLines =>
        if decide (length templateLines = 0%nat) then (Failure errNoLines, w)
        else
          let handle := nextTimer w in
          let callback := Closure threadId funType user templateLines 0 in
          let entry := ActiveFun funType handle 0 templateLines user now 0 in
          (Success ("✅ " +:+ funType +:+ " fun started!") None,
           World (<[threadId := entry]> (activeFuns w)) (funTemplates w)
                 (<[handle := callback]> (timers w)) (Pos.succ handle) (outbox w))
    end.

(** [stopFun(threadId)], called at time [now]. *)
Definition stopFun (threadId : string) (now : Z) (w : world) : reply * world :=
  match activeFuns w !! threadId with
  | None => (Failure errNoActive, w)
  | Some f =>
      let s := Stats (type f) (roundSeconds (now - startTime f)) (messageCount f) (userId f) in
      (Success (stoppedMessage s) (Some s),
       World (delete threadId (activeFuns w)) (funTemplates w)
             (delete (interval f) (timers w)) (nextTimer w) (outbox w))
  end.

(** The [catch] block of a tick. *)
Definition tickFailed (threadId : string) (now : Z) (w : world) : world :=
  send threadId msgSendFailed (snd (stopFun threadId now w)).

(** One firing of the interval [handle], at time [now]; a handle that is
    not live does not fire.  The body is taken in one piece, from the
    choice of the line to the end of its [try] or [catch]. *)
Definition tick (handle : positive) (o : outcome) (now : Z) (w : world) : world :=
  match timers w !! handle with
  | None => w
  | Some c =>
      let i := if decide (length (c_lines c) <= currentIndex c)%nat then 0%nat
               else currentIndex c in
      let line := default "undefined" (c_lines c !! i) in
      let c1 := Closure (c_threadId c) (c_funType c) (c_userId c) (c_lines c) (S i) in
      let w1 := World (activeFuns w) (funTemplates w) (<[handle := c1]> (timers w))
                      (nextTimer w) (outbox w) in
      match o with
      | TypingFails => tickFailed (c_threadId c) now w1
      | SendFails => tickFailed (c_threadId c) now (send (c_threadId c) line w1)
      | StatsFails => tickFailed (c_threadId c) now (send (c_threadId c) line w1)
      | Delivered => send (c_threadId c) line w1
      end
  end.

(** What can happen to the engine, one turn of the event loop each. *)
Inductive action :=
  | AStart (threadId funType : string) (user : value)
  | AStop (threadId : string)
  | ATick (handle : positive) (o : outcome).

Definition step (a : action) (now : Z) (w : world) : world :=
  match a with
  | AStart threadId funType user => snd (startFun threadId funType user now w)
  | AStop threadId => snd (stopFun threadId now w)
  | ATick handle o => tick handle o now w
  end.

(** A run: the actions in order, each with the clock of its turn. *)
Fixpoint run (trace : list (action * Z)) (w : world) : world :=
  match trace with
  | [] => w
  | (a, now) :: rest => run rest (step a now w)
  end.
End Engine.

(** The engine as its constructor leaves it, templates loaded. *)
Definition initial (templates : gmap string (list string)) : world :=
  World ∅ templates ∅ 1%positive [].

(** The messages sent to one thread. *)
Definition sentTo (threadId : string) (w : world) : list string :=
  snd <$> filter (fun m => fst m = threadId) (outbox w).

(** An element of the array [stopAllFuns] returns. *)
Record stoppedFun := StoppedFun {
  sf_threadId : string;
  sf_type : string;
  sf_duration : Z
}.

(** [stopAllFuns()], at time [now]: the interval of every entry is cleared
    and the table is emptied.  The array lists the entries in the order of
    the table, which the map does not record; its content does not depend on
    the order. *)
Definition stopAllFuns (now : Z) (w : world) : list stoppedFun * world :=
  let entries := map_to_list (activeFuns w) in
  ((fun e => StoppedFun e.1 (type e.2) (now - startTime e.2)) <$> entries,
   World ∅ (funTemplates w)
         (foldr (fun e live => delete (interval e.2) live) (timers w) entries)
         (nextTimer w) (outbox w)).

End FunEngine.

(** ** The bot object the fun commands share: [bot.funThreads] *)

Module Bot.

(** A value of [bot.funThreads].  The table and the callbacks of the timers
    hold the same object: it lives in [heap]. *)
Record funThread := FunThread {
  type : string;
  index : nat;
  interval : option positive;
  active : bool;
  userID : value
}.

(** The callback of the repeating timer closes over the thread id, the
    object, the lines read from the data file and its own counter. *)
Record tickClosure := TickClosure {
  k_threadID : string;
  k_funThread : positive;
  k_funData : list string;
  iteration : nat
}.

(** The callback of the five-minute timer closes over the thread id and the
    object. *)
Record expiryClosure := ExpiryClosure {
  e_threadID : string;
  e_funThread : positive
}.

Record bot := Bot {
  heap : gmap positive funThread;
  nextLoc : positive;
  funThreads : gmap string positive;
  intervals : gmap positive tickClosure;
  timeouts : gmap positive expiryClosure;
  nextTimer : positive;
  outbox : list (string * string);
  funActive : bool
}.

Definition initial : bot := Bot ∅ 1%positive ∅ ∅ ∅ 1%positive [] false.

Definition send (threadID text : string) (b : bot) : bot :=
  Bot (heap b) (nextLoc b) (funThreads b) (intervals b) (timeouts b) (nextTimer b)
      (outbox b ++ [(threadID, text)])%list (funActive b).

(** [clearInterval(h)]; [clearInterval(null)] does nothing. *)
Definition clearInterval (h : option positive) (b : bot) : bot :=
  match h with
  | None => b
  | Some handle =>
      Bot (heap b) (nextLoc b) (funThreads b) (delete handle (intervals b)) (timeouts b)
          (nextTimer b) (outbox b) (funActive b)
  end.

(** [bot.funThreads.delete(threadID)]. *)
Definition deleteThread (threadID : string) (b : bot) : bot :=
  Bot (heap b) (nextLoc b) (delete threadID (funThreads b)) (intervals b) (timeouts b)
      (nextTimer b) (outbox b) (funActive b).

Definition setHeap (h : gmap positive funThread) (b : bot) : bot :=
  Bot h (nextLoc b) (funThreads b) (intervals b) (timeouts b) (nextTimer b)
      (outbox b) (funActive b).

Definition setFunActive (a : bool) (b : bot) : bot :=
  Bot (heap b) (nextLoc b) (funThreads b) (intervals b) (timeouts b) (nextTimer b)
      (outbox b) a.

(** [bot.funThreads.get(threadID)], followed to the object. *)
Definition getThread (threadID : string) (b : bot) : option funThread :=
  loc ← funThreads b !! threadID; heap b !! loc.

(** The messages sent to one thread. *)
Definition sentTo (threadID : string) (b : bot) : list string :=
  snd <$> filter (fun m => fst m = threadID) (outbox b).

End Bot.

(** ** The [murgi] command module *)

Module Murgi.
Import Bot.

(** What [fs.pathExists] and [fs.readJson] find at the path of the data. *)
Inductive dataFile :=
  | FileMissing
  | FileUnreadable
  | FileData (funData : list string).

Definition msgNoData := "❌ murgi.json data file not found!".
Definition msgStarting := "🐔 Starting MURGI fun! Type !stopfun to stop.".
Definition msgAutoStopped := "⏰ Murgi fun auto-stopped after 5 minutes!".

Definition chickenEmojis : list string := ["🐔"; "🐓"; "🍗"; "🥚"; "🐤"].
Definition statusMessages : list string :=
  ["মুরগি দৌড়াচ্ছে! 🏃‍♀️"; "মুরগি ডিম পেড়েছে! 🥚"; "মুরগি উড়ছে! ✈️";
   "মুরগি খাচ্ছে! 🌾"; "মুরগি ডাকছে! 🔊"].

(** [list[Math.floor(Math.random() * list.length)]], [r] the draw. *)
Definition pick (l : list string) (r : nat) : string :=
  default "undefined" (l !! (r mod length l)%nat).

(** What one tick meets: the two random draws, whether the transport takes
    the message and the status report, and whether the pauses
    ([delay.funDelay], [delay.sleep], [delay.humanDelay], helpers of a module
    that is not part of these sources) return. *)
Record tickInput := TickInput {
  emojiDraw : nat;
  statusDraw : nat;
  messageSent : bool;
  pausesReturn : bool;
  statusSent : bool
}.

Section Murgi.
Variable numberToString : Z -> string.

Definition statusReport (status : string) (count : nat) : string :=
  "📊 Murgi Fun Update:" +:+ String "010" EmptyString
  +:+ "• " +:+ status +:+ String "010" EmptyString
  +:+ "• Total messages: " +:+ numberToString (Z.of_nat count) +:+ String "010" EmptyString
  +:+ "• কুকড়া কু! 🐓".

(** [execute(api, threadID, bot, userID)]; [sendOk] tells whether the
    transport takes the message the call awaits. *)
Definition execute (file : dataFile) (sendOk : bool) (threadID : string)
    (user : value) (b : bot) : result unit * bot :=
  match file with
  | FileMissing =>
      (if sendOk then Ok tt else Throw (Error "sendMessage failed"),
       send threadID msgNoData b)
  | FileUnreadable => (Throw (Error "readJson failed"), b)
  | FileData funData =>
      let b1 :=
        match funThreads b !! threadID with
        | Some _ => b
        | None =>
            let loc := nextLoc b in
            Bot (<[loc := FunThread "murgi" 0 None true user]> (heap b)) (Pos.succ loc)
                (<[threadID := loc]> (funThreads b)) (intervals b) (timeouts b)
                (nextTimer b) (outbox b) (funActive b)
        end in
      let b2 := send threadID msgStarting b1 in
      if negb sendOk then (Throw (Error "sendMessage failed"), b2)
      else
        match funThreads b2 !! threadID with
        | None => (Throw (TypeError "Cannot set properties of undefined (setting 'interval')"), b2)
        | Some loc =>
            let tickHandle := nextTimer b2 in
            let expiryHandle := Pos.succ tickHandle in
            (Ok tt,
             Bot (alter (fun ft => FunThread (type ft) (index ft) (Some tickHandle)
                                             (active ft) (userID ft)) loc (heap b2))
                 (nextLoc b2) (funThreads b2)
                 (<[tickHandle := TickClosure threadID loc funData 0]> (intervals b2))
                 (<[expiryHandle := ExpiryClosure threadID loc]> (timeouts b2))
                 (Pos.succ expiryHandle) (outbox b2) (funActive b2))
        end
  end.

(** The [catch] block of a tick. *)
Definition tickFailed (threadID : string) (loc : positive) (b : bot) : bot :=
  match heap b !! loc with
  | None => b
  | Some ft => deleteThread threadID (clearInterval (interval ft) b)
  end.

(** One firing of the repeating timer [handle], its body taken in one
    piece; a handle that is not live does not fire. *)
Definition tick (handle : positive) (inp : tickInput) (b : bot) : bot :=
  match intervals b !! handle with
  | None => b
  | Some k =>
      match heap b !! k_funThread k with
      | None => b
      | Some ft =>
          if negb (active ft) then clearInterval (interval ft) b
          else
            let message :=
              default "undefined"
                      (k_funData k !! (index ft mod length (k_funData k))%nat) in
            let randomEmoji := pick chickenEmojis (emojiDraw inp) in
            let finalMessage :=
              if decide (iteration k mod 3 = 0)%nat
              then randomEmoji +:+ " " +:+ message +:+ " " +:+ randomEmoji
              else message in
            let b1 := send (k_threadID k) finalMessage b in
            if negb (messageSent inp) then tickFailed (k_threadID k) (k_funThread k) b1
            else
              let ft1 := FunThread (type ft) (S (index ft)) (interval ft) (active ft) (userID ft) in
              let k1 := TickClosure (k_threadID k) (k_funThread k) (k_funData k) (S (iteration k)) in
              let b2 :=
                Bot (<[k_funThread k := ft1]> (heap b1)) (nextLoc b1) (funThreads b1)
                    (<[handle := k1]> (intervals b1)) (timeouts b1) (nextTimer b1)
                    (outbox b1) (funActive b1) in
              if negb (pausesReturn inp) then tickFailed (k_threadID k) (k_funThread k) b2
              else if decide (iteration k1 mod 15 = 0)%nat then
                let b3 := send (k_threadID k)
                               (statusReport (pick statusMessages (statusDraw inp)) (iteration k1))
                               b2 in
                if negb (statusSent inp) then tickFailed (k_threadID k) (k_funThread k) b3
                else b3
              else b2
      end
  end.

(** The firing of the five-minute timer [handle]; it fires once. *)
Definition autoStop (handle : positive) (b : bot) : bot :=
  match timeouts b !! handle with
  | None => b
  | Some e =>
      let b1 := Bot (heap b) (nextLoc b) (funThreads b) (intervals b)
                    (delete handle (timeouts b)) (nextTimer b) (outbox b) (funActive b) in
      match heap b1 !! e_funThread e with
      | None => b1
      | Some ft =>
          if active ft then
            send (e_threadID e) msgAutoStopped
                 (deleteThread (e_threadID e) (clearInterval (interval ft) b1))
          else b1
      end
  end.

(** [stop(threadID, bot)]. *)
Definition stop (threadID : string) (b : bot) : bool * bot :=
  match getThread threadID b with
  | Some ft =>
      if decide (type ft = "murgi")
      then (true, deleteThread threadID (clearInterval (interval ft) b))
      else (false, b)
  | None => (false, b)
  end.
End Murgi.

End Murgi.

(** ** The [startfun] command ([src/commands/admin/startFun.js]) *)

Module StartFun.
Import Bot.

Definition validTypes : list string := ["chor"; "murgi"; "abal"; "senior"; "cow"; "goat"].

(** What one call of [execute] meets: the data file, which messages the
    transport takes (by thread and text), and whether the pause of
    [delay.humanDelay] returns. *)
Record callInput := CallInput {
  file : Murgi.dataFile;
  transport : string -> string -> bool;
  pauseReturns : bool
}.

Section StartFun.
Variable numberToString : Z -> string.
(** [String.prototype.toLowerCase] and [toUpperCase]. *)
Variable toLowerCase : string -> string.
Variable toUpperCase : string -> string.
(** [execute] of the five sibling modules ([chor], [abal], [senior],
    [cow], [goat]), by name. *)
Variable siblingExecute : string -> string -> value -> bot -> result unit * bot.

Definition nl : string := String "010" EmptyString.

Definition msgUsage (pfx : string) : string :=
  "❌ Please specify a fun type!" +:+ nl
  +:+ "📋 Available types: chor, murgi, abal, senior, cow, goat" +:+ nl
  +:+ "📝 Usage: " +:+ pfx +:+ "startfun <type>".
Definition msgAlreadyActive (pfx activeType : string) : string :=
  "⚠️ " +:+ toUpperCase activeType +:+ " fun is already active in this thread!" +:+ nl
  +:+ "Type " +:+ pfx +:+ "stopfun to stop it first.".
Definition msgInvalidType (funType : string) : string :=
  "❌ Invalid fun type: " +:+ funType +:+ nl
  +:+ "✅ Available types: chor, murgi, abal, senior, cow, goat".
Definition msgNoFile (funType : string) : string :=
  "❌ " +:+ funType +:+ ".json data file not found!" +:+ nl
  +:+ "Please check the data/fun-json directory.".
Definition msgEmpty (funType : string) : string :=
  "❌ " +:+ funType +:+ ".json is empty or invalid!" +:+ nl
  +:+ "Please add some messages to the JSON file.".
Definition msgStarting (pfx funType : string) (total : nat) : string :=
  "🎮 Starting " +:+ toUpperCase funType +:+ " fun..." +:+ nl
  +:+ "📊 Total messages: " +:+ numberToString (Z.of_nat total) +:+ nl
  +:+ "⏰ Auto-stop in 5 minutes" +:+ nl
  +:+ "🛑 Type " +:+ pfx +:+ "stopfun to stop".
Definition msgRunning (funType : string) : string :=
  "✅ " +:+ toUpperCase funType +:+ " fun is now running!" +:+ nl
  +:+ "Enjoy the fun! 🎉".
Definition msgStartError (funType : value) (e : Js.error) : string :=
  "❌ Error starting " +:+ toString numberToString funType +:+ " fun: "
  +:+ CommandProcessor.errorMessage e.

(** [await api.sendMessage(text, threadID)]. *)
Definition sendMessage (inp : callInput) (threadID text : string) (b : bot)
    : result unit * bot :=
  (if transport inp threadID text then Ok tt else Throw (Error "sendMessage failed"),
   send threadID text b).

(** The [switch] over the fun type, then the confirmation. *)
Definition dispatch (inp : callInput) (threadID funType : string) (senderID : value)
    (b : bot) : result unit * bot :=
  let '(r, b1) :=
    if decide (funType = "murgi")
    then Murgi.execute (file inp) (transport inp threadID Murgi.msgStarting)
                       threadID senderID b
    else siblingExecute funType threadID senderID b in
  match r with
  | Throw e => (Throw e, b1)
  | Ok _ =>
      let b2 := setFunActive true b1 in
      if negb (pauseReturns inp) then (Throw (TypeError "delay.humanDelay failed"), b2)
      else sendMessage inp threadID (msgRunning funType) b2
  end.

(** The [try] block of [execute]. *)
Definition execute_try (inp : callInput) (pfx threadID : string) (funType senderID : value)
    (b : bot) : result unit * bot :=
  if negb (truthy funType) then sendMessage inp threadID (msgUsage pfx) b
  else
    match funType with
    | VStr given =>
        let funType := toLowerCase given in
        match funThreads b !! threadID with
        | Some loc =>
            match heap b !! loc with
            | Some activeFun =>
                sendMessage inp threadID (msgAlreadyActive pfx (type activeFun)) b
            | None =>
                (Throw (TypeError "Cannot read properties of undefined (reading 'type')"), b)
            end
        | None =>
            if negb (bool_decide (funType ∈ validTypes)) then
              sendMessage inp threadID (msgInvalidType funType) b
            else
              match file inp with
              | Murgi.FileMissing => sendMessage inp threadID (msgNoFile funType) b
              | Murgi.FileUnreadable => (Throw (Error "readJson failed"), b)
              | Murgi.FileData funData =>
                  if decide (length funData = 0%nat) then
                    sendMessage inp threadID (msgEmpty funType) b
                  else
                    match sendMessage inp threadID
                                      (msgStarting pfx funType (length funData)) b with
                    | (Throw e, b1) => (Throw e, b1)
                    | (Ok _, b1) =>
                        if negb (pauseReturns inp)
                        then (Throw (TypeError "delay.humanDelay failed"), b1)
                        else dispatch inp threadID funType senderID b1
                    end
              end
        end
    | _ => (Throw (TypeError "funType.toLowerCase is not a function"), b)
    end.

(** The variable [funType] when the [catch] block reads it: a string was
    replaced by its lower case before anything could throw. *)
Definition reassigned (funType : value) : value :=
  match funType with
  | VStr given => if truthy funType then VStr (toLowerCase given) else funType
  | _ => funType
  end.

(** [execute(api, threadID, funType, bot, senderID)], with [pfx] the
    bot's prefix: the [catch] block reports the error to the thread. *)
Definition execute (inp : callInput) (pfx threadID : string) (funType senderID : value)
    (b : bot) : result unit * bot :=
  match execute_try inp pfx threadID funType senderID b with
  | (Ok u, b1) => (Ok u, b1)
  | (Throw e, b1) => sendMessage inp threadID (msgStartError (reassigned funType) e) b1
  end.
End StartFun.

End StartFun.

(** ** The [stopfun] command ([src/commands/admin/stopFun.js]) *)

Module StopFun.
Import Bot.

(** What one call of [execute] meets: which messages the transport takes
    (by thread and text), and whether the pause of [delay.humanDelay]
    returns. *)
Record callInput := CallInput {
  transport : string -> string -> bool;
  pauseReturns : bool
}.

(** The modules the [switch] of [execute] hands the stop to, [murgi]
    apart. *)
Definition siblingTypes : list string := ["chor"; "abal"; "senior"; "cow"; "goat"].

(** The object [stopAllFun] returns. *)
Record stopResult := StopResult {
  success : bool;
  stoppedCount : nat;
  message : string
}.

(** The object [emergencyStop] returns. *)
Record emergencyResult := EmergencyResult {
  e_success : bool;
  threadsNotified : nat;
  e_stoppedCount : nat;
  e_message : string
}.

(** [funThread.interval] of the entry of a thread, when the entry is
    there and the handle is not [null]. *)
Definition liveHandle (threadID : string) (b : bot) : option positive :=
  ft ← getThread threadID b; interval ft.

(** One turn of the loop of [stopAllFun]. *)
Definition stopOne (acc : nat * bot) (threadID : string) : nat * bot :=
  match liveHandle threadID acc.2 with
  | Some handle => (S acc.1, deleteThread threadID (clearInterval (Some handle) acc.2))
  | None => acc
  end.

Section StopFun.
Variable numberToString : Z -> string.
Variable toUpperCase : string -> string.
(** [stop] of the five sibling modules, by name. *)
Variable siblingStop : string -> string -> bot -> bool * bot.

Definition nl : string := String "010" EmptyString.

Definition msgNoActive : string :=
  "⚠️ No active fun commands in this thread!" +:+ nl
  +:+ "Use !startfun <type> to start fun.".
Definition msgStopping (funType : string) : string :=
  "🛑 Stopping " +:+ toUpperCase funType +:+ " fun..." +:+ nl +:+ "Please wait...".
Definition msgStopped (funType : string) (sent : nat) : string :=
  "✅ Successfully stopped " +:+ toUpperCase funType +:+ " fun!" +:+ nl
  +:+ "📊 Messages sent: " +:+ numberToString (Z.of_nat sent) +:+ nl
  +:+ "Thanks for using the fun commands! 😊".
Definition msgFailed (funType : string) : string :=
  "❌ Failed to stop " +:+ funType +:+ " fun!" +:+ nl
  +:+ "Please try again or contact the bot owner.".
Definition msgError : string :=
  "❌ Error stopping fun commands!" +:+ nl
  +:+ "Please try again or contact the bot owner.".
Definition msgEmergency (reason : string) : string :=
  "🚨 **EMERGENCY STOP** 🚨" +:+ nl
  +:+ "Reason: " +:+ reason +:+ nl
  +:+ "All fun commands have been stopped." +:+ nl
  +:+ "Contact the bot owner for more information.".

(** [await api.sendMessage(text, threadID)]. *)
Definition sendMessage (inp : callInput) (threadID text : string) (b : bot)
    : result unit * bot :=
  (if transport inp threadID text then Ok tt else Throw (Error "sendMessage failed"),
   send threadID text b).

(** The [switch] over the type of the entry; [loc] is the object the call
    read the type from. *)
Definition stopByType (funType threadID : string) (loc : positive) (b : bot) : bool * bot :=
  if decide (funType = "murgi") then Murgi.stop threadID b
  else if bool_decide (funType ∈ siblingTypes) then siblingStop funType threadID b
  else
    (true,
     deleteThread threadID
       (match heap b !! loc with
        | Some funThread => clearInterval (interval funThread) b
        | None => b
        end)).

(** The [try] block of [execute].  The lookup of the sender's name only
    feeds the log. *)
Definition execute_try (inp : callInput) (threadID : string) (b : bot) : result unit * bot :=
  match funThreads b !! threadID with
  | None => sendMessage inp threadID msgNoActive b
  | Some loc =>
      match heap b !! loc with
      | None => (Throw (TypeError "Cannot read properties of undefined (reading 'type')"), b)
      | Some funThread =>
          let funType := type funThread in
          match sendMessage inp threadID (msgStopping funType) b with
          | (Throw e, b1) => (Throw e, b1)
          | (Ok _, b1) =>
              if negb (pauseReturns inp)
              then (Throw (TypeError "delay.humanDelay failed"), b1)
              else
                let stopped := stopByType funType threadID loc b1 in
                let b2 := stopped.2 in
                if stopped.1 then
                  let sent := match heap b2 !! loc with
                              | Some object => index object
                              | None => 0%nat
                              end in
                  match sendMessage inp threadID (msgStopped funType sent) b2 with
                  | (Throw e, b3) => (Throw e, b3)
                  | (Ok _, b3) =>
                      (Ok tt,
                       if decide (size (funThreads b3) = 0%nat)
                       then setFunActive false b3 else b3)
                  end
                else sendMessage inp threadID (msgFailed funType) b2
          end
      end
  end.

(** [execute(api, threadID, bot, senderID)]: the [catch] block reports to
    the thread. *)
Definition execute (inp : callInput) (threadID : string) (b : bot) : result unit * bot :=
  match execute_try inp threadID b with
  | (Ok u, b1) => (Ok u, b1)
  | (Throw _, b1) => sendMessage inp threadID msgError b1
  end.

(** [stopAllFun(bot)].  The loop visits the keys in the order of the
    table, which the map does not record; what it leaves and what it counts
    do not depend on the order. *)
Definition stopAllFun (b : bot) : stopResult * bot :=
  let threads := (map_to_list (funThreads b)).*1 in
  let stopped := foldl stopOne (0%nat, b) threads in
  (StopResult true stopped.1
     ("Stopped fun in " +:+ numberToString (Z.of_nat stopped.1) +:+ " threads"),
   setFunActive false stopped.2).

(** [emergencyStop(api, bot, reason)].  A notice the transport refuses is
    logged and the loop goes on, so the outcome of the sends does not show. *)
Definition emergencyStop (reason : string) (b : bot) : emergencyResult * bot :=
  let stopResult := stopAllFun b in
  let b1 := stopResult.2 in
  let threads := (map_to_list (funThreads b1)).*1 in
  (EmergencyResult true (length threads) (stoppedCount stopResult.1) (message stopResult.1),
   foldl (fun b' threadID => send threadID (msgEmergency reason) b') b1 threads).
End StopFun.

End StopFun.

(** ** The owner's commands ([addadmin], [removeadmin]) *)

Module OwnerCommands.

(** What the commands act on: [config.admins], the array the guard reads,
    and the calls of [api.sendMessage] made so far, each with its thread. *)
Record state := State {
  admins : list value;
  outbox : list (value * string)
}.

Definition send (threadID : value) (text : string) (st : state) : state :=
  State (admins st) (outbox st ++ [(threadID, text)])%list.

(** [/^\d+$/.test(s)]. *)
Definition isDigit (c : ascii) : bool :=
  (48 <=? nat_of_ascii c)%nat && (nat_of_ascii c <=? 57)%nat.
Fixpoint digitsOnly (s : string) : bool :=
  match s with
  | EmptyString => true
  | String c rest => isDigit c && digitsOnly rest
  end.
Definition allDigits (s : string) : bool :=
  negb (String.eqb s EmptyString) && digitsOnly s.

(** [list.splice(list.indexOf(v), 1)] when [v] is in the list: the first
    occurrence goes. *)
Fixpoint removeFirst (v : value) (l : list value) : list value :=
  match l with
  | [] => []
  | x :: rest => if decide (x = v) then rest else x :: removeFirst v rest
  end.

Section Commands.
Variable numberToString : Z -> string.
Variable sha256hex : string -> string.
Variable lock : Guard.lockFile.

(** [args[0]]. *)
Definition arg0 (args : list value) : value := default VUndefined (head args).

(** [addadmin(api, event, args)]; [written] tells whether
    [fs.writeFileSync] of the configuration returns. *)
Definition addadmin (ev : CommandProcessor.event) (args : list value) (written : bool)
    (st : state) : result unit * state :=
  match Guard.requireOwner numberToString sha256hex lock (CommandProcessor.senderID ev) with
  | Throw e => (Throw e, st)
  | Ok _ =>
      let threadID := CommandProcessor.threadID ev in
      if negb (truthy (arg0 args)) then
        (Ok tt, send threadID "Usage: !addadmin [userID]" st)
      else
        let newAdmin := arg0 args in
        if negb (allDigits (toString numberToString newAdmin)) then
          (Ok tt, send threadID "❌ Invalid user ID." st)
        else if bool_decide (newAdmin ∈ admins st) then
          (Ok tt, send threadID "⚠️ User is already an admin." st)
        else
          let st1 := State (admins st ++ [newAdmin])%list (outbox st) in
          if negb written then (Throw (Error "writeFileSync failed"), st1)
          else
            (Ok tt, send threadID
                         ("✅ Added " +:+ toString numberToString newAdmin +:+ " as admin.") st1)
  end.

(** [removeadmin(api, event, args)]. *)
Definition removeadmin (ev : CommandProcessor.event) (args : list value) (written : bool)
    (st : state) : result unit * state :=
  match Guard.requireOwner numberToString sha256hex lock (CommandProcessor.senderID ev) with
  | Throw e => (Throw e, st)
  | Ok _ =>
      let threadID := CommandProcessor.threadID ev in
      if negb (truthy (arg0 args)) then
        (Ok tt, send threadID "Usage: !removeadmin [userID]" st)
      else
        let adminToRemove := arg0 args in
        if negb (bool_decide (adminToRemove ∈ admins st)) then
          (Ok tt, send threadID "❌ User is not an admin." st)
        else
          let st1 := State (removeFirst adminToRemove (admins st)) (outbox st) in
          if negb written then (Throw (Error "writeFileSync failed"), st1)
          else
            (Ok tt, send threadID
                         ("✅ Removed " +:+ toString numberToString adminToRemove
                          +:+ " from admins.") st1)
  end.
End Commands.

End OwnerCommands.

(** ** The keys of cached command results ([src/utils/cache.js]) *)

Module Cache.

(** ToInt32: the number brought into the signed 32-bit range. *)
Definition toInt32 (z : Z) : Z := ((z + 2 ^ 31) mod 2 ^ 32 - 2 ^ 31)%Z.

(** [hash << 5]. *)
Definition shl5 (hash : Z) : Z := toInt32 (toInt32 hash * 32).

(** [this.charCodeAt(i)] for every [i] below [this.length]. *)
Fixpoint codeUnits (s : string) : list Z :=
  match s with
  | EmptyString => []
  | String c rest => Z.of_nat (nat_of_ascii c) :: codeUnits rest
  end.

(** One turn of the loop of [String.prototype.hashCode]:
    [hash = ((hash << 5) - hash) + char; hash = hash & hash]. *)
Definition hashStep (hash char : Z) : Z := toInt32 (shl5 hash - hash + char).

(** [hashCode] on the code units of the string. *)
Definition hashCodeOf (units : list Z) : Z := fold_left hashStep units 0%Z.

Definition hashCode (s : string) : Z := hashCodeOf (codeUnits s).

Section Keys.
Variable numberToString : Z -> string.
(** [JSON.stringify] of the argument array. *)
Variable jsonStringify : list value -> string.

(** The key of [cacheCommandResult] and [getCachedCommandResult]. *)
Definition commandKey (command : value) (args : list value) : string :=
  "cmd:" +:+ toString numberToString command +:+ ":"
  +:+ numberToString (hashCode (jsonStringify args)).

Definition userKey (userId : value) : string := "user:" +:+ toString numberToString userId.
Definition threadKey (threadId : value) : string :=
  "thread:" +:+ toString numberToString threadId.
End Keys.

End Cache.

(** * Properties *)

(** ** The rate limiter *)

Module RateLimiterFacts.
Import RateLimiter.

Lemma filter_none (P : Z -> Prop) `{!forall x, Decision (P x)} (l : list Z) :
  Forall (fun x => ~ P x) l -> filter P l = [].
Proof.
  induction 1 as [|x l Hx _ IH]; [done|].
  rewrite filter_cons, decide_False by done. exact IH.
Qed.

Lemma filter_all (P : Z -> Prop) `{!forall x, Decision (P x)} (l : list Z) :
  Forall P l -> filter P l = l.
Proof.
  induction 1 as [|x l Hx _ IH]; [done|].
  rewrite filter_cons, decide_True by done. by rewrite IH.
Qed.

(** A rejected check leaves the table as it was. *)
Lemma check_rejected key limit windowMs now (limits : limits_t) :
  fst (check key limit windowMs now limits) = false ->
  snd (check key limit windowMs now limits) = limits.
Proof. unfold check. by case_decide. Qed.

(** An admitted check stores the pruned list with [now] at its end, under
    its key and under no other. *)
Lemma check_admitted key limit windowMs now (limits : limits_t) :
  fst (check key limit windowMs now limits) = true ->
  snd (check key limit windowMs now limits) =
  <[key := (filter (fun time => (now - time < windowMs)%Z) (default [] (limits !! key))
            ++ [now])%list]> limits.
Proof. unfold check. by case_decide. Qed.

(** The check admits exactly when fewer than [limit] timestamps of the key
    are inside the window. *)
Lemma check_admits_iff key limit windowMs now (limits : limits_t) :
  fst (check key limit windowMs now limits) = true <->
  (Z.of_nat (length (filter (fun time => (now - time < windowMs)%Z)
                            (default [] (limits !! key)))) < limit)%Z.
Proof. unfold check. case_decide; simpl; split; intros; (done || lia). Qed.

(** One admitted check of a key whose timestamps are all known. *)
Lemma check_step key limit windowMs now (limits : limits_t) (old kept : list Z) :
  limits !! key = Some old ->
  filter (fun time => (now - time < windowMs)%Z) old = kept ->
  (Z.of_nat (length kept) < limit)%Z ->
  check key limit windowMs now limits = (true, <[key := (kept ++ [now])%list]> limits).
Proof.
  intros Hold Hkept Hlt. unfold check. rewrite Hold. simpl. rewrite Hkept.
  rewrite decide_False by lia. done.
Qed.

(** C3.  With [limit = 5] and [windowMs = 60000], on a key none of whose
    timestamps is inside the window: five checks within one window are all
    admitted and leave their five timestamps under the key, a sixth one
    within the window is rejected and leaves the table untouched, and a check
    made once the window of the first has elapsed is admitted again.  In
    every state a rejected check records nothing and an admitted one appends
    its timestamp. *)
Theorem check_five_per_window (key : string) (limits0 : limits_t)
    (t1 t2 t3 t4 t5 t6 t7 : Z) :
  Forall (fun time => (60000 <= t1 - time)%Z) (default [] (limits0 !! key)) ->
  (t1 <= t2)%Z -> (t2 <= t3)%Z -> (t3 <= t4)%Z -> (t4 <= t5)%Z -> (t5 <= t6)%Z ->
  (t6 - t1 < 60000)%Z ->
  (t6 <= t7)%Z -> (60000 <= t7 - t1)%Z ->
  exists limits5,
    checks key 5 60000 [t1; t2; t3; t4; t5] limits0
    = ([true; true; true; true; true], limits5)
    /\ limits5 !! key = Some [t1; t2; t3; t4; t5]
    /\ check key 5 60000 t6 limits5 = (false, limits5)
    /\ fst (check key 5 60000 t7 limits5) = true
    /\ (forall k limit windowMs now (limits : limits_t),
          fst (check k limit windowMs now limits) = false ->
          snd (check k limit windowMs now limits) = limits)
    /\ (forall k limit windowMs now (limits : limits_t),
          fst (check k limit windowMs now limits) = true ->
          exists kept, snd (check k limit windowMs now limits) !! k
                       = Some (kept ++ [now])%list).
Proof.
  intros Hold H12 H23 H34 H45 H56 Hin H67 Hout.
  assert (H1 : check key 5 60000 t1 limits0 = (true, <[key := [t1]]> limits0)).
  { unfold check. rewrite (filter_none _ _) by (eapply Forall_impl; [exact Hold|]; simpl; lia).
    case_decide; [simpl in *; lia|done]. }
  eexists. split; [|split; [|split; [|split; [|split]]]].
  - simpl. rewrite H1.
    erewrite (check_step key 5 60000 t2 _ [t1] [t1]);
      [|by rewrite lookup_insert_eq|apply filter_all; repeat constructor; lia|simpl; lia].
    erewrite (check_step key 5 60000 t3 _ [t1; t2] [t1; t2]);
      [|by rewrite lookup_insert_eq|apply filter_all; repeat constructor; lia|simpl; lia].
    erewrite (check_step key 5 60000 t4 _ [t1; t2; t3] [t1; t2; t3]);
      [|by rewrite lookup_insert_eq|apply filter_all; repeat constructor; lia|simpl; lia].
    erewrite (check_step key 5 60000 t5 _ [t1; t2; t3; t4] [t1; t2; t3; t4]);
      [|by rewrite lookup_insert_eq|apply filter_all; repeat constructor; lia|simpl; lia].
    reflexivity.
  - by rewrite lookup_insert_eq.
  - unfold check. rewrite lookup_insert_eq. simpl default.
    rewrite filter_all by (repeat constructor; lia).
    case_decide; [done|simpl in *; lia].
  - apply check_admits_iff. rewrite lookup_insert_eq. simpl default.
    rewrite filter_cons, decide_False by lia.
    pose proof (length_filter (fun time => (t7 - time < 60000)%Z) [t2; t3; t4; t5]) as Hle.
    simpl in Hle. lia.
  - apply check_rejected.
  - intros k limit windowMs now limits Hadm. eexists.
    rewrite (check_admitted _ _ _ _ _ Hadm). by rewrite lookup_insert_eq.
Qed.

(** The limiter at work on a concrete minute. *)
Lemma check_five_per_window_witness :
  exists limits5,
    checks "user:fun:42:murgi" 5 60000 [1000; 2000; 3000; 4000; 5000]%Z ∅
    = ([true; true; true; true; true], limits5)
    /\ limits5 !! "user:fun:42:murgi" = Some [1000; 2000; 3000; 4000; 5000]%Z
    /\ check "user:fun:42:murgi" 5 60000 6000 limits5 = (false, limits5)
    /\ fst (check "user:fun:42:murgi" 5 60000 61000 limits5) = true.
Proof.
  destruct (check_five_per_window "user:fun:42:murgi" ∅ 1000 2000 3000 4000 5000 6000 61000)
    as (limits5 & H1 & H2 & H3 & H4 & _); [by constructor|lia..|].
  exists limits5. auto.
Defined.

End RateLimiterFacts.

(** ** The role guard *)

Module GuardFacts.
Import Guard.

Section Facts.
Variable numberToString : Z -> string.
Variable sha256hex : string -> string.

Abbreviation isOwner := (isOwner numberToString sha256hex).
Abbreviation isAdmin := (isAdmin numberToString).

(** [isOwner] returns, whatever the lock file and the id are. *)
Lemma isOwner_returns (lock : lockFile) (userId : value) :
  returns (isOwner lock userId).
Proof.
  unfold Guard.isOwner, verifyOwner.
  destruct (verifyOwner_try _ _ _ _); by eexists.
Qed.

(** [isOwner] answers [true] exactly when the id has a string form and
    the lock file commits to the hash of that string. *)
Lemma isOwner_true_iff (lock : lockFile) (userId : value) :
  isOwner lock userId = Ok true <->
  exists s, toStringMethod numberToString userId = Ok s
            /\ lock = LockData (VStr (sha256hex s)).
Proof.
  unfold Guard.isOwner, verifyOwner, verifyOwner_try, hashUid, strict_eq.
  split.
  - destruct lock as [| |h]; destruct (toStringMethod _ _) as [s|e]; try discriminate.
    intros [= Heq]. apply bool_decide_eq_true in Heq. subst h. by exists s.
  - intros (s & -> & ->). f_equal. by apply bool_decide_eq_true.
Qed.

(** [isAdmin] returns for every id that has a [toString] method. *)
Lemma isAdmin_returns (admins : list value) (userId : value) :
  userId <> VNull -> userId <> VUndefined -> returns (isAdmin admins userId).
Proof.
  intros Hn Hu. unfold Guard.isAdmin.
  destruct userId as [| |[]| |]; try done; by eexists.
Qed.
End Facts.

(** C6.  A sender id whose hash is not the committed one is not the owner:
    when the id has no string form, or the lock file cannot be read, or it
    commits to another hash, [isOwner] returns [false]; it does not throw. *)
Theorem isOwner_false_without_matching_hash
    (numberToString : Z -> string) (sha256hex : string -> string)
    (lock : lockFile) (userId : value) :
  (forall s, toStringMethod numberToString userId = Ok s ->
             lock <> LockData (VStr (sha256hex s))) ->
  isOwner numberToString sha256hex lock userId = Ok false.
Proof.
  intros Hno.
  destruct (isOwner_returns numberToString sha256hex lock userId) as [[] Hb]; [|done].
  apply isOwner_true_iff in Hb as (s & Hs & Hlock). by destruct (Hno s Hs).
Qed.

(** A stand-in for the digest and for the printing of numbers, to run the
    guard on concrete ids. *)
Definition toyDigest (s : string) : string := "#" +:+ s.
Definition toyNumber (n : Z) : string := if decide (n = 0)%Z then "0" else "n".

(** The ids of the claim, one by one: [null], [undefined], the empty string,
    a string that is no id, a number, against a lock file that commits to the
    hash of another id; and the owner's own id against a lock file that
    cannot be read. *)
Lemma isOwner_false_without_matching_hash_witness :
  let committed := LockData (VStr (toyDigest "100012345678")) in
  isOwner toyNumber toyDigest committed VNull = Ok false
  /\ isOwner toyNumber toyDigest committed VUndefined = Ok false
  /\ isOwner toyNumber toyDigest committed (VStr EmptyString) = Ok false
  /\ isOwner toyNumber toyDigest committed (VStr "not an id") = Ok false
  /\ isOwner toyNumber toyDigest committed (VNum 0) = Ok false
  /\ isOwner toyNumber toyDigest LockUnreadable (VStr "100012345678") = Ok false
  /\ isOwner toyNumber toyDigest LockNull (VStr "100012345678") = Ok false.
Proof.
  intros committed.
  repeat match goal with |- _ /\ _ => split end;
    apply isOwner_false_without_matching_hash; intros s Hs;
    (discriminate Hs || (injection Hs as <-; discriminate)).
Defined.

(** C7, at the input where the code departs from it: [isAdmin] calls
    [toString] on the id outside any [try], so on [null] and on [undefined]
    it throws a [TypeError] instead of returning a boolean; on the same ids
    [isOwner] returns [false]. *)
Theorem isAdmin_throws_without_id
    (numberToString : Z -> string) (sha256hex : string -> string)
    (admins : list value) (lock : lockFile) :
  isAdmin numberToString admins VNull
  = Throw (TypeError "Cannot read properties of null (reading 'toString')")
  /\ isAdmin numberToString admins VUndefined
     = Throw (TypeError "Cannot read properties of undefined (reading 'toString')")
  /\ ~ returns (isAdmin numberToString admins VNull)
  /\ ~ returns (isAdmin numberToString admins VUndefined)
  /\ isOwner numberToString sha256hex lock VNull = Ok false
  /\ isOwner numberToString sha256hex lock VUndefined = Ok false.
Proof.
  repeat split; try reflexivity; try (intros [b Hb]; discriminate Hb);
    by destruct lock.
Qed.

End GuardFacts.

(** ** The pipeline *)

Module PipelineFacts.
Import RateLimiter CommandProcessor.

Definition validationMessages : list string :=
  [msgInvalidName; msgInvalidArgs; msgInvalidContext].
Definition rateMessages : list string :=
  [msgRateUser; msgRateThread; msgRateFun; msgRateAdmin].

Lemma validation_not_rate (msg : string) :
  msg ∈ validationMessages -> msg ∉ rateMessages.
Proof.
  unfold validationMessages, rateMessages. intros Hin Hrate.
  repeat (apply elem_of_cons in Hin as [->|Hin]);
    try (by apply elem_of_nil in Hin);
    repeat (apply elem_of_cons in Hrate as [Hrate|Hrate]; [discriminate Hrate|]);
    by apply elem_of_nil in Hrate.
Qed.

(** The state a stage leaves when it rejects with [msg]. *)
Definition rejected (msg : string) (st : state) : state :=
  State (set_rejected msg (ctx st)) (limits st) (audit st) (cacheSets st).

Section Facts.
Variable numberToString : Z -> string.
Variable sha256hex : string -> string.
Variable jsonStringify : list value -> string.
Variable collab : collaborators.

Abbreviation checkRateLimit := (checkRateLimit numberToString sha256hex collab).
Abbreviation middlewares := (middlewares numberToString sha256hex jsonStringify collab).
Abbreviation process := (process numberToString sha256hex jsonStringify collab).

(** Once a stage has cleared [shouldContinue], no later stage runs. *)
Lemma runChain_stopped (ms : list (M unit)) (st : state) :
  shouldContinue (ctx st) = false -> runChain ms st = (Ok tt, st).
Proof.
  intros Hstop. destruct ms as [|m ms]; [done|].
  simpl. unfold bind, getCtx. by rewrite Hstop.
Qed.

(** While the flag is set, the chain runs its next stage. *)
Lemma runChain_cons (m : M unit) (ms : list (M unit)) (st : state) :
  shouldContinue (ctx st) = true ->
  runChain (m :: ms) st =
  match m st with
  | (Ok _, st1) => runChain ms st1
  | (Throw e, st1) => (Throw e, st1)
  end.
Proof.
  intros Hgo. simpl. unfold bind at 1, getCtx. rewrite Hgo. simpl.
  unfold bind at 1. by destruct (m st) as [[]].
Qed.

(** Validation never throws: it lets the state through untouched, or it
    rejects with one of its three messages. *)
Lemma validateInput_cases (st : state) :
  validateInput st = (Ok tt, st)
  \/ exists msg, msg ∈ validationMessages /\ validateInput st = (Ok tt, rejected msg st).
Proof.
  unfold validateInput, bind, getCtx, reject, modifyCtx, ret, validationMessages.
  destruct (negb (Validator.isValidCommandInput _ 1 50));
    [right; eexists; split; [|reflexivity]; set_solver|].
  destruct (existsb _ _);
    [right; eexists; split; [|reflexivity]; set_solver|].
  destruct (_ || _);
    [right; eexists; split; [|reflexivity]; set_solver|].
  by left.
Qed.

(** C4.  An invocation that fails validation is answered with the
    validation message, whatever the rate limiter holds, and so also when a
    quota is exceeded: [validateInput] is the first stage and
    [checkRateLimit] the second, the rejecting stage clears
    [shouldContinue], and a cleared flag keeps every later stage from
    running, so the limiter's table, the audit log and the cache are as
    they were. *)
Theorem invalid_input_rejected_before_rate_check
    (ev : event) (cmd : value) (arguments : list value) (start now : Z)
    (limits0 : limits_t) :
  let st0 := State (initialContext ev cmd arguments start) limits0 [] [] in
  shouldContinue (ctx (snd (validateInput st0))) = false ->
  exists msg,
    process ev cmd arguments start now limits0 = (Ok (VStr msg), rejected msg st0)
    /\ msg ∈ validationMessages
    /\ (msg ∉ rateMessages)
    /\ (exists later, middlewares now = validateInput :: checkRateLimit now :: later)
    /\ (forall ms st, shouldContinue (ctx st) = false -> runChain ms st = (Ok tt, st)).
Proof.
  intros st0 Hinvalid.
  destruct (validateInput_cases st0) as [Hsame|(msg & Hmsg & Hrej)].
  { rewrite Hsame in Hinvalid. discriminate Hinvalid. }
  exists msg. split; [|split; [done|split; [by apply validation_not_rate|split]]].
  - unfold CommandProcessor.process. fold st0.
    unfold CommandProcessor.middlewares.
    rewrite runChain_cons by done. rewrite Hrej.
    by rewrite runChain_stopped.
  - by eexists.
  - apply runChain_stopped.
Qed.

(** *** The admin-action quota *)

Lemma limiter_eq (chk : limits_t -> bool * limits_t) (st : state) :
  limiter chk st
  = (Ok (fst (chk (limits st))),
     State (ctx st) (snd (chk (limits st))) (audit st) (cacheSets st)).
Proof. unfold limiter. by destruct (chk (limits st)). Qed.

(** A check touches its own key only. *)
Lemma check_other_key key other limit windowMs now (limits0 : limits_t) :
  key <> other ->
  snd (check key limit windowMs now limits0) !! other = limits0 !! other.
Proof.
  intros Hne. unfold check. case_decide; simpl; [done|].
  by rewrite lookup_insert_ne.
Qed.

Lemma userCmdKey_not_admin (u u' : value) :
  userCmdKey numberToString u <> userAdminKey numberToString u'.
Proof. unfold userCmdKey, userAdminKey. intros H. by injection H. Qed.

Lemma threadMsgKey_not_admin (t u' : value) :
  threadMsgKey numberToString t <> userAdminKey numberToString u'.
Proof. unfold threadMsgKey, userAdminKey. intros H. by injection H. Qed.

Lemma userFunKey_not_admin (u f u' : value) :
  userFunKey numberToString u f <> userAdminKey numberToString u'.
Proof. unfold userFunKey, userAdminKey. intros H. by injection H. Qed.

(** For the owner the test of the admin-action quota does nothing: the
    limiter is not called. *)
Lemma checkAdminQuota_owner (now : Z) (c : context) (st : state) :
  Guard.isOwner numberToString sha256hex (lock collab) (userId c) = Ok true ->
  checkAdminQuota numberToString sha256hex collab now c st = (Ok tt, st).
Proof.
  intros Howner.
  pose proof Howner as (s & Hs & _)%GuardFacts.isOwner_true_iff.
  unfold checkAdminQuota, bind, guardIsAdmin, guardIsOwner, lift, Guard.isAdmin.
  rewrite Hs, Howner. by destruct (bool_decide _).
Qed.

Definition otherRateMessages : list string := [msgRateUser; msgRateThread; msgRateFun].

(** What the rate-check stage may do to an owner's invocation. *)
Definition ownerFrame (st st' : state) : Prop :=
  limits st' !! userAdminKey numberToString (userId (ctx st))
  = limits st !! userAdminKey numberToString (userId (ctx st))
  /\ (ctx st' = ctx st
      \/ exists msg, msg ∈ otherRateMessages /\ ctx st' = set_rejected msg (ctx st)).

Lemma checkFunQuota_owner (now : Z) (c : context) (st : state) :
  Guard.isOwner numberToString sha256hex (lock collab) (userId c) = Ok true ->
  userId (ctx st) = userId c ->
  ownerFrame st (snd (checkFunQuota numberToString sha256hex collab now c st)).
Proof.
  intros Howner Hu. unfold checkFunQuota, bind at 1, lift.
  destruct (startsWith _ _) as [[]|e]; simpl.
  - unfold bind. rewrite limiter_eq.
    destruct (fst _) eqn:Hadm; simpl.
    + rewrite checkAdminQuota_owner by done. split; simpl; [|by left].
      rewrite Hu. apply check_other_key, userFunKey_not_admin.
    + split; simpl.
      * rewrite Hu. apply check_other_key, userFunKey_not_admin.
      * right. exists msgRateFun. split; [|done]. unfold otherRateMessages. set_solver.
  - rewrite checkAdminQuota_owner by done. split; [done|by left].
  - split; [done|by left].
Qed.

(** C10.  For a sender who passes the owner check, the rate-check stage
    leaves the admin-action quota alone: its test of that quota is the
    identity on the state, the timestamps under the sender's
    [user:admin:] key are as before the stage, and the stage either leaves
    the context as it was or rejects with one of the three other messages,
    never with the admin-action one. *)
Theorem owner_exempt_from_admin_quota (now : Z) (st : state) :
  Guard.isOwner numberToString sha256hex (lock collab) (userId (ctx st)) = Ok true ->
  checkAdminQuota numberToString sha256hex collab now (ctx st) st = (Ok tt, st)
  /\ limits (snd (checkRateLimit now st)) !! userAdminKey numberToString (userId (ctx st))
     = limits st !! userAdminKey numberToString (userId (ctx st))
  /\ (ctx (snd (checkRateLimit now st)) = ctx st
      \/ exists msg, msg ∈ otherRateMessages
                     /\ msg <> msgRateAdmin
                     /\ ctx (snd (checkRateLimit now st)) = set_rejected msg (ctx st)).
Proof.
  intros Howner. split; [by apply checkAdminQuota_owner|].
  cut (ownerFrame st (snd (checkRateLimit now st))).
  { intros [Hkey [Hctx|(msg & Hin & Hctx)]]; (split; [done|]); [by left|right].
    exists msg. split; [done|split; [|done]].
    unfold otherRateMessages in Hin.
    repeat (apply elem_of_cons in Hin as [->|Hin]); try discriminate.
    by apply elem_of_nil in Hin. }
  unfold CommandProcessor.checkRateLimit, bind at 1, getCtx.
  unfold bind at 1. rewrite limiter_eq.
  destruct (fst _) eqn:Huser; simpl.
  - unfold bind at 1. rewrite limiter_eq.
    destruct (fst (checkThreadMessage _ _ _ _)) eqn:Hthread; simpl.
    + match goal with |- ownerFrame _ (snd (checkFunQuota _ _ _ _ _ ?s)) =>
        destruct (checkFunQuota_owner now (ctx st) s Howner eq_refl) as [Hk Hc]
      end.
      split; [|exact Hc]. simpl in Hk. rewrite Hk.
      unfold checkThreadMessage, checkUserCommand.
      rewrite check_other_key by apply threadMsgKey_not_admin.
      apply check_other_key, userCmdKey_not_admin.
    + split; simpl.
      * unfold checkThreadMessage, checkUserCommand.
        rewrite check_other_key by apply threadMsgKey_not_admin.
        apply check_other_key, userCmdKey_not_admin.
      * right. exists msgRateThread. split; [|done]. unfold otherRateMessages. set_solver.
  - split; simpl.
    + apply check_other_key, userCmdKey_not_admin.
    + right. exists msgRateUser. split; [|done]. unfold otherRateMessages. set_solver.
Qed.

(** *** The stages keep the command name *)

(** A computation that leaves the [command] of the context alone. *)
Definition keeps {A} (m : M A) : Prop :=
  forall st, command (ctx (snd (m st))) = command (ctx st).

Lemma keeps_ret {A} (a : A) : keeps (ret a).
Proof. done. Qed.
Lemma keeps_throw {A} (e : Js.error) : keeps (@throw A e).
Proof. done. Qed.
Lemma keeps_lift {A} (r : result A) : keeps (lift r).
Proof. done. Qed.
Lemma keeps_getCtx : keeps getCtx.
Proof. done. Qed.
Lemma keeps_reject (msg : string) : keeps (reject msg).
Proof. done. Qed.
Lemma keeps_recordAudit (c : context) : keeps (recordAudit c).
Proof. done. Qed.
Lemma keeps_limiter (chk : limits_t -> bool * limits_t) : keeps (limiter chk).
Proof. intros st. by rewrite limiter_eq. Qed.
Lemma keeps_bind {A B} (m : M A) (k : A -> M B) :
  keeps m -> (forall a, keeps (k a)) -> keeps (bind m k).
Proof.
  intros Hm Hk st. unfold bind. specialize (Hm st).
  destruct (m st) as [[a|e] st1]; simpl in *; [|done].
  by rewrite Hk.
Qed.

Create HintDb keeps.
Hint Resolve keeps_ret keeps_throw keeps_lift keeps_getCtx keeps_reject
  keeps_recordAudit keeps_limiter : keeps.

Ltac keeps_step :=
  first
    [ apply keeps_bind; [|intros ?]
    | match goal with
      | |- keeps (if ?b then _ else _) => destruct b
      | |- keeps (match ?x with _ => _ end) => destruct x
      end
    | solve [auto with keeps] ].

Lemma keeps_validateInput : keeps validateInput.
Proof. unfold validateInput. repeat keeps_step. Qed.

Lemma keeps_checkRateLimit (now : Z) : keeps (checkRateLimit now).
Proof.
  unfold CommandProcessor.checkRateLimit, checkFunQuota, checkAdminQuota,
    guardIsAdmin, guardIsOwner.
  repeat keeps_step.
Qed.

Lemma keeps_checkPermissions :
  keeps (checkPermissions numberToString sha256hex collab).
Proof.
  unfold checkPermissions, notAdminNorOwner, guardIsAdmin, guardIsOwner.
  repeat keeps_step.
Qed.

Lemma keeps_logCommand : keeps (logCommand collab).
Proof. unfold logCommand. repeat keeps_step. Qed.

Lemma keeps_runChain (ms : list (M unit)) :
  Forall keeps ms -> keeps (runChain ms).
Proof.
  induction 1 as [|m ms Hm _ IH]; simpl; [apply keeps_ret|].
  repeat keeps_step.
Qed.

(** A chain in two parts: the second part starts where the first stopped. *)
Lemma runChain_app (ms1 ms2 : list (M unit)) (st : state) :
  runChain (ms1 ++ ms2) st =
  match runChain ms1 st with
  | (Ok _, st1) => runChain ms2 st1
  | (Throw e, st1) => (Throw e, st1)
  end.
Proof.
  revert st. induction ms1 as [|m ms1 IH]; intros st; [done|].
  destruct (shouldContinue (ctx st)) eqn:Hgo.
  - change ((m :: ms1) ++ ms2)%list with (m :: (ms1 ++ ms2))%list.
    rewrite (runChain_cons m (ms1 ++ ms2)), (runChain_cons m ms1) by exact Hgo.
    destruct (m st) as [[u|e] st1]; [apply IH|done].
  - rewrite (runChain_stopped _ st), (runChain_stopped (m :: ms1) st) by exact Hgo.
    by rewrite runChain_stopped.
Qed.

(** The four stages before [executeCommand]. *)
Definition gate (now : Z) : list (M unit) :=
  [validateInput; checkRateLimit now;
   checkPermissions numberToString sha256hex collab; logCommand collab].

End Facts.

(** *** The pipeline on concrete invocations *)

(** Collaborators of a bot with no admin, an owner committed in the lock
    file, no command module at all, an empty cache and sinks that accept
    whatever they are given. *)
Definition bare : collaborators :=
  Collaborators [] (Guard.LockData (VStr (GuardFacts.toyDigest "100012345678")))
                (fun _ => None) (fun _ => VUndefined)
                (fun _ => Ok tt) (fun _ => Ok tt) (fun _ => Ok tt).

Definition toyJson (l : list value) : string := "[...]".

Definition sender : event := Event (VStr "1001") (VStr "2002").

(** The sender has used up the thirty commands of the minute. *)
Definition busy : limits_t := {[ "user:cmd:1001" := replicate 30 0%Z ]}.

(** An invocation with a script tag for a name, from a sender over the
    command quota: the rate check alone would answer with its own message,
    the pipeline answers with the validation message. *)
Lemma invalid_input_rejected_before_rate_check_witness :
  let st0 := State (initialContext sender (VStr "<script>") [] 0) busy [] [] in
  response (ctx (snd (checkRateLimit GuardFacts.toyNumber GuardFacts.toyDigest bare 1000 st0)))
  = VStr msgRateUser
  /\ exists msg,
       process GuardFacts.toyNumber GuardFacts.toyDigest toyJson bare
               sender (VStr "<script>") [] 0 1000 busy
       = (Ok (VStr msg), rejected msg st0)
       /\ msg ∈ validationMessages
       /\ (msg ∉ rateMessages).
Proof.
  intros st0. split; [vm_compute; reflexivity|].
  destruct (invalid_input_rejected_before_rate_check
              GuardFacts.toyNumber GuardFacts.toyDigest toyJson bare
              sender (VStr "<script>") [] 0 1000 busy)
    as (msg & Hp & Hin & Hout & _); [vm_compute; reflexivity|].
  exists msg. auto.
Defined.



(** The owner is also on the admin list, and the [user:admin:] key of the
    owner already holds the twenty actions of the minute. *)
Definition ownerOnAdminList : collaborators :=
  Collaborators [VStr "100012345678"]
                (Guard.LockData (VStr (GuardFacts.toyDigest "100012345678")))
                (fun _ => None) (fun _ => VUndefined)
                (fun _ => Ok tt) (fun _ => Ok tt) (fun _ => Ok tt).

Definition ownerEvent : event := Event (VStr "100012345678") (VStr "2002").

Definition adminQuotaUsed : limits_t := {[ "user:admin:100012345678" := replicate 20 0%Z ]}.

Lemma owner_exempt_from_admin_quota_witness :
  let st := State (initialContext ownerEvent (VStr "stopfun") [] 0) adminQuotaUsed [] [] in
  let after := snd (checkRateLimit GuardFacts.toyNumber GuardFacts.toyDigest
                                   ownerOnAdminList 1000 st) in
  Guard.isAdmin GuardFacts.toyNumber (admins ownerOnAdminList) (userId (ctx st)) = Ok true
  /\ fst (checkAdminAction GuardFacts.toyNumber (userId (ctx st)) 1000 (limits st)) = false
  /\ checkAdminQuota GuardFacts.toyNumber GuardFacts.toyDigest ownerOnAdminList 1000
                     (ctx st) st = (Ok tt, st)
  /\ limits after !! userAdminKey GuardFacts.toyNumber (userId (ctx st))
     = limits st !! userAdminKey GuardFacts.toyNumber (userId (ctx st))
  /\ (ctx after = ctx st
      \/ exists msg, msg ∈ otherRateMessages /\ msg <> msgRateAdmin
                     /\ ctx after = set_rejected msg (ctx st)).
Proof.
  intros st after. split; [vm_compute; reflexivity|]. split; [vm_compute; reflexivity|].
  apply (owner_exempt_from_admin_quota GuardFacts.toyNumber GuardFacts.toyDigest
           ownerOnAdminList 1000 st).
  vm_compute; reflexivity.
Defined.

End PipelineFacts.

(** ** The fun engine *)

Module FunEngineFacts.
Import FunEngine.

(** The engine's invariant: every live interval belongs to the entry of its
    thread, and handles are handed out in increasing order. *)
Definition wf (w : world) : Prop :=
  (forall h c, timers w !! h = Some c ->
     exists f, activeFuns w !! c_threadId c = Some f /\ interval f = h)
  /\ (forall h, is_Some (timers w !! h) -> (h < nextTimer w)%positive).

(** No live interval sends to [threadId]. *)
Definition quiet (threadId : string) (w : world) : Prop :=
  forall h c, timers w !! h = Some c -> c_threadId c <> threadId.

Lemma wf_initial (templates : gmap string (list string)) : wf (initial templates).
Proof.
  split; simpl.
  - intros h c Hh. by rewrite lookup_empty in Hh.
  - intros h [c Hh]. by rewrite lookup_empty in Hh.
Qed.

Lemma wf_send (threadId text : string) (w : world) : wf w -> wf (send threadId text w).
Proof. done. Qed.

(** A thread without an entry has no live interval. *)
Lemma wf_quiet (threadId : string) (w : world) :
  wf w -> activeFuns w !! threadId = None -> quiet threadId w.
Proof.
  intros [Hown _] Hnone h c Hh Heq.
  destruct (Hown h c Hh) as (f & Hf & _). congruence.
Qed.

(** With the invariant, a thread has at most one live interval. *)
Lemma wf_one_timer (w : world) (h1 h2 : positive) (c1 c2 : closure) :
  wf w -> timers w !! h1 = Some c1 -> timers w !! h2 = Some c2 ->
  c_threadId c1 = c_threadId c2 -> h1 = h2.
Proof.
  intros [Hown _] H1 H2 Heq.
  destruct (Hown _ _ H1) as (f1 & Hf1 & <-).
  destruct (Hown _ _ H2) as (f2 & Hf2 & <-).
  congruence.
Qed.

Section Facts.
Variable numberToString : Z -> string.

Abbreviation stopFun := (stopFun numberToString).
Abbreviation tick := (tick numberToString).
Abbreviation step := (step numberToString).
Abbreviation run := (run numberToString).

(** A start in a thread that already has an entry fails and changes
    nothing. *)
Lemma startFun_active (threadId funType : string) (user : value) (now : Z) (w : world) :
  is_Some (activeFuns w !! threadId) ->
  startFun threadId funType user now w = (Failure errAlreadyRunning, w).
Proof. intros Hsome. unfold FunEngine.startFun. by rewrite decide_True. Qed.

(** A start in a free thread with a known, non-empty template set. *)
Lemma startFun_fresh (threadId funType : string) (user : value) (now : Z) (w : world)
    (templateLines : list string) :
  activeFuns w !! threadId = None ->
  funTemplates w !! funType = Some templateLines ->
  templateLines <> [] ->
  startFun threadId funType user now w
  = (Success ("✅ " +:+ funType +:+ " fun started!") None,
     World (<[threadId := ActiveFun funType (nextTimer w) 0 templateLines user now 0]>
              (activeFuns w))
           (funTemplates w)
           (<[nextTimer w := Closure threadId funType user templateLines 0]> (timers w))
           (Pos.succ (nextTimer w)) (outbox w)).
Proof.
  intros Hfree Htpl Hne. unfold FunEngine.startFun.
  rewrite decide_False by (rewrite Hfree; by intros [? ?]).
  rewrite Htpl. rewrite decide_False; [done|].
  by destruct templateLines.
Qed.

Lemma wf_startFun (threadId funType : string) (user : value) (now : Z) (w : world) :
  wf w -> wf (snd (startFun threadId funType user now w)).
Proof.
  intros Hwf. pose proof Hwf as [Hown Hfresh]. unfold FunEngine.startFun.
  case_decide as Hact; [done|].
  destruct (funTemplates w !! funType) as [templateLines|]; [|done].
  case_decide; [done|]. simpl.
  assert (Hfree : activeFuns w !! threadId = None).
  { destruct (activeFuns w !! threadId) eqn:E; [|done]. by destruct Hact. }
  assert (Hnew : timers w !! nextTimer w = None).
  { destruct (timers w !! nextTimer w) eqn:E; [|done].
    specialize (Hfresh (nextTimer w) ltac:(by eexists)). lia. }
  split; simpl.
  - intros h c Hh. destruct (decide (h = nextTimer w)) as [->|Hne].
    + rewrite lookup_insert_eq in Hh. injection Hh as <-. simpl.
      rewrite lookup_insert_eq. by eexists.
    + rewrite lookup_insert_ne in Hh by done.
      destruct (Hown h c Hh) as (f & Hf & Hi). exists f. split; [|done].
      rewrite lookup_insert_ne; [done|]. intros ->. congruence.
  - intros h [c Hh]. destruct (decide (h = nextTimer w)) as [->|Hne]; [lia|].
    rewrite lookup_insert_ne in Hh by done.
    specialize (Hfresh h ltac:(by eexists)). lia.
Qed.

Lemma wf_stopFun (threadId : string) (now : Z) (w : world) :
  wf w -> wf (snd (stopFun threadId now w)).
Proof.
  intros [Hown Hfresh]. unfold FunEngine.stopFun.
  destruct (activeFuns w !! threadId) as [f|] eqn:Hf; [|done]. simpl.
  split; simpl.
  - intros h c Hh.
    apply lookup_delete_Some in Hh as [Hne Hh].
    destruct (Hown h c Hh) as (f' & Hf' & Hi). exists f'. split; [|done].
    rewrite lookup_delete_ne; [done|]. intros ->. congruence.
  - intros h [c Hh]. apply lookup_delete_Some in Hh as [_ Hh].
    apply Hfresh. by eexists.
Qed.

Lemma wf_tick (h : positive) (o : outcome) (now : Z) (w : world) :
  wf w -> wf (tick h o now w).
Proof.
  intros Hwf. pose proof Hwf as [Hown Hfresh]. unfold FunEngine.tick.
  destruct (timers w !! h) as [c|] eqn:Hc; [|done].
  match goal with |- context [World ?a ?b ?t ?n ?o] =>
    assert (Hwf1 : wf (World a b t n o)) end.
  { split; simpl.
    - intros h' c' Hh'. destruct (decide (h' = h)) as [->|Hne].
      + rewrite lookup_insert_eq in Hh'. injection Hh' as <-. simpl. by apply Hown.
      + rewrite lookup_insert_ne in Hh' by done. by apply Hown.
    - intros h' [c' Hh']. apply Hfresh. destruct (decide (h' = h)) as [->|Hne].
      + by eexists.
      + rewrite lookup_insert_ne in Hh' by done. by eexists. }
  destruct o; unfold tickFailed;
    repeat first [apply wf_send | apply wf_stopFun]; exact Hwf1.
Qed.

Lemma wf_step (a : action) (now : Z) (w : world) : wf w -> wf (step a now w).
Proof.
  destruct a; simpl; auto using wf_startFun, wf_stopFun, wf_tick.
Qed.

(** The invariant holds all along every run of the engine. *)
Lemma wf_run (trace : list (action * Z)) (w : world) : wf w -> wf (run trace w).
Proof.
  revert w. induction trace as [|[a now] trace IH]; intros w Hwf; [done|].
  simpl. apply IH, wf_step, Hwf.
Qed.

(** *** Threads without a live interval stay silent *)

Lemma sentTo_send_ne (threadId other text : string) (w : world) :
  other <> threadId -> sentTo threadId (send other text w) = sentTo threadId w.
Proof.
  intros Hne. unfold sentTo, send. simpl.
  rewrite filter_app, filter_cons, decide_False by done.
  by rewrite filter_nil, app_nil_r.
Qed.

Lemma stopFun_outbox (threadId : string) (now : Z) (w : world) :
  outbox (snd (stopFun threadId now w)) = outbox w.
Proof. unfold FunEngine.stopFun. by destruct (activeFuns w !! threadId). Qed.

Lemma quiet_stopFun (threadId other : string) (now : Z) (w : world) :
  quiet threadId w -> quiet threadId (snd (stopFun other now w)).
Proof.
  intros Hq. unfold FunEngine.stopFun.
  destruct (activeFuns w !! other) as [f|]; [|done]. simpl.
  intros h c Hh. simpl in Hh. apply lookup_delete_Some in Hh as [_ Hh]. by eapply Hq.
Qed.

Lemma tick_quiet (threadId : string) (h : positive) (o : outcome) (now : Z) (w : world) :
  quiet threadId w ->
  quiet threadId (tick h o now w)
  /\ sentTo threadId (tick h o now w) = sentTo threadId w.
Proof.
  intros Hq. unfold FunEngine.tick.
  destruct (timers w !! h) as [c|] eqn:Hc; [|done].
  pose proof (Hq h c Hc) as Hne.
  match goal with |- context [World ?a ?b ?t ?n ?o] =>
    set (w1 := World a b t n o) end.
  assert (Hq1 : quiet threadId w1).
  { intros h' c' Hh'. simpl in Hh'. destruct (decide (h' = h)) as [->|Hd].
    - rewrite lookup_insert_eq in Hh'. by injection Hh' as <-.
    - rewrite lookup_insert_ne in Hh' by done. by eapply Hq. }
  assert (Hfail : forall w2, quiet threadId w2 ->
            quiet threadId (tickFailed numberToString (c_threadId c) now w2)
            /\ sentTo threadId (tickFailed numberToString (c_threadId c) now w2)
               = sentTo threadId w2).
  { intros w2 Hq2. unfold tickFailed. split.
    - intros h' c' Hh'. by apply (quiet_stopFun threadId (c_threadId c) now w2 Hq2 h' c').
    - rewrite sentTo_send_ne by done. unfold sentTo. by rewrite stopFun_outbox. }
  destruct o.
  - destruct (Hfail w1 Hq1) as [H1 H2]. split; [done|]. by rewrite H2.
  - match goal with |- context [tickFailed _ _ _ ?w2] =>
      destruct (Hfail w2) as [H1 H2]; [done|] end.
    split; [done|]. rewrite H2. by rewrite sentTo_send_ne.
  - match goal with |- context [tickFailed _ _ _ ?w2] =>
      destruct (Hfail w2) as [H1 H2]; [done|] end.
    split; [done|]. rewrite H2. by rewrite sentTo_send_ne.
  - split; [done|]. by rewrite sentTo_send_ne.
Qed.

(** The firings of the scheduler, as a run. *)
Definition firings (l : list (positive * outcome * Z)) : list (action * Z) :=
  (fun f => (ATick f.1.1 f.1.2, f.2)) <$> l.

Lemma firings_quiet (threadId : string) (l : list (positive * outcome * Z)) (w : world) :
  quiet threadId w -> sentTo threadId (run (firings l) w) = sentTo threadId w.
Proof.
  revert w. induction l as [|[[h o] now] l IH]; intros w Hq; [done|].
  simpl. destruct (tick_quiet threadId h o now w Hq) as [Hq1 Hs].
  rewrite IH by done. exact Hs.
Qed.

Lemma roundSeconds_nonneg (ms : Z) : (0 <= ms)%Z -> (0 <= roundSeconds ms)%Z.
Proof. intros Hms. unfold roundSeconds. apply Z.div_pos; lia. Qed.


(** *** A failed send *)

(** When the body of a tick fails, the entry of the thread and the
    interval are removed and the failure is reported to the thread; the
    line that was refused is not sent again. *)
Lemma tick_failure_stops_and_reports (w : world) (h : positive) (c : closure) (now : Z) :
  wf w ->
  timers w !! h = Some c ->
  let i := if decide (length (c_lines c) <= currentIndex c)%nat then 0%nat
           else currentIndex c in
  let line := default "undefined" (c_lines c !! i) in
  let w' := tick h SendFails now w in
  activeFuns w' !! c_threadId c = None
  /\ timers w' !! h = None
  /\ outbox w' = (outbox w ++ [(c_threadId c, line); (c_threadId c, msgSendFailed)])%list.
Proof.
  intros [Hown _] Hc i line w'. subst w'. unfold FunEngine.tick. rewrite Hc.
  destruct (Hown h c Hc) as (f & Hf & Hi).
  unfold tickFailed, FunEngine.stopFun. simpl. rewrite Hf. simpl.
  rewrite Hi. rewrite !lookup_delete_eq.
  split; [done|]. split; [done|]. by rewrite <- app_assoc.
Qed.
End Facts.

(** An engine that knows one template set and runs no loop. *)
Definition henhouse : world := initial {[ "murgi" := ["a"; "b"] ]}.


End FunEngineFacts.

(** ** The fun commands on [bot.funThreads] *)

Module MurgiFacts.
Import Bot Murgi.

(** Every object of the heap has its [active] flag set. *)
Definition allActive (b : bot) : Prop :=
  forall loc ft, heap b !! loc = Some ft -> active ft = true.

Lemma allActive_initial : allActive initial.
Proof. intros loc ft Hft. cbn in Hft. by rewrite lookup_empty in Hft. Qed.

Lemma allActive_heap (b b' : bot) : heap b' = heap b -> allActive b -> allActive b'.
Proof. intros Heq Hall loc ft. rewrite Heq. apply Hall. Qed.

Lemma heap_clearInterval (h : option positive) (b : bot) : heap (clearInterval h b) = heap b.
Proof. by destruct h. Qed.

Lemma heap_tickFailed (threadID : string) (loc : positive) (b : bot) :
  heap (tickFailed threadID loc b) = heap b.
Proof.
  unfold tickFailed. destruct (heap b !! loc); [|done].
  simpl. apply heap_clearInterval.
Qed.

Section Facts.
Variable numberToString : Z -> string.

Abbreviation tick := (tick numberToString).

Lemma allActive_execute (file : dataFile) (sendOk : bool) (threadID : string)
    (user : value) (b : bot) :
  allActive b -> allActive (snd (execute file sendOk threadID user b)).
Proof.
  intros Hall. unfold execute. destruct file as [| |funData]; [done..|].
  set (b1 := match funThreads b !! threadID with Some _ => b | None => _ end).
  assert (Hall1 : allActive b1).
  { subst b1. destruct (funThreads b !! threadID); [done|].
    intros loc ft. simpl. destruct (decide (loc = nextLoc b)) as [->|Hne].
    - rewrite lookup_insert_eq. by intros [= <-].
    - rewrite lookup_insert_ne by done. apply Hall. }
  destruct sendOk; simpl; [|done].
  destruct (funThreads b1 !! threadID) as [loc|]; [|done]. simpl.
  intros loc' ft. simpl. destruct (decide (loc' = loc)) as [->|Hne].
  - rewrite lookup_alter_eq. destruct (heap b1 !! loc) as [ft0|] eqn:E; [|done].
    simpl. intros [= <-]. simpl. by eapply Hall1.
  - rewrite lookup_alter_ne by done. apply Hall1.
Qed.

Lemma allActive_tick (h : positive) (inp : tickInput) (b : bot) :
  allActive b -> allActive (tick h inp b).
Proof.
  intros Hall. unfold Murgi.tick.
  destruct (intervals b !! h) as [k|]; [|done].
  destruct (heap b !! k_funThread k) as [ft|] eqn:Hft; [|done].
  pose proof (Hall _ _ Hft) as Hact.
  destruct (negb (active ft)) eqn:E; [by rewrite Hact in E|].
  assert (Hall2 : forall o f, allActive
            (Bot (<[k_funThread k :=
                      FunThread (type ft) (S (index ft)) (interval ft) (active ft) (userID ft)]>
                    (heap b)) (nextLoc b) (funThreads b) o (timeouts b) (nextTimer b)
                 f (funActive b))).
  { intros o f loc ft'. simpl. destruct (decide (loc = k_funThread k)) as [->|Hne].
    - rewrite lookup_insert_eq. intros [= <-]. simpl. by eapply Hall.
    - rewrite lookup_insert_ne by done. apply Hall. }
  repeat (match goal with
          | |- allActive (if ?c then _ else _) => destruct c
          end);
    try (eapply allActive_heap; [apply heap_tickFailed|]);
    try (eapply allActive_heap; [reflexivity|]); try apply Hall2; try exact Hall.
Qed.

Lemma allActive_autoStop (h : positive) (b : bot) : allActive b -> allActive (autoStop h b).
Proof.
  intros Hall. unfold autoStop.
  destruct (timeouts b !! h) as [e|]; [|done]. simpl.
  destruct (heap b !! e_funThread e) as [ft|]; [|done].
  destruct (active ft); [|done].
  eapply allActive_heap; [|exact Hall]. simpl. by rewrite heap_clearInterval.
Qed.

Lemma allActive_stop (threadID : string) (b : bot) :
  allActive b -> allActive (snd (stop threadID b)).
Proof.
  intros Hall. unfold stop. destruct (getThread threadID b) as [ft|]; [|done].
  case_decide; [|done]. simpl.
  eapply allActive_heap; [|exact Hall]. simpl. apply heap_clearInterval.
Qed.

(** *** A failed send *)

(** When the transport refuses the message of a tick, the tick sends
    nothing after it: the refused message is the last entry of the outbox,
    and the entry of the thread is gone. *)
Lemma tick_failure_silent (h : positive) (k : tickClosure) (ft : funThread)
    (inp : tickInput) (b : bot) :
  intervals b !! h = Some k ->
  heap b !! k_funThread k = Some ft ->
  active ft = true ->
  messageSent inp = false ->
  exists refused,
    outbox (tick h inp b) = (outbox b ++ [(k_threadID k, refused)])%list
    /\ funThreads (tick h inp b) !! k_threadID k = None.
Proof.
  intros Hk Hft Hact Hsend. unfold Murgi.tick. rewrite Hk, Hft, Hact, Hsend. simpl.
  unfold tickFailed. simpl. rewrite Hft. eexists.
  destruct (interval ft); simpl; by rewrite lookup_delete_eq.
Qed.

(** *** Manual stop and expiry *)

(** The five-minute timer fires once. *)
Lemma autoStop_fires_once (h : positive) (b : bot) :
  autoStop h (autoStop h b) = autoStop h b.
Proof.
  assert (Hgone : timeouts (autoStop h b) !! h = None).
  { unfold autoStop. destruct (timeouts b !! h) as [e|] eqn:He; [|done]. simpl.
    destruct (heap b !! e_funThread e) as [ft|]; [|by apply lookup_delete_eq].
    destruct (active ft); simpl; [|by apply lookup_delete_eq].
    destruct (interval ft); simpl; by apply lookup_delete_eq. }
  unfold autoStop at 1. by rewrite Hgone.
Qed.

(** A stop in a thread without an entry does nothing: when the expiry
    fired first, the later manual stop is refused. *)
Lemma stop_without_entry (threadID : string) (b : bot) :
  funThreads b !! threadID = None -> stop threadID b = (false, b).
Proof. intros Hnone. unfold stop, getThread. by rewrite Hnone. Qed.

Lemma autoStop_removes_entry (h : positive) (e : expiryClosure) (b : bot) :
  allActive b ->
  timeouts b !! h = Some e ->
  is_Some (heap b !! e_funThread e) ->
  funThreads (autoStop h b) !! e_threadID e = None
  /\ outbox (autoStop h b) = (outbox b ++ [(e_threadID e, msgAutoStopped)])%list.
Proof.
  intros Hall He [ft Hft]. unfold autoStop. rewrite He. simpl. rewrite Hft.
  rewrite (Hall _ _ Hft). simpl.
  destruct (interval ft); simpl; by rewrite lookup_delete_eq.
Qed.

(** The manual stop leaves the five-minute timer armed and the flag it
    tests set: when the timer fires after the stop, it sends its notice
    and deletes whatever entry the thread has by then. *)
Lemma autoStop_after_stop (h : positive) (e : expiryClosure) (threadID : string) (b : bot) :
  allActive b ->
  timeouts b !! h = Some e ->
  is_Some (heap b !! e_funThread e) ->
  let b' := autoStop h (snd (stop threadID b)) in
  funThreads b' !! e_threadID e = None
  /\ outbox b' = (outbox b ++ [(e_threadID e, msgAutoStopped)])%list.
Proof.
  intros Hall He Hft b'. subst b'.
  assert (Hkeep : timeouts (snd (stop threadID b)) = timeouts b
                  /\ heap (snd (stop threadID b)) = heap b
                  /\ outbox (snd (stop threadID b)) = outbox b).
  { unfold stop. destruct (getThread threadID b) as [ft|]; [|done].
    case_decide; [|done]. simpl. by destruct (interval ft). }
  destruct Hkeep as (Ht & Hh & Ho).
  destruct (autoStop_removes_entry h e (snd (stop threadID b))) as [H1 H2].
  - by apply allActive_stop.
  - by rewrite Ht.
  - by rewrite Hh.
  - by rewrite H2, Ho.
Qed.
End Facts.

(** *** Runs of one loop *)

Definition lines : dataFile := FileData ["a"; "b"].
Definition started : bot := snd (execute lines true "t1" (VStr "1001") initial).
Definition stopped : bot := snd (stop "t1" started).
Definition restarted : bot := snd (execute lines true "t1" (VStr "1001") stopped).

(** A loop that is left alone: its expiry, handle 2, removes the entry,
    clears the interval, handle 1, and sends one notice; fired again it does
    nothing, and a manual stop that comes after it is refused. *)
Lemma expiry_of_untouched_loop :
  let expired := autoStop 2 started in
  funThreads expired !! "t1" = None
  /\ intervals expired !! 1%positive = None
  /\ sentTo "t1" expired = [msgStarting; msgAutoStopped]
  /\ autoStop 2 expired = expired
  /\ stop "t1" expired = (false, expired).
Proof.
  intros expired. split; [by vm_compute|]. split; [by vm_compute|].
  split; [by vm_compute|]. split; [apply autoStop_fires_once|].
  apply stop_without_entry. by vm_compute.
Qed.

(** C2, where the code departs from it.  A loop is started in thread [t1]
    and stopped by hand: the stop succeeds and removes the entry and the
    interval, but the expiry, handle 2, stays armed, and when it fires it
    sends the expiry notice all the same.  If a new loop was started in [t1]
    in between, the old expiry also deletes the entry of the new loop, whose
    interval, handle 3, goes on firing. *)
Theorem expiry_fires_after_manual_stop :
  fst (stop "t1" started) = true
  /\ funThreads stopped !! "t1" = None
  /\ intervals stopped !! 1%positive = None
  /\ is_Some (timeouts stopped !! 2%positive)
  /\ sentTo "t1" (autoStop 2 stopped) = (sentTo "t1" stopped ++ [msgAutoStopped])%list
  /\ is_Some (funThreads restarted !! "t1")
  /\ funThreads (autoStop 2 restarted) !! "t1" = None
  /\ is_Some (intervals (autoStop 2 restarted) !! 3%positive)
  /\ sentTo "t1" (autoStop 2 restarted) = (sentTo "t1" restarted ++ [msgAutoStopped])%list.
Proof.
  repeat match goal with |- _ /\ _ => split end;
    vm_compute; first [reflexivity | by eexists].
Qed.

(** C9, where the code departs from it.  The transport refuses the first
    message of a murgi loop: the tick removes the entry and clears the
    interval, and sends nothing more, so the thread has the start message and
    the refused line and no report of the failure.  On the same failure the
    tick of the engine sends its report. *)
Theorem murgi_send_failure_not_reported :
  let failed := tick GuardFacts.toyNumber 1 (TickInput 0 0 false true true) started in
  funThreads failed !! "t1" = None
  /\ intervals failed !! 1%positive = None
  /\ sentTo "t1" failed = [msgStarting; "🐔 a 🐔"]
  /\ FunEngine.sentTo "t1"
       (FunEngine.tick GuardFacts.toyNumber 1 FunEngine.SendFails 0
          (snd (FunEngine.startFun "t1" "murgi" (VStr "1001") 0 FunEngineFacts.henhouse)))
     = ["a"; FunEngine.msgSendFailed].
Proof. repeat split; by vm_compute. Qed.

End MurgiFacts.

(** ** One loop per conversation *)

Module StartFunFacts.
Import Bot StartFun.

(** Two states of the bot with the same loops: the same table, the same
    objects, the same timers; only the outbox may differ. *)
Definition sameLoops (b b' : bot) : Prop :=
  heap b' = heap b /\ nextLoc b' = nextLoc b /\ funThreads b' = funThreads b
  /\ intervals b' = intervals b /\ timeouts b' = timeouts b
  /\ nextTimer b' = nextTimer b /\ funActive b' = funActive b.

Lemma sameLoops_refl (b : bot) : sameLoops b b.
Proof. by repeat split. Qed.

Lemma sameLoops_sendMessage (inp : callInput) (threadID text : string) (b0 b : bot) :
  sameLoops b0 b -> sameLoops b0 (snd (sendMessage inp threadID text b)).
Proof. done. Qed.

Section Facts.
Variable numberToString : Z -> string.
Variable toLowerCase : string -> string.
Variable toUpperCase : string -> string.
Variable siblingExecute : string -> string -> value -> bot -> result unit * bot.

Abbreviation execute := (execute numberToString toLowerCase toUpperCase siblingExecute).
Abbreviation execute_try :=
  (execute_try numberToString toLowerCase toUpperCase siblingExecute).

(** In a thread that has an entry, the [try] block of [startfun] does
    nothing but send: the usage for a missing type, the warning that a fun
    is already active for a type that is a string. *)
Lemma execute_try_active (inp : callInput) (pfx threadID : string)
    (funType senderID : value) (b : bot) (loc : positive) (activeFun : funThread) :
  funThreads b !! threadID = Some loc ->
  heap b !! loc = Some activeFun ->
  sameLoops b (snd (execute_try inp pfx threadID funType senderID b))
  /\ (truthy funType = true -> is_string funType = true ->
      execute_try inp pfx threadID funType senderID b
      = sendMessage inp threadID (msgAlreadyActive toUpperCase pfx (type activeFun)) b).
Proof.
  intros Hloc Hobj. unfold StartFun.execute_try.
  destruct (truthy funType) eqn:Htruthy; simpl.
  - destruct funType as [| | | |given]; try (split; [apply sameLoops_refl|done]).
    rewrite Hloc, Hobj. split; [by repeat split|done].
  - split; [by repeat split|done].
Qed.

(** The same for the whole of [execute], whose [catch] block only sends. *)
Lemma execute_active (inp : callInput) (pfx threadID : string)
    (funType senderID : value) (b : bot) (loc : positive) (activeFun : funThread) :
  funThreads b !! threadID = Some loc ->
  heap b !! loc = Some activeFun ->
  sameLoops b (snd (execute inp pfx threadID funType senderID b))
  /\ (truthy funType = true -> is_string funType = true ->
      exists rest,
        outbox (snd (execute inp pfx threadID funType senderID b))
        = (outbox b
           ++ (threadID, msgAlreadyActive toUpperCase pfx (type activeFun)) :: rest)%list).
Proof.
  intros Hloc Hobj.
  destruct (execute_try_active inp pfx threadID funType senderID b loc activeFun Hloc Hobj)
    as [Hsame Hwarn].
  unfold StartFun.execute. split.
  - destruct (execute_try _ _ _ _ _ _) as [[u|e] b1]; [done|].
    by apply sameLoops_sendMessage.
  - intros Ht Hs. rewrite (Hwarn Ht Hs). unfold sendMessage.
    destruct (transport inp threadID _); simpl.
    + by exists [].
    + eexists. by rewrite <- app_assoc.
Qed.

(** C1.  In the engine a thread has at most one loop: along every run
    from the initial state, two live intervals of one thread are the same
    interval.  And while a thread has a loop, a second start changes
    nothing: [startFun] of the engine returns its failure and the engine is
    as it was, entry, counters and interval handle included; [execute] of
    the [startfun] command leaves the table, the objects and the timers of
    the bot as they were, and answers a given type with the warning that a
    fun is already active. *)
Theorem second_start_rejected
    (w : FunEngine.world) (b : bot) (threadId : string)
    (f : FunEngine.activeFun) (loc : positive) (activeFun : funThread) :
  FunEngine.activeFuns w !! threadId = Some f ->
  funThreads b !! threadId = Some loc ->
  heap b !! loc = Some activeFun ->
  (forall funType user now,
      FunEngine.startFun threadId funType user now w
      = (FunEngine.Failure FunEngine.errAlreadyRunning, w))
  /\ (forall inp pfx funType senderID,
        sameLoops b (snd (execute inp pfx threadId funType senderID b))
        /\ (truthy funType = true -> is_string funType = true ->
            exists rest,
              outbox (snd (execute inp pfx threadId funType senderID b))
              = (outbox b
                 ++ (threadId, msgAlreadyActive toUpperCase pfx (type activeFun)) :: rest)%list))
  /\ (forall templates trace h1 h2 c1 c2,
        let reached := FunEngine.run numberToString trace (FunEngine.initial templates) in
        FunEngine.timers reached !! h1 = Some c1 ->
        FunEngine.timers reached !! h2 = Some c2 ->
        FunEngine.c_threadId c1 = FunEngine.c_threadId c2 ->
        h1 = h2).
Proof.
  intros Hf Hloc Hobj. split; [|split].
  - intros funType user now. apply FunEngineFacts.startFun_active. by eexists.
  - intros inp pfx funType senderID. by eapply execute_active.
  - intros templates trace h1 h2 c1 c2 reached.
    apply FunEngineFacts.wf_one_timer.
    apply FunEngineFacts.wf_run, FunEngineFacts.wf_initial.
Qed.
End Facts.

(** A second start, of another type and by another sender, in a thread
    whose murgi loop has just been started: by the engine's [startFun], and
    by the [startfun] command. *)
Lemma second_start_rejected_witness :
  let w := snd (FunEngine.startFun "t1" "murgi" (VStr "1001") 0 FunEngineFacts.henhouse) in
  let b := MurgiFacts.started in
  let inp := CallInput MurgiFacts.lines (fun _ _ => true) true in
  let noSibling := fun (_ _ : string) (_ : value) (b : bot) => (Ok tt, b) in
  FunEngine.startFun "t1" "chor" (VStr "1002") 5 w
  = (FunEngine.Failure FunEngine.errAlreadyRunning, w)
  /\ sameLoops b (snd (execute GuardFacts.toyNumber id id noSibling
                               inp "!" "t1" (VStr "chor") (VStr "1002") b))
  /\ exists rest,
       outbox (snd (execute GuardFacts.toyNumber id id noSibling
                            inp "!" "t1" (VStr "chor") (VStr "1002") b))
       = (outbox b ++ ("t1", msgAlreadyActive id "!" "murgi") :: rest)%list.
Proof.
  intros w b inp noSibling.
  destruct (second_start_rejected GuardFacts.toyNumber id id noSibling w b "t1"
              (FunEngine.ActiveFun "murgi" 1 0 ["a"; "b"] (VStr "1001") 0 0) 1%positive
              (FunThread "murgi" 0 (Some 1%positive) true (VStr "1001")))
    as (Hengine & Hcommand & _); [vm_compute; reflexivity..|].
  split; [apply Hengine|].
  destruct (Hcommand inp "!" (VStr "chor") (VStr "1002")) as [Hsame Hwarn].
  split; [exact Hsame|]. by apply Hwarn.
Defined.

End StartFunFacts.

(** * Further properties *)

(** ** The rate limiter: lazy pruning, sweeps, status *)

Module RateLimiterTraces.
Import RateLimiter.

(** The test of the window at the time [now]. *)
Abbreviation inWindow windowMs now := (fun time : Z => (now - time < windowMs)%Z).

(** Counting over the whole history of admissions, with nothing pruned:
    a check at [now] is admitted when fewer than [limit] of all the earlier
    admissions are inside its window. *)
Fixpoint history (limit windowMs : Z) (times admitted : list Z) : list bool :=
  match times with
  | [] => []
  | now :: rest =>
      if decide (Z.of_nat (length (filter (inWindow windowMs now) admitted)) < limit)%Z
      then true :: history limit windowMs rest (admitted ++ [now])
      else false :: history limit windowMs rest admitted
  end.

Lemma filter_filter_implies (P Q : Z -> Prop)
    `{!forall x, Decision (P x)} `{!forall x, Decision (Q x)} (l : list Z) :
  (forall x, P x -> Q x) -> filter P (filter Q l) = filter P l.
Proof.
  intros Himp. induction l as [|x l IH]; [done|].
  rewrite (filter_cons Q). destruct (decide (Q x)) as [Hq|Hq].
  - rewrite !filter_cons. destruct (decide (P x)); by rewrite IH.
  - rewrite (filter_cons P), decide_False by (intros Hp; by apply Hq, Himp). exact IH.
Qed.

(** What the stored list [stored] keeps of the history [admitted]: from the
    time [prev] on, both have the same timestamps inside every window. *)
Definition tracks (windowMs prev : Z) (stored admitted : list Z) : Prop :=
  forall now, (prev <= now)%Z ->
    filter (inWindow windowMs now) stored = filter (inWindow windowMs now) admitted.

Lemma tracks_later windowMs prev now stored admitted :
  (prev <= now)%Z -> tracks windowMs prev stored admitted ->
  tracks windowMs now stored admitted.
Proof. intros Hle Ht now' Hnow'. apply Ht. lia. Qed.

Lemma tracks_admit windowMs now stored admitted :
  tracks windowMs now stored admitted ->
  tracks windowMs now (filter (inWindow windowMs now) stored ++ [now]) (admitted ++ [now]).
Proof.
  intros Ht now' Hle. rewrite !filter_app. f_equal.
  rewrite filter_filter_implies by (intros x; simpl; lia).
  by apply Ht.
Qed.

(** One check, seen from the history. *)
Lemma check_tracks key limit windowMs now (limits : limits_t) (admitted : list Z) :
  tracks windowMs now (default [] (limits !! key)) admitted ->
  let answer := bool_decide
      (Z.of_nat (length (filter (inWindow windowMs now) admitted)) < limit)%Z in
  fst (check key limit windowMs now limits) = answer
  /\ tracks windowMs now
       (default [] (snd (check key limit windowMs now limits) !! key))
       (if answer then admitted ++ [now] else admitted)%list.
Proof.
  intros Ht answer. subst answer. unfold check.
  rewrite (Ht now) by lia.
  case_decide as Hfull.
  - rewrite bool_decide_eq_false_2 by lia. done.
  - rewrite bool_decide_eq_true_2 by lia. split; [done|].
    simpl. rewrite lookup_insert_eq. simpl.
    rewrite <- (Ht now) by lia. by apply tracks_admit.
Qed.

Lemma checks_history key limit windowMs (times : list Z) :
  forall prev (limits : limits_t) (admitted : list Z),
    Sorted Z.le (prev :: times) ->
    tracks windowMs prev (default [] (limits !! key)) admitted ->
    fst (checks key limit windowMs times limits) = history limit windowMs times admitted.
Proof.
  induction times as [|now rest IH]; intros prev limits admitted Hsorted Ht; [done|].
  apply Sorted_inv in Hsorted as [Hrest Hhd]. apply HdRel_inv in Hhd.
  apply (tracks_later _ _ now) in Ht; [|done].
  destruct (check_tracks key limit windowMs now limits admitted Ht) as [Hans Hnext].
  simpl. destruct (check key limit windowMs now limits) as [b limits1]. simpl in *.
  specialize (IH now limits1). subst b.
  destruct (checks key limit windowMs rest limits1) as [bs limits2] eqn:Hrun. simpl in IH.
  case_decide as Hadm.
  - rewrite bool_decide_eq_true_2 in * by done. simpl. f_equal. by apply IH.
  - rewrite bool_decide_eq_false_2 in * by done. simpl. f_equal. by apply IH.
Qed.

(** Lazy pruning loses nothing.  With a clock that does not go back, a
    run of checks of a key answers as if every admitted timestamp had been
    kept and counted: the timestamps [check] drops, and the ones a rejected
    check leaves unpruned, never change an answer. *)
Theorem checks_count_full_history key limit windowMs (times : list Z) (limits : limits_t) :
  Sorted Z.le times ->
  fst (checks key limit windowMs times limits)
  = history limit windowMs times (default [] (limits !! key)).
Proof.
  intros Hsorted. destruct times as [|now rest]; [done|].
  apply (checks_history key limit windowMs (now :: rest) now).
  - constructor; [done|]. by constructor.
  - by intros now' _.
Qed.

Lemma checks_count_full_history_witness :
  fst (checks "user:cmd:7" 2 1000 [0; 10; 20; 1005; 1015; 1030]%Z ∅)
  = history 2 1000 [0; 10; 20; 1005; 1015; 1030]%Z []
  /\ history 2 1000 [0; 10; 20; 1005; 1015; 1030]%Z []
     = [true; true; false; true; true; false].
Proof.
  split; [|reflexivity].
  assert (Hsorted : Sorted Z.le [0; 10; 20; 1005; 1015; 1030]%Z)
    by (repeat constructor; lia).
  exact (checks_count_full_history "user:cmd:7" 2 1000 _ ∅ Hsorted).
Defined.

Lemma admissions_bounded key limit windowMs (times : list Z) :
  forall prev (limits : limits_t) (admitted pre post : list Z) (now : Z),
    Sorted Z.le (prev :: times) ->
    tracks windowMs prev (default [] (limits !! key)) admitted ->
    admissions key limit windowMs times limits = (pre ++ now :: post)%list ->
    (Z.of_nat (length (filter (inWindow windowMs now) (admitted ++ pre)%list)) < limit)%Z.
Proof.
  induction times as [|t rest IH]; intros prev limits admitted pre post now Hsorted Ht Hadm.
  { by destruct pre. }
  apply Sorted_inv in Hsorted as [Hrest Hhd]. apply HdRel_inv in Hhd.
  apply (tracks_later _ _ t) in Ht; [|done].
  destruct (check_tracks key limit windowMs t limits admitted Ht) as [Hans Hnext].
  simpl in Hadm. destruct (check key limit windowMs t limits) as [b limits1]. simpl in *.
  subst b. case_bool_decide as Hfree.
  - destruct pre as [|t' pre'].
    + injection Hadm as <- _. by rewrite app_nil_r.
    + injection Hadm as <- Hadm.
      replace (admitted ++ t :: pre')%list with ((admitted ++ [t]) ++ pre')%list
        by (by rewrite <- app_assoc).
      by eapply (IH t limits1).
  - by eapply (IH t limits1).
Qed.

(** The quota holds.  With a clock that does not go back, whenever a check
    of a key is admitted, fewer than [limit] of the timestamps that were
    stored at the start or admitted before it lie inside its window. *)
Theorem admitted_within_quota key limit windowMs (times : list Z) (limits : limits_t)
    (pre post : list Z) (now : Z) :
  Sorted Z.le times ->
  admissions key limit windowMs times limits = (pre ++ now :: post)%list ->
  (Z.of_nat (length (filter (inWindow windowMs now)
                             (default [] (limits !! key) ++ pre)%list))
   < limit)%Z.
Proof.
  intros Hsorted Hadm. destruct times as [|t rest]; [by destruct pre|].
  apply (admissions_bounded key limit windowMs (t :: rest) t limits _ pre post now).
  - constructor; [done|]. by constructor.
  - by intros now' _.
  - exact Hadm.
Qed.

Lemma admitted_within_quota_witness :
  admissions "user:cmd:7" 2 1000 [0; 10; 20; 1005; 1015; 1030]%Z ∅
  = ([0; 10] ++ 1005 :: [1015])%list%Z
  /\ (Z.of_nat (length (filter (inWindow 1000 1005)
                                (default [] ((∅ : limits_t) !! "user:cmd:7")
                                 ++ [0; 10]%Z)%list)) < 2)%Z.
Proof.
  split; [vm_compute; reflexivity|].
  apply (admitted_within_quota "user:cmd:7" 2 1000 [0; 10; 20; 1005; 1015; 1030]%Z ∅
           [0; 10]%Z [1015]%Z 1005).
  - repeat constructor; lia.
  - vm_compute; reflexivity.
Defined.

Lemma checks_room key limit windowMs (times : list Z) :
  forall limits : limits_t,
    (Z.of_nat (length (default [] (limits !! key)) + length times) <= limit)%Z ->
    fst (checks key limit windowMs times limits) = replicate (length times) true.
Proof.
  induction times as [|now rest IH]; intros limits Hroom; [done|].
  simpl. unfold check at 1.
  pose proof (length_filter (inWindow windowMs now) (default [] (limits !! key))) as Hle.
  simpl in Hroom. rewrite decide_False by lia.
  match goal with |- context [checks _ _ _ rest ?l1] =>
    specialize (IH l1); destruct (checks key limit windowMs rest l1) as [bs limits2] end.
  simpl in *. f_equal. apply IH.
  rewrite lookup_insert_eq. simpl. rewrite length_app. simpl. lia.
Qed.

(** A key that holds nothing, never used or just [reset], admits its next
    [limit] checks, whatever the times of the checks are. *)
Theorem reset_restores_quota key limit windowMs (times : list Z) (limits : limits_t) :
  (Z.of_nat (length times) <= limit)%Z ->
  fst (checks key limit windowMs times (reset key limits)) = replicate (length times) true.
Proof.
  intros Hlen. apply checks_room. unfold reset. rewrite lookup_delete_eq. simpl. lia.
Qed.

Lemma reset_restores_quota_witness :
  fst (checks "user:fun:7:murgi" 5 60000 [50; 40; 30; 20; 10]%Z
              (reset "user:fun:7:murgi" {[ "user:fun:7:murgi" := [1; 2; 3; 4; 5]%Z ]}))
  = replicate 5 true.
Proof.
  apply (reset_restores_quota "user:fun:7:murgi" 5 60000 [50; 40; 30; 20; 10]%Z).
  simpl; lia.
Defined.

(** The hourly sweep is invisible to the checks.  For a window of at most
    an hour and a check made no earlier than the sweep, the check answers
    the same with and without the sweep, and an admitted check stores the
    same list: the sweep drops no timestamp a later check would count. *)
Theorem cleanup_invisible key limit windowMs (sweep now : Z) (limits : limits_t) :
  (windowMs <= 3600000)%Z ->
  (sweep <= now)%Z ->
  fst (check key limit windowMs now (cleanup sweep limits))
  = fst (check key limit windowMs now limits)
  /\ (fst (check key limit windowMs now limits) = true ->
      snd (check key limit windowMs now (cleanup sweep limits)) !! key
      = snd (check key limit windowMs now limits) !! key).
Proof.
  intros Hw Hle.
  assert (Hsame : filter (inWindow windowMs now) (default [] (cleanup sweep limits !! key))
                  = filter (inWindow windowMs now) (default [] (limits !! key))).
  { unfold cleanup. rewrite lookup_omap.
    destruct (limits !! key) as [times|]; simpl; [|done].
    case_decide as Hempty; simpl.
    - apply length_zero_iff_nil in Hempty.
      rewrite <- (filter_filter_implies (inWindow windowMs now)
                    (fun time => (sweep - 3600000 < time)%Z) times) by (intros x; simpl; lia).
      by rewrite Hempty.
    - apply filter_filter_implies. intros x; simpl; lia. }
  unfold check. rewrite Hsame. case_decide; simpl; [done|].
  split; [done|]. intros _. by rewrite !lookup_insert_eq.
Qed.

Lemma cleanup_invisible_witness :
  let limits : limits_t := {[ "thread:msg:9" := [100; 3500000; 3600200]%Z ]} in
  fst (check "thread:msg:9" 50 60000 3650000 (cleanup 3600100 limits))
  = fst (check "thread:msg:9" 50 60000 3650000 limits)
  /\ (fst (check "thread:msg:9" 50 60000 3650000 limits) = true ->
      snd (check "thread:msg:9" 50 60000 3650000 (cleanup 3600100 limits)) !! "thread:msg:9"
      = snd (check "thread:msg:9" 50 60000 3650000 limits) !! "thread:msg:9").
Proof.
  intros limits.
  apply (cleanup_invisible "thread:msg:9" 50 60000 3600100 3650000 limits); lia.
Defined.

(** Keys do not interfere: a check of one key changes neither the answer
    nor the effect of a check of another key, and the two checks commute. *)
Theorem checks_of_distinct_keys_commute
    key1 limit1 window1 now1 key2 limit2 window2 now2 (limits : limits_t) :
  key1 <> key2 ->
  let first := check key1 limit1 window1 now1 limits in
  let second := check key2 limit2 window2 now2 limits in
  fst (check key2 limit2 window2 now2 (snd first)) = fst second
  /\ fst (check key1 limit1 window1 now1 (snd second)) = fst first
  /\ snd (check key2 limit2 window2 now2 (snd first))
     = snd (check key1 limit1 window1 now1 (snd second)).
Proof.
  intros Hne first second. subst first second. unfold check.
  destruct (decide (limit1 <= Z.of_nat (length (filter (inWindow window1 now1)
                                                       (default [] (limits !! key1)))))%Z)
    as [H1|H1];
    destruct (decide (limit2 <= Z.of_nat (length (filter (inWindow window2 now2)
                                                         (default [] (limits !! key2)))))%Z)
    as [H2|H2]; simpl;
    rewrite ?lookup_insert_ne by done;
    rewrite ?(decide_True (P := (limit1 <= _)%Z)) by done;
    rewrite ?(decide_True (P := (limit2 <= _)%Z)) by done;
    rewrite ?(decide_False (P := (limit1 <= _)%Z)) by done;
    rewrite ?(decide_False (P := (limit2 <= _)%Z)) by done;
    simpl; repeat match goal with |- _ /\ _ => split end; try done.
  apply insert_insert_ne. congruence.
Qed.

Lemma checks_of_distinct_keys_commute_witness :
  let limits : limits_t := {[ "user:cmd:1" := [5]%Z ]} in
  let first := check "user:cmd:1" 1 1000 10 limits in
  let second := check "user:cmd:2" 1 1000 10 limits in
  fst (check "user:cmd:2" 1 1000 10 (snd first)) = fst second
  /\ fst (check "user:cmd:1" 1 1000 10 (snd second)) = fst first
  /\ snd (check "user:cmd:2" 1 1000 10 (snd first))
     = snd (check "user:cmd:1" 1 1000 10 (snd second)).
Proof.
  intros limits.
  apply (checks_of_distinct_keys_commute "user:cmd:1" 1 1000 10 "user:cmd:2" 1 1000 10 limits).
  discriminate.
Defined.

Section Status.
Variable numberToString : Z -> string.

(** The status agrees with the check: at the same time and on the same
    table, [getUserStatus] reports a remaining quota above zero exactly when
    [checkUserCommand] would admit, the attempts and the remainder add up
    to the limit while the limit is not passed, and the status changes
    nothing (it is a function of the table). *)
Theorem status_agrees_with_check (userId : value) (now : Z) (limits : limits_t) :
  let status := getUserStatus numberToString userId now limits in
  ((0 < remaining status)%Z <->
   fst (checkUserCommand numberToString userId now limits) = true)
  /\ ((Z.of_nat (recentAttempts status) <= 30)%Z ->
      (Z.of_nat (recentAttempts status) + remaining status = us_limit status)%Z)
  /\ (0 <= remaining status <= 30)%Z.
Proof.
  intros status. subst status. unfold getUserStatus, checkUserCommand, check. simpl.
  split; [|lia]. case_decide; simpl; split; intros; (done || lia).
Qed.
End Status.

End RateLimiterTraces.

(** ** The admin list and the owner's commands *)

Module OwnerCommandsFacts.
Import OwnerCommands.

Lemma removeFirst_not_in (v : value) (l : list value) :
  NoDup l -> v ∉ removeFirst v l.
Proof.
  induction 1 as [|x l Hx Hnd IH]; simpl; [by apply not_elem_of_nil|].
  case_decide as Heq; [by subst|].
  apply not_elem_of_cons. split; [congruence|done].
Qed.

Lemma removeFirst_other (v x : value) (l : list value) :
  x <> v -> x ∈ removeFirst v l <-> x ∈ l.
Proof.
  intros Hne. induction l as [|y l IH]; simpl; [done|].
  case_decide as Heq.
  - subst y. rewrite elem_of_cons. split; [by right|]. by intros [?|?].
  - by rewrite !elem_of_cons, IH.
Qed.

Lemma removeFirst_NoDup (v : value) (l : list value) : NoDup l -> NoDup (removeFirst v l).
Proof.
  induction 1 as [|x l Hx Hnd IH]; simpl; [constructor|].
  case_decide as Heq; [done|].
  constructor; [|done]. by rewrite removeFirst_other.
Qed.

Lemma removeFirst_app_new (v : value) (l : list value) :
  v ∉ l -> removeFirst v (l ++ [v]) = l.
Proof.
  induction l as [|x l IH]; simpl; intros Hnot.
  - by rewrite decide_True.
  - apply not_elem_of_cons in Hnot as [Hne Hnot].
    rewrite decide_False by congruence. by rewrite IH.
Qed.

Section Facts.
Variable numberToString : Z -> string.
Variable sha256hex : string -> string.
Variable lock : Guard.lockFile.

Abbreviation addadmin := (addadmin numberToString sha256hex lock).
Abbreviation removeadmin := (removeadmin numberToString sha256hex lock).
Abbreviation isOwner := (Guard.isOwner numberToString sha256hex lock).
Abbreviation isAdmin := (Guard.isAdmin numberToString).

(** One command of the owner's module, as it arrives. *)
Inductive call :=
  | Add (ev : CommandProcessor.event) (args : list value) (written : bool)
  | Remove (ev : CommandProcessor.event) (args : list value) (written : bool).

Definition caller (c : call) : value :=
  match c with
  | Add ev _ _ | Remove ev _ _ => CommandProcessor.senderID ev
  end.

Definition step (c : call) (st : state) : state :=
  match c with
  | Add ev args written => snd (addadmin ev args written st)
  | Remove ev args written => snd (removeadmin ev args written st)
  end.

Definition run (calls : list call) (st : state) : state := foldl (fun s c => step c s) st calls.

Lemma requireOwner_denied (userId : value) :
  isOwner userId = Ok false ->
  Guard.requireOwner numberToString sha256hex lock userId
  = Throw (Error "Owner access required.").
Proof. intros H. unfold Guard.requireOwner. by rewrite H. Qed.

Lemma requireOwner_granted (userId : value) :
  isOwner userId = Ok true ->
  Guard.requireOwner numberToString sha256hex lock userId = Ok tt.
Proof. intros H. unfold Guard.requireOwner. by rewrite H. Qed.

(** Only the owner changes the admin list.  Whatever commands arrive from
    senders who are not the owner, with whatever arguments, the list and the
    outbox are at the end what they were at the start: each call throws
    before it reads its arguments. *)
Theorem admins_change_only_by_owner (calls : list call) (st : state) :
  Forall (fun c => isOwner (caller c) = Ok false) calls ->
  run calls st = st
  /\ Forall (fun c =>
        match c with
        | Add ev args written => fst (addadmin ev args written st)
        | Remove ev args written => fst (removeadmin ev args written st)
        end = Throw (Error "Owner access required.")) calls.
Proof.
  induction 1 as [|c calls Hc _ [IHrun IHthrow]]; [by split|].
  assert (Hstep : step c st = st
                  /\ match c with
                     | Add ev args written => fst (addadmin ev args written st)
                     | Remove ev args written => fst (removeadmin ev args written st)
                     end = Throw (Error "Owner access required.")).
  { destruct c as [ev args written|ev args written]; simpl in *;
      unfold OwnerCommands.addadmin, OwnerCommands.removeadmin;
      by rewrite (requireOwner_denied _ Hc). }
  destruct Hstep as [Hst Hthrow]. split.
  - unfold run. simpl. rewrite Hst. exact IHrun.
  - by constructor.
Qed.

(** [addadmin] grants and touches nobody else.  After a call by the owner
    with an id made of digits, whose write succeeds, that id is an admin, the
    list has gained at most this one entry, at its end, and every sender with
    another id is an admin exactly as before. *)
Theorem addadmin_grants (ev : CommandProcessor.event) (id : string) (rest : list value)
    (st : state) :
  isOwner (CommandProcessor.senderID ev) = Ok true ->
  allDigits id = true ->
  let st' := snd (addadmin ev (VStr id :: rest) true st) in
  isAdmin (admins st') (VStr id) = Ok true
  /\ (admins st' = admins st \/ admins st' = (admins st ++ [VStr id])%list)
  /\ (forall other, toStringMethod numberToString other <> Ok id ->
        isAdmin (admins st') other = isAdmin (admins st) other)
  /\ (NoDup (admins st) -> NoDup (admins st')).
Proof.
  intros Howner Hdigits st'. subst st'. unfold OwnerCommands.addadmin.
  rewrite (requireOwner_granted _ Howner). unfold arg0. simpl.
  assert (Hne : String.eqb id EmptyString = false).
  { unfold allDigits in Hdigits. by destruct (String.eqb id EmptyString). }
  rewrite Hne, Hdigits. simpl.
  case_bool_decide as Hin; simpl.
  - split; [unfold Guard.isAdmin; simpl; by rewrite bool_decide_eq_true_2|].
    split; [by left|]. split; [done|done].
  - split.
    { unfold Guard.isAdmin. simpl. rewrite bool_decide_eq_true_2; [done|].
      apply elem_of_app. right. by apply list_elem_of_singleton. }
    split; [by right|]. split.
    + intros other Hother. unfold Guard.isAdmin.
      destruct (toStringMethod numberToString other) as [s|e]; [|done].
      f_equal. apply bool_decide_ext. rewrite elem_of_app, list_elem_of_singleton.
      split; [|by left]. intros [H|H]; [done|]. congruence.
    + intros Hnd. apply NoDup_app. split; [done|]. split.
      * intros x Hx Hx'. apply list_elem_of_singleton in Hx'. by subst.
      * apply NoDup_singleton.
Qed.

(** [removeadmin] revokes.  On a list without duplicates, after a call by
    the owner for a given id the id is not an admin, whether the write of the
    configuration succeeds or not, and the list still has no duplicates; and
    a [removeadmin] that follows the [addadmin] of a new id gives the list
    back as it was. *)
Theorem removeadmin_revokes (ev : CommandProcessor.event) (id : string) (rest : list value)
    (written : bool) (st : state) :
  isOwner (CommandProcessor.senderID ev) = Ok true ->
  NoDup (admins st) ->
  id <> EmptyString ->
  let st' := snd (removeadmin ev (VStr id :: rest) written st) in
  isAdmin (admins st') (VStr id) = Ok false
  /\ NoDup (admins st')
  /\ (allDigits id = true -> VStr id ∉ admins st ->
      admins (snd (removeadmin ev (VStr id :: rest) written
                     (snd (addadmin ev (VStr id :: rest) true st))))
      = admins st).
Proof.
  intros Howner Hnd Hid st'. subst st'.
  assert (Hne : String.eqb id EmptyString = false) by (by apply String.eqb_neq).
  assert (Hremove : forall st0,
            admins (snd (removeadmin ev (VStr id :: rest) written st0))
            = if bool_decide (VStr id ∈ admins st0)
              then removeFirst (VStr id) (admins st0) else admins st0).
  { intros st0. unfold OwnerCommands.removeadmin.
    rewrite (requireOwner_granted _ Howner). unfold arg0. simpl. rewrite Hne. simpl.
    case_bool_decide; simpl; [|done]. by destruct written. }
  split; [|split].
  - rewrite Hremove. unfold Guard.isAdmin. simpl. f_equal.
    apply bool_decide_eq_false_2.
    case_bool_decide; [by apply removeFirst_not_in|done].
  - rewrite Hremove. case_bool_decide; [by apply removeFirst_NoDup|done].
  - intros Hdigits Hnew. rewrite Hremove.
    assert (Hadd : admins (snd (addadmin ev (VStr id :: rest) true st))
                   = (admins st ++ [VStr id])%list).
    { unfold OwnerCommands.addadmin. rewrite (requireOwner_granted _ Howner).
      unfold arg0. simpl. rewrite Hne, Hdigits. simpl.
      by rewrite bool_decide_eq_false_2. }
    rewrite Hadd. rewrite bool_decide_eq_true_2.
    + by apply removeFirst_app_new.
    + apply elem_of_app. right. by apply list_elem_of_singleton.
Qed.
End Facts.

Definition ownerLock : Guard.lockFile :=
  Guard.LockData (VStr (GuardFacts.toyDigest "100012345678")).
Definition fromOwner : CommandProcessor.event :=
  CommandProcessor.Event (VStr "100012345678") (VStr "2002").
Definition fromAdmin : CommandProcessor.event :=
  CommandProcessor.Event (VStr "100087654321") (VStr "2002").
Definition oneAdmin : state := State [VStr "100087654321"] [].

(** An admin, and a sender without an id, try to change the list. *)
Lemma admins_change_only_by_owner_witness :
  let calls := [Add fromAdmin [VStr "100055555555"] true;
                Remove fromAdmin [VStr "100087654321"] true;
                Add (CommandProcessor.Event VNull (VStr "2002")) [VStr "1"] true] in
  run GuardFacts.toyNumber GuardFacts.toyDigest ownerLock calls oneAdmin = oneAdmin
  /\ Forall (fun c =>
        match c with
        | Add ev args written =>
            fst (addadmin GuardFacts.toyNumber GuardFacts.toyDigest ownerLock
                          ev args written oneAdmin)
        | Remove ev args written =>
            fst (removeadmin GuardFacts.toyNumber GuardFacts.toyDigest ownerLock
                             ev args written oneAdmin)
        end = Throw (Error "Owner access required.")) calls.
Proof.
  intros calls.
  apply (admins_change_only_by_owner GuardFacts.toyNumber GuardFacts.toyDigest ownerLock
           calls oneAdmin).
  repeat constructor.
Defined.

Lemma addadmin_grants_witness :
  let st' := snd (addadmin GuardFacts.toyNumber GuardFacts.toyDigest ownerLock
                           fromOwner [VStr "100055555555"] true oneAdmin) in
  Guard.isAdmin GuardFacts.toyNumber (admins st') (VStr "100055555555") = Ok true
  /\ (admins st' = admins oneAdmin
      \/ admins st' = (admins oneAdmin ++ [VStr "100055555555"])%list)
  /\ (forall other, toStringMethod GuardFacts.toyNumber other <> Ok "100055555555" ->
        Guard.isAdmin GuardFacts.toyNumber (admins st') other
        = Guard.isAdmin GuardFacts.toyNumber (admins oneAdmin) other)
  /\ (NoDup (admins oneAdmin) -> NoDup (admins st')).
Proof.
  apply (addadmin_grants GuardFacts.toyNumber GuardFacts.toyDigest ownerLock
           fromOwner "100055555555" [] oneAdmin); reflexivity.
Defined.

Lemma removeadmin_revokes_witness :
  let st' := snd (removeadmin GuardFacts.toyNumber GuardFacts.toyDigest ownerLock
                              fromOwner [VStr "100087654321"] false oneAdmin) in
  Guard.isAdmin GuardFacts.toyNumber (admins st') (VStr "100087654321") = Ok false
  /\ NoDup (admins st')
  /\ (allDigits "100087654321" = true -> VStr "100087654321" ∉ admins oneAdmin ->
      admins (snd (removeadmin GuardFacts.toyNumber GuardFacts.toyDigest ownerLock
                               fromOwner [VStr "100087654321"] false
                     (snd (addadmin GuardFacts.toyNumber GuardFacts.toyDigest ownerLock
                                    fromOwner [VStr "100087654321"] true oneAdmin))))
      = admins oneAdmin).
Proof.
  apply (removeadmin_revokes GuardFacts.toyNumber GuardFacts.toyDigest ownerLock
           fromOwner "100087654321" [] false oneAdmin).
  - reflexivity.
  - apply NoDup_singleton.
  - discriminate.
Defined.

End OwnerCommandsFacts.

(** ** The content filter *)

Module ValidatorFacts.
Import Validator.

(** A string with its ASCII capitals lowered. *)
Fixpoint folded (s : string) : string :=
  match s with
  | EmptyString => EmptyString
  | String c rest => String (lower c) (folded rest)
  end.

Lemma lower_idempotent (c : ascii) : lower (lower c) = lower c.
Proof. destruct c as [[] [] [] [] [] [] [] []]; reflexivity. Qed.

Lemma length_folded (s : string) : String.length (folded s) = String.length s.
Proof. induction s as [|c s IH]; simpl; congruence. Qed.

Lemma matches_here_folded (p s : string) : matches_here p (folded s) = matches_here p s.
Proof.
  revert s. induction p as [|a p IH]; intros [|b s]; simpl; try done.
  rewrite lower_idempotent. case_decide; [apply IH|done].
Qed.

Lemma test_folded (p s : string) : test p (folded s) = test p s.
Proof.
  induction s as [|b s IH]; simpl; [done|].
  rewrite IH. f_equal. exact (matches_here_folded p (String b s)).
Qed.

Lemma matches_here_app (p s after : string) :
  matches_here p s = true -> matches_here p (s +:+ after) = true.
Proof.
  revert s. induction p as [|a p IH]; intros [|b s]; simpl; try done.
  case_decide; [apply IH|done].
Qed.

Lemma test_app_r (p s after : string) : test p s = true -> test p (s +:+ after) = true.
Proof.
  induction s as [|b s IH]; simpl; intros Ht.
  - rewrite orb_false_r in Ht. destruct p; [|done]. by destruct after.
  - apply orb_true_iff in Ht as [Hhere|Hlater]; apply orb_true_iff.
    + left. by apply (matches_here_app p (String b s)).
    + right. by apply IH.
Qed.

Lemma test_app_l (p before s : string) : test p s = true -> test p (before +:+ s) = true.
Proof.
  intros Ht. induction before as [|b before IH]; simpl; [done|].
  apply orb_true_iff. by right.
Qed.

(** The verdict does not depend on the case of ASCII letters: two inputs
    that are equal once their capitals are lowered are both accepted or both
    refused, under the same bounds. *)
Theorem verdict_ignores_case (s s' : string) (minLength maxLength : nat) :
  folded s = folded s' ->
  isValidCommandInput (VStr s) minLength maxLength
  = isValidCommandInput (VStr s') minLength maxLength.
Proof.
  intros Hfold.
  assert (Hlen : String.length s = String.length s')
    by (by rewrite <- (length_folded s), <- (length_folded s'), Hfold).
  assert (Hempty : String.eqb s EmptyString = String.eqb s' EmptyString).
  { destruct s, s'; simpl in *; done. }
  assert (Htests : forall patterns,
            existsb (fun pattern => test pattern s) patterns
            = existsb (fun pattern => test pattern s') patterns).
  { induction patterns as [|p ps IH]; simpl; [done|].
    rewrite IH. f_equal.
    by rewrite <- (test_folded p s), <- (test_folded p s'), Hfold. }
  unfold isValidCommandInput. cbn [truthy is_string].
  by rewrite Hempty, Hlen, Htests.
Qed.

Lemma verdict_ignores_case_witness :
  isValidCommandInput (VStr "<ScRiPt>alert") 1 50
  = isValidCommandInput (VStr "<script>ALERT") 1 50.
Proof. apply verdict_ignores_case. reflexivity. Defined.

(** A fragment that the filter refuses is refused wherever it stands: an
    input that holds, between any two strings, a string in which one of the
    patterns is found, is refused under every pair of bounds. *)
Theorem flagged_fragment_stays_flagged (before s after pattern : string)
    (minLength maxLength : nat) :
  pattern ∈ maliciousPatterns ->
  test pattern s = true ->
  isValidCommandInput (VStr (before +:+ s +:+ after)) minLength maxLength = false.
Proof.
  intros Hin Htest. unfold isValidCommandInput.
  destruct (negb (truthy _) || _); [done|].
  destruct (_ || _); [done|].
  apply negb_false_iff, existsb_exists. exists pattern. split.
  - by apply list_elem_of_In.
  - by apply test_app_l, test_app_r.
Qed.

Lemma flagged_fragment_stays_flagged_witness :
  isValidCommandInput (VStr ("say " +:+ "EVAL(" +:+ "1)")) 0 500 = false.
Proof.
  apply (flagged_fragment_stays_flagged "say " "EVAL(" "1)" "eval(" 0 500).
  - unfold maliciousPatterns. set_solver.
  - reflexivity.
Defined.

End ValidatorFacts.

(** ** The pipeline: what the stages leave alone *)

Module PipelineFrames.
Import RateLimiter CommandProcessor.

(** Two contexts of the same invocation: same event, command, arguments,
    sender and thread. *)
Definition sameRequest (c c' : context) : Prop :=
  ctx_event c' = ctx_event c /\ command c' = command c /\ args c' = args c
  /\ userId c' = userId c /\ threadId c' = threadId c.

(** A step that keeps the request. *)
Definition keepsRequest (st st' : state) : Prop := sameRequest (ctx st) (ctx st').

(** A step that keeps the request and writes neither to the audit sink nor
    to the cache. *)
Definition silent (st st' : state) : Prop :=
  sameRequest (ctx st) (ctx st') /\ audit st' = audit st /\ cacheSets st' = cacheSets st.

Lemma sameRequest_refl (c : context) : sameRequest c c.
Proof. by repeat split. Qed.

Lemma sameRequest_trans (c1 c2 c3 : context) :
  sameRequest c1 c2 -> sameRequest c2 c3 -> sameRequest c1 c3.
Proof. unfold sameRequest. intros (?&?&?&?&?) (?&?&?&?&?). repeat split; congruence. Qed.

Lemma silent_refl (st : state) : silent st st.
Proof. split; [apply sameRequest_refl|done]. Qed.

Lemma silent_trans (st1 st2 st3 : state) : silent st1 st2 -> silent st2 st3 -> silent st1 st3.
Proof.
  intros (?&?&?) (?&?&?). split; [by eapply sameRequest_trans|]. split; congruence.
Qed.

Lemma keepsRequest_refl (st : state) : keepsRequest st st.
Proof. apply sameRequest_refl. Qed.

Lemma keepsRequest_trans (st1 st2 st3 : state) :
  keepsRequest st1 st2 -> keepsRequest st2 st3 -> keepsRequest st1 st3.
Proof. apply sameRequest_trans. Qed.

Lemma silent_keepsRequest (st st' : state) : silent st st' -> keepsRequest st st'.
Proof. by intros [? _]. Qed.

Section Frames.
Variable R : state -> state -> Prop.
Hypothesis R_refl : forall st, R st st.
Hypothesis R_trans : forall st1 st2 st3, R st1 st2 -> R st2 st3 -> R st1 st3.

(** A computation every run of which is an [R]-step. *)
Definition within {A} (m : M A) : Prop := forall st, R st (snd (m st)).

Lemma within_ret {A} (a : A) : within (ret a).
Proof. intros st. apply R_refl. Qed.
Lemma within_throw {A} (e : Js.error) : within (@throw A e).
Proof. intros st. apply R_refl. Qed.
Lemma within_lift {A} (r : result A) : within (lift r).
Proof. intros st. apply R_refl. Qed.
Lemma within_getCtx : within getCtx.
Proof. intros st. apply R_refl. Qed.
Lemma within_bind {A B} (m : M A) (k : A -> M B) :
  within m -> (forall a, within (k a)) -> within (bind m k).
Proof.
  intros Hm Hk st. unfold bind. specialize (Hm st).
  destruct (m st) as [[a|e] st1]; simpl in *; [|done].
  eapply R_trans; [exact Hm|apply Hk].
Qed.
End Frames.

Lemma silent_modifyCtx (f : context -> context) :
  (forall c, sameRequest c (f c)) -> within silent (modifyCtx f).
Proof. intros Hf st. split; [apply Hf|done]. Qed.

Lemma silent_reject (msg : string) : within silent (reject msg).
Proof. apply silent_modifyCtx. intros c. by repeat split. Qed.

Lemma silent_limiter (chk : limits_t -> bool * limits_t) : within silent (limiter chk).
Proof.
  intros st. rewrite PipelineFacts.limiter_eq. split; [apply sameRequest_refl|done].
Qed.

Lemma within_weaken {A} (m : M A) : within silent m -> within keepsRequest m.
Proof. intros Hm st. apply silent_keepsRequest, Hm. Qed.

Lemma keepsRequest_recordAudit (c : context) : within keepsRequest (recordAudit c).
Proof. intros st. apply sameRequest_refl. Qed.

Lemma keepsRequest_cacheSet (key : string) (v : value) : within keepsRequest (cacheSet key v).
Proof. intros st. apply sameRequest_refl. Qed.

Lemma keepsRequest_modifyCtx (f : context -> context) :
  (forall c, sameRequest c (f c)) -> within keepsRequest (modifyCtx f).
Proof. intros Hf st. apply Hf. Qed.

Ltac silent_step :=
  first
    [ apply (within_bind silent silent_trans); [|intros ?]
    | match goal with
      | |- within silent (if ?b then _ else _) => destruct b
      | |- within silent (match ?x with _ => _ end) => destruct x
      end
    | apply (within_ret silent silent_refl)
    | apply (within_throw silent silent_refl)
    | apply (within_lift silent silent_refl)
    | apply (within_getCtx silent silent_refl)
    | apply silent_reject
    | apply silent_limiter ].

Ltac request_step :=
  first
    [ apply (within_bind keepsRequest keepsRequest_trans); [|intros ?]
    | match goal with
      | |- within keepsRequest (if ?b then _ else _) => destruct b
      | |- within keepsRequest (match ?x with _ => _ end) => destruct x
      end
    | apply (within_ret keepsRequest keepsRequest_refl)
    | apply (within_throw keepsRequest keepsRequest_refl)
    | apply (within_lift keepsRequest keepsRequest_refl)
    | apply (within_getCtx keepsRequest keepsRequest_refl)
    | apply keepsRequest_recordAudit
    | apply keepsRequest_cacheSet
    | apply keepsRequest_modifyCtx; intros ?; by repeat split ].

Section Stages.
Variable numberToString : Z -> string.
Variable sha256hex : string -> string.
Variable jsonStringify : list value -> string.
Variable collab : collaborators.

Abbreviation checkRateLimit := (checkRateLimit numberToString sha256hex collab).
Abbreviation checkPermissions := (checkPermissions numberToString sha256hex collab).
Abbreviation executeCommand := (executeCommand numberToString jsonStringify collab).
Abbreviation process := (process numberToString sha256hex jsonStringify collab).

Lemma silent_validateInput : within silent validateInput.
Proof. unfold validateInput. repeat silent_step. Qed.

Lemma silent_checkRateLimit (now : Z) : within silent (checkRateLimit now).
Proof.
  unfold CommandProcessor.checkRateLimit, checkFunQuota, checkAdminQuota,
    guardIsAdmin, guardIsOwner.
  repeat silent_step.
Qed.

Lemma silent_checkPermissions : within silent checkPermissions.
Proof.
  unfold CommandProcessor.checkPermissions, notAdminNorOwner, guardIsAdmin, guardIsOwner.
  repeat silent_step.
Qed.

Lemma keepsRequest_logCommand : within keepsRequest (logCommand collab).
Proof. unfold logCommand. repeat request_step. Qed.

Lemma keepsRequest_executeCommand : within keepsRequest executeCommand.
Proof.
  unfold CommandProcessor.executeCommand.
  apply (within_bind keepsRequest keepsRequest_trans); [request_step|]. intros c.
  destruct (getCommandHandler collab (command c)) as [h|]; [|request_step].
  destruct (_ && _); [request_step|].
  intros st.
  assert (Hrun : within keepsRequest (runHandler numberToString jsonStringify collab h c))
    by (unfold runHandler; repeat request_step).
  specialize (Hrun st). destruct (runHandler _ _ _ _ _ st) as [[u|e] st1]; [done|].
  simpl in *. eapply sameRequest_trans; [exact Hrun|]. by repeat split.
Qed.

Lemma within_runChain (R : state -> state -> Prop) (ms : list (M unit)) :
  (forall st, R st st) -> (forall st1 st2 st3, R st1 st2 -> R st2 st3 -> R st1 st3) ->
  Forall (within R) ms -> within R (runChain ms).
Proof.
  intros Hrefl Htrans. induction 1 as [|m ms Hm _ IH]; simpl.
  - by apply within_ret.
  - apply within_bind; [done|by apply within_getCtx|]. intros c.
    destruct (negb (shouldContinue c)); [by apply within_ret|].
    apply within_bind; [done|done|]. by intros _.
Qed.

(** Every stage keeps the request. *)
Lemma keepsRequest_middlewares (now : Z) :
  within keepsRequest
         (runChain (middlewares numberToString sha256hex jsonStringify collab now)).
Proof.
  apply within_runChain; [apply keepsRequest_refl|apply keepsRequest_trans|].
  constructor; [apply within_weaken, silent_validateInput|].
  constructor; [apply within_weaken, silent_checkRateLimit|].
  constructor; [apply within_weaken, silent_checkPermissions|].
  constructor; [apply keepsRequest_logCommand|].
  constructor; [apply keepsRequest_executeCommand|constructor].
Qed.

(** *** The pipeline always replies *)

Lemma validateInput_spec (st : state) :
  (truthy (senderID (ctx_event (ctx st))) = true /\ validateInput st = (Ok tt, st))
  \/ exists msg, validateInput st = (Ok tt, PipelineFacts.rejected msg st).
Proof.
  unfold validateInput, bind, getCtx, reject, modifyCtx, ret.
  destruct (negb (Validator.isValidCommandInput _ 1 50)); [right; by eexists|].
  destruct (existsb _ _); [right; by eexists|].
  destruct (truthy (threadID _)); simpl; [|right; by eexists].
  destruct (truthy (senderID _)); simpl; [by left|right; by eexists].
Qed.

Lemma handleError_returns (e : Js.error) (st : state) :
  truthy (userId (ctx st)) = true ->
  exists reply, handleError numberToString sha256hex collab e st = (Ok reply, st).
Proof.
  intros Htruthy. unfold handleError, bind, getCtx, guardIsAdmin, guardIsOwner, lift, ret.
  destruct (GuardFacts.isAdmin_returns numberToString (admins collab) (userId (ctx st)))
    as [isAdm ->]; [by destruct (userId (ctx st))..|].
  destruct isAdm; [by eexists|].
  destruct (GuardFacts.isOwner_returns numberToString sha256hex (lock collab)
              (userId (ctx st))) as [isOwn ->].
  destruct isOwn; by eexists.
Qed.

(** [process] never throws.  Whatever the event, the command, the
    arguments and the collaborators are, the call returns a reply: an
    exception of a stage can only come after validation has found a sender
    id, and for such an id the guard calls of [handleError] return. *)
Theorem process_always_replies (ev : event) (cmd : value) (arguments : list value)
    (start now : Z) (limits0 : limits_t) :
  exists reply, fst (process ev cmd arguments start now limits0) = Ok reply.
Proof.
  unfold CommandProcessor.process.
  set (st0 := State (initialContext ev cmd arguments start) limits0 [] []).
  pose proof (keepsRequest_middlewares now st0) as Hkeep.
  destruct (runChain _ st0) as [[u|e] st] eqn:Hrun; [by eexists|].
  simpl in Hkeep. destruct Hkeep as (_ & _ & _ & Huser & _).
  unfold middlewares in Hrun.
  rewrite PipelineFacts.runChain_cons in Hrun by done.
  destruct (validateInput_spec st0) as [[Htruthy Hpass]|[msg Hrej]].
  - match goal with |- context [handleError _ _ _ e ?s] =>
      destruct (handleError_returns e s) as [reply Hreply] end.
    + simpl. by rewrite Huser.
    + exists reply. by rewrite Hreply.
  - rewrite Hrej in Hrun. by rewrite PipelineFacts.runChain_stopped in Hrun.
Qed.

(** *** The categories *)

(** Every fun command is an admin command, and the admin list is read
    first: no command is of the fun category, and the permission stage never
    answers with the message of that category. *)
Theorem fun_category_unreachable (cmd : value) (st : state) :
  getCommandCategory cmd <> CatFun
  /\ (response (ctx (snd (checkPermissions st))) = VStr msgFunRequired ->
      response (ctx st) = VStr msgFunRequired).
Proof.
  assert (Hnever : forall c, getCommandCategory c <> CatFun).
  { intros c. unfold getCommandCategory, includes. destruct c as [| | | |s]; try done.
    repeat case_bool_decide; try done.
    match goal with Hfun : s ∈ funCommands, Hadm : s ∉ adminCommands |- _ =>
      exfalso; apply Hadm; unfold funCommands, adminCommands in *;
      repeat (apply elem_of_cons in Hfun as [->|Hfun]);
      [apply list_elem_of_here|apply list_elem_of_further, list_elem_of_here
      |by apply elem_of_nil in Hfun]
    end. }
  split; [apply Hnever|].
  unfold CommandProcessor.checkPermissions, bind at 1, getCtx.
  specialize (Hnever (command (ctx st))).
  destruct (getCommandCategory (command (ctx st))); try done.
  - unfold bind, guardIsOwner, lift.
    destruct (Guard.isOwner _ _ _ _) as [[]|]; simpl; done.
  - unfold notAdminNorOwner, bind, guardIsAdmin, guardIsOwner, lift.
    destruct (Guard.isAdmin _ _ _) as [[]|]; simpl; try done.
    destruct (Guard.isOwner _ _ _ _) as [[]|]; simpl; done.
Qed.

(** *** A falsy argument *)

(** An argument that is the empty string, or any other falsy value, is
    refused, although the bounds on arguments start at length zero: with a
    valid command name the pipeline answers with the message for invalid
    arguments and runs no later stage. *)
Theorem falsy_argument_rejected (ev : event) (cmd arg : value) (arguments : list value)
    (start now : Z) (limits0 : limits_t) :
  Validator.isValidCommandInput cmd 1 50 = true ->
  arg ∈ arguments ->
  truthy arg = false ->
  process ev cmd arguments start now limits0
  = (Ok (VStr msgInvalidArgs),
     PipelineFacts.rejected msgInvalidArgs
       (State (initialContext ev cmd arguments start) limits0 [] [])).
Proof.
  intros Hname Hin Hfalsy. unfold CommandProcessor.process, middlewares.
  rewrite PipelineFacts.runChain_cons by done.
  assert (Hargs : existsb (fun a => negb (Validator.isValidCommandInput a 0 500)) arguments
                  = true).
  { apply existsb_exists. exists arg. split; [by apply list_elem_of_In|].
    unfold Validator.isValidCommandInput. by rewrite Hfalsy. }
  assert (Hval : validateInput (State (initialContext ev cmd arguments start) limits0 [] [])
                 = (Ok tt, PipelineFacts.rejected msgInvalidArgs
                             (State (initialContext ev cmd arguments start) limits0 [] []))).
  { unfold validateInput, bind, getCtx. simpl. by rewrite Hname, Hargs. }
  rewrite Hval. by rewrite PipelineFacts.runChain_stopped.
Qed.

(** *** A sender without the role *)

(** The message of the permission stage for a category. *)
Definition denial (c : category) : string :=
  match c with
  | CatOwner => msgOwnerRequired
  | _ => msgAdminRequired
  end.

(** A sender who is neither on the admin list nor the owner, and a command
    of the owner or the admin category: when validation and the rate check
    let the invocation through, the permission stage rejects it with the
    message of the category, and the later stages do not run, so nothing
    reaches the audit sink, the cache or a handler. *)
Theorem sender_without_role_denied (ev : event) (cmd : value) (arguments : list value)
    (start now : Z) (limits0 : limits_t) (st2 : state) :
  Guard.isAdmin numberToString (admins collab) (senderID ev) = Ok false ->
  Guard.isOwner numberToString sha256hex (lock collab) (senderID ev) = Ok false ->
  getCommandCategory cmd = CatOwner \/ getCommandCategory cmd = CatAdmin ->
  runChain [validateInput; checkRateLimit now]
           (State (initialContext ev cmd arguments start) limits0 [] [])
  = (Ok tt, st2) ->
  shouldContinue (ctx st2) = true ->
  process ev cmd arguments start now limits0
  = (Ok (VStr (denial (getCommandCategory cmd))),
     PipelineFacts.rejected (denial (getCommandCategory cmd)) st2)
  /\ audit st2 = [] /\ cacheSets st2 = [].
Proof.
  intros Hadmin Howner Hcat Hfirst Hgo.
  assert (Hsilent : silent (State (initialContext ev cmd arguments start) limits0 [] []) st2).
  { pose proof (within_runChain silent [validateInput; checkRateLimit now]
                  silent_refl silent_trans) as Hw.
    specialize (Hw ltac:(constructor; [apply silent_validateInput|];
                         constructor; [apply silent_checkRateLimit|constructor])
                   (State (initialContext ev cmd arguments start) limits0 [] [])).
    by rewrite Hfirst in Hw. }
  destruct Hsilent as ((_ & Hcmd & _ & Huser & _) & Haudit & Hcache).
  simpl in Hcmd, Huser, Haudit, Hcache.
  split; [|by split].
  unfold CommandProcessor.process.
  change (middlewares numberToString sha256hex jsonStringify collab now)
    with ([validateInput; checkRateLimit now]
          ++ [checkPermissions; logCommand collab; executeCommand])%list.
  rewrite PipelineFacts.runChain_app, Hfirst, PipelineFacts.runChain_cons by done.
  assert (Hdenied : checkPermissions st2
                    = (Ok tt, PipelineFacts.rejected (denial (getCommandCategory cmd)) st2)).
  { unfold CommandProcessor.checkPermissions, bind at 1, getCtx. rewrite Hcmd.
    destruct Hcat as [-> | ->]; simpl.
    - unfold bind, guardIsOwner, lift. by rewrite Huser, Howner.
    - unfold notAdminNorOwner, bind, guardIsAdmin, guardIsOwner, lift.
      by rewrite Huser, Hadmin, Howner. }
  rewrite Hdenied. by rewrite PipelineFacts.runChain_stopped.
Qed.

(** *** The cache *)

(** The commands whose result may be cached are the commands of the user
    category. *)
Lemma cacheable_is_user (cmd : value) :
  shouldCacheCommand cmd = true -> getCommandCategory cmd = CatUser.
Proof.
  unfold shouldCacheCommand, includes. destruct cmd as [| | | |s]; try done.
  intros Hin%bool_decide_eq_true.
  repeat (apply elem_of_cons in Hin as [->|Hin]); try done.
  by apply elem_of_nil in Hin.
Qed.

(** A step that keeps the request and writes to the cache only for a
    cacheable command. *)
Definition cacheRule (st st' : state) : Prop :=
  sameRequest (ctx st) (ctx st')
  /\ (cacheSets st' = cacheSets st \/ shouldCacheCommand (command (ctx st)) = true).

Lemma cacheRule_refl (st : state) : cacheRule st st.
Proof. split; [apply sameRequest_refl|by left]. Qed.

Lemma cacheRule_trans (st1 st2 st3 : state) :
  cacheRule st1 st2 -> cacheRule st2 st3 -> cacheRule st1 st3.
Proof.
  intros [Hr1 Hc1] [Hr2 Hc2]. split; [by eapply sameRequest_trans|].
  destruct Hr1 as (_ & Hcmd & _).
  destruct Hc1 as [Hc1|Hc1]; [|by right].
  destruct Hc2 as [Hc2|Hc2]; [left; congruence|right; by rewrite <- Hcmd].
Qed.

Lemma cacheRule_silent {A} (m : M A) : within silent m -> within cacheRule m.
Proof. intros Hm st. destruct (Hm st) as (? & _ & ?). split; [done|by left]. Qed.

Lemma cacheRule_logCommand : within cacheRule (logCommand collab).
Proof.
  intros st. split; [apply keepsRequest_logCommand|]. left.
  unfold logCommand, bind, getCtx, lift, recordAudit, throw, ret. simpl.
  destruct (auditSink collab (ctx st)); simpl; [|done].
  destruct (command (ctx st)); simpl; try done.
  destruct (_ && _); simpl; [|done].
  by destruct (funUsageSink collab (ctx st)).
Qed.

Lemma cacheRule_executeCommand : within cacheRule executeCommand.
Proof.
  intros st. split; [apply keepsRequest_executeCommand|].
  unfold CommandProcessor.executeCommand, bind at 1, getCtx.
  destruct (getCommandHandler collab (command (ctx st))) as [h|]; [|by left].
  destruct (_ && _); [by left|].
  unfold runHandler, bind, lift, cacheSet, modifyCtx, ret.
  destruct (h _ _) as [result|e]; simpl; [|by left].
  destruct (shouldCacheCommand (command (ctx st))); [by right|].
  rewrite andb_false_r. simpl. left. by destruct (debugLog collab (ctx st)).
Qed.

(** Only the results of user commands are cached.  If an invocation
    writes to the cache at all, its command is one of [help], [info] and
    [stats]: no command of the owner or of the admin category, and so no
    command that starts or stops a loop, leaves a result in the cache. *)
Theorem cache_written_for_user_commands_only (ev : event) (cmd : value)
    (arguments : list value) (start now : Z) (limits0 : limits_t) :
  cacheSets (snd (process ev cmd arguments start now limits0)) <> [] ->
  getCommandCategory cmd = CatUser.
Proof.
  intros Hwritten. apply cacheable_is_user.
  unfold CommandProcessor.process in Hwritten.
  set (st0 := State (initialContext ev cmd arguments start) limits0 [] []) in *.
  assert (Hchain : cacheRule st0
            (snd (runChain (middlewares numberToString sha256hex jsonStringify collab now)
                           st0))).
  { apply (within_runChain cacheRule); [apply cacheRule_refl|apply cacheRule_trans|].
    constructor; [apply cacheRule_silent, silent_validateInput|].
    constructor; [apply cacheRule_silent, silent_checkRateLimit|].
    constructor; [apply cacheRule_silent, silent_checkPermissions|].
    constructor; [apply cacheRule_logCommand|].
    constructor; [apply cacheRule_executeCommand|constructor]. }
  destruct (runChain _ st0) as [[u|e] st] eqn:Hrun; simpl in *.
  - destruct Hchain as [_ [Hsame|Hcacheable]]; [by rewrite Hsame in Hwritten|done].
  - destruct Hchain as [_ [Hsame|Hcacheable]]; [|done].
    exfalso. apply Hwritten.
    unfold handleError, bind, getCtx, guardIsAdmin, guardIsOwner, lift, ret. simpl.
    destruct (Guard.isAdmin _ _ _) as [[]|]; simpl; try done.
    by destruct (Guard.isOwner _ _ _ _) as [[]|].
Qed.
End Stages.

(** *** The pipeline on concrete invocations *)

(** Collaborators with a module for [help] only. *)
Definition withHelp : collaborators :=
  Collaborators [] (Guard.LockData (VStr (GuardFacts.toyDigest "100012345678")))
                (fun cmd => if decide (cmd = VStr "help")
                            then Some (fun _ _ => Ok (VStr "Commands: help, info, stats"))
                            else None)
                (fun _ => VUndefined)
                (fun _ => Ok tt) (fun _ => Ok tt) (fun _ => Ok tt).

Lemma falsy_argument_rejected_witness :
  process GuardFacts.toyNumber GuardFacts.toyDigest PipelineFacts.toyJson withHelp
          PipelineFacts.sender (VStr "help") [VStr "all"; VStr EmptyString] 0 1000 ∅
  = (Ok (VStr msgInvalidArgs),
     PipelineFacts.rejected msgInvalidArgs
       (State (initialContext PipelineFacts.sender (VStr "help")
                              [VStr "all"; VStr EmptyString] 0) ∅ [] [])).
Proof.
  apply (falsy_argument_rejected GuardFacts.toyNumber GuardFacts.toyDigest
           PipelineFacts.toyJson withHelp PipelineFacts.sender (VStr "help")
           (VStr EmptyString)).
  - vm_compute; reflexivity.
  - apply list_elem_of_further, list_elem_of_here.
  - reflexivity.
Defined.

(** The stranger of the specification: [startfun chor] from a sender with
    no role. *)
Lemma sender_without_role_denied_witness :
  exists st2,
    runChain [validateInput;
              CommandProcessor.checkRateLimit GuardFacts.toyNumber GuardFacts.toyDigest
                                              withHelp 1000]
             (State (initialContext PipelineFacts.sender (VStr "startfun") [VStr "chor"] 0)
                    ∅ [] [])
    = (Ok tt, st2)
    /\ process GuardFacts.toyNumber GuardFacts.toyDigest PipelineFacts.toyJson withHelp
               PipelineFacts.sender (VStr "startfun") [VStr "chor"] 0 1000 ∅
       = (Ok (VStr msgAdminRequired), PipelineFacts.rejected msgAdminRequired st2)
    /\ audit st2 = [] /\ cacheSets st2 = [].
Proof.
  eexists. split; [vm_compute; reflexivity|].
  apply (sender_without_role_denied GuardFacts.toyNumber GuardFacts.toyDigest
           PipelineFacts.toyJson withHelp PipelineFacts.sender (VStr "startfun")
           [VStr "chor"] 0 1000 ∅).
  - reflexivity.
  - reflexivity.
  - right. vm_compute; reflexivity.
  - vm_compute; reflexivity.
  - reflexivity.
Defined.

Lemma cache_written_for_user_commands_only_witness :
  cacheSets (snd (process GuardFacts.toyNumber GuardFacts.toyDigest PipelineFacts.toyJson
                          withHelp PipelineFacts.sender (VStr "help") [] 0 1000 ∅))
  <> []
  /\ getCommandCategory (VStr "help") = CatUser.
Proof.
  assert (Hwritten :
    cacheSets (snd (process GuardFacts.toyNumber GuardFacts.toyDigest PipelineFacts.toyJson
                            withHelp PipelineFacts.sender (VStr "help") [] 0 1000 ∅))
    <> []) by (vm_compute; discriminate).
  split; [exact Hwritten|].
  exact (cache_written_for_user_commands_only GuardFacts.toyNumber GuardFacts.toyDigest
           PipelineFacts.toyJson withHelp PipelineFacts.sender (VStr "help") [] 0 1000 ∅
           Hwritten).
Defined.

End PipelineFrames.

(** ** The fun engine: runs *)

Module FunEngineRuns.
Import FunEngine FunEngineFacts.

(** Every entry has its interval live, and the interval is the one of its
    thread. *)
Definition entriesLive (w : world) : Prop :=
  forall t f, activeFuns w !! t = Some f ->
    exists c, timers w !! interval f = Some c /\ c_threadId c = t.

(** No entry has counted a message or moved its index. *)
Definition uncounted (w : world) : Prop :=
  forall t f, activeFuns w !! t = Some f -> messageCount f = 0%nat /\ index f = 0%nat.

Section Runs.
Variable numberToString : Z -> string.

Abbreviation stopFun := (stopFun numberToString).
Abbreviation tick := (tick numberToString).
Abbreviation step := (step numberToString).
Abbreviation run := (run numberToString).

Lemma entriesLive_startFun (threadId funType : string) (user : value) (now : Z) (w : world) :
  wf w -> entriesLive w -> entriesLive (snd (startFun threadId funType user now w)).
Proof.
  intros [Hown Hfresh] Hlive. unfold startFun.
  case_decide as Hact; [done|].
  destruct (funTemplates w !! funType) as [templateLines|]; [|done].
  case_decide; [done|]. simpl. intros t f Hf. simpl in *.
  destruct (decide (t = threadId)) as [->|Hne].
  - rewrite lookup_insert_eq in Hf. injection Hf as <-. simpl.
    rewrite lookup_insert_eq. by eexists.
  - rewrite lookup_insert_ne in Hf by done.
    destruct (Hlive t f Hf) as (c & Hc & Ht). exists c. split; [|done].
    rewrite lookup_insert_ne; [done|]. intros Heq.
    specialize (Hfresh (interval f) ltac:(by eexists)). lia.
Qed.

Lemma entriesLive_stopFun (threadId : string) (now : Z) (w : world) :
  entriesLive w -> entriesLive (snd (stopFun threadId now w)).
Proof.
  intros Hlive. unfold FunEngine.stopFun.
  destruct (activeFuns w !! threadId) as [f|] eqn:Hf; [|done]. simpl.
  intros t f' Hf'. simpl in *.
  apply lookup_delete_Some in Hf' as [Hne Hf'].
  destruct (Hlive t f' Hf') as (c & Hc & Ht). exists c. split; [|done].
  rewrite lookup_delete_ne; [done|]. intros Heq.
  destruct (Hlive threadId f Hf) as (c0 & Hc0 & Ht0).
  rewrite Heq in Hc0. congruence.
Qed.

Lemma entriesLive_send (threadId text : string) (w : world) :
  entriesLive w -> entriesLive (send threadId text w).
Proof. done. Qed.

Lemma entriesLive_tick (h : positive) (o : outcome) (now : Z) (w : world) :
  entriesLive w -> entriesLive (tick h o now w).
Proof.
  intros Hlive. unfold FunEngine.tick.
  destruct (timers w !! h) as [c|] eqn:Hc; [|done].
  match goal with |- context [World ?a ?b ?t ?n ?o] =>
    assert (Hlive1 : entriesLive (World a b t n o)) end.
  { intros t f Hf. simpl in *. destruct (Hlive t f Hf) as (c' & Hc' & Ht).
    destruct (decide (interval f = h)) as [Heq|Hne].
    - rewrite Heq in *. rewrite lookup_insert_eq. eexists. split; [done|]. simpl. congruence.
    - rewrite lookup_insert_ne by done. by exists c'. }
  destruct o; unfold tickFailed;
    repeat first [apply entriesLive_send | apply entriesLive_stopFun]; exact Hlive1.
Qed.

Lemma uncounted_startFun (threadId funType : string) (user : value) (now : Z) (w : world) :
  uncounted w -> uncounted (snd (startFun threadId funType user now w)).
Proof.
  intros Hun. unfold startFun.
  case_decide as Hact; [done|].
  destruct (funTemplates w !! funType) as [templateLines|]; [|done].
  case_decide; [done|]. simpl. intros t f Hf. simpl in *.
  destruct (decide (t = threadId)) as [->|Hne].
  - rewrite lookup_insert_eq in Hf. by injection Hf as <-.
  - rewrite lookup_insert_ne in Hf by done. by eapply Hun.
Qed.

Lemma uncounted_stopFun (threadId : string) (now : Z) (w : world) :
  uncounted w -> uncounted (snd (stopFun threadId now w)).
Proof.
  intros Hun. unfold FunEngine.stopFun.
  destruct (activeFuns w !! threadId) as [f|] eqn:Hf; [|done]. simpl.
  intros t f' Hf'. simpl in *. apply lookup_delete_Some in Hf' as [_ Hf']. by eapply Hun.
Qed.

Lemma uncounted_tick (h : positive) (o : outcome) (now : Z) (w : world) :
  uncounted w -> uncounted (tick h o now w).
Proof.
  intros Hun. unfold FunEngine.tick.
  destruct (timers w !! h) as [c|] eqn:Hc; [|done].
  match goal with |- context [World ?a ?b ?t ?n ?o] =>
    assert (Hun1 : uncounted (World a b t n o)) by exact Hun end.
  destruct o; unfold tickFailed; try exact Hun1;
    intros t f Hf;
    match type of Hf with
    | activeFuns (send _ _ (snd (FunEngine.stopFun _ ?t0 ?n0 ?w0))) !! _ = _ =>
        exact (uncounted_stopFun t0 n0 w0 ltac:(exact Hun1) t f Hf)
    end.
Qed.

(** What every run of the engine keeps. *)
Definition sound (w : world) : Prop := wf w /\ entriesLive w /\ uncounted w.

Lemma sound_step (a : action) (now : Z) (w : world) : sound w -> sound (step a now w).
Proof.
  intros (Hwf & Hlive & Hun). split; [by apply wf_step|]. destruct a; simpl.
  - split; [by apply entriesLive_startFun|by apply uncounted_startFun].
  - split; [by apply entriesLive_stopFun|by apply uncounted_stopFun].
  - split; [by apply entriesLive_tick|by apply uncounted_tick].
Qed.

Lemma sound_run (trace : list (action * Z)) (w : world) : sound w -> sound (run trace w).
Proof.
  revert w. induction trace as [|[a now] trace IH]; intros w Hs; [done|].
  simpl. by apply IH, sound_step.
Qed.

Lemma sound_initial (templates : gmap string (list string)) : sound (initial templates).
Proof.
  split; [apply wf_initial|]. split; intros t f Hf; cbn in Hf; by rewrite lookup_empty in Hf.
Qed.

(** A thread has a loop exactly when it has a live interval.  In every
    state the engine reaches from its initial state, by starts, stops and
    firings in any order and with any outcome, the threads with an entry in
    [activeFuns] are the threads some live interval sends to: no interval
    outlives its entry, and no entry is left without its interval. *)
Theorem loops_and_intervals_match (templates : gmap string (list string))
    (trace : list (action * Z)) (threadId : string) :
  let w := run trace (initial templates) in
  is_Some (activeFuns w !! threadId)
  <-> exists h c, timers w !! h = Some c /\ c_threadId c = threadId.
Proof.
  intros w. destruct (sound_run trace (initial templates) (sound_initial templates))
    as ([Hown _] & Hlive & _). fold w in Hown, Hlive.
  split.
  - intros [f Hf]. destruct (Hlive threadId f Hf) as (c & Hc & Ht). by exists (interval f), c.
  - intros (h & c & Hc & <-). destruct (Hown h c Hc) as (f & Hf & _). by exists f.
Qed.

(** [stopFun] always reports zero messages.  The counter of an entry is
    set to zero by [startFun] and written nowhere else, so in every state the
    engine reaches a successful stop reports [messagesSent = 0], however many
    messages the loop has sent. *)
Theorem stopFun_reports_no_message (templates : gmap string (list string))
    (trace : list (action * Z)) (threadId : string) (now : Z)
    (reply : string) (s : stats) (w' : world) :
  stopFun threadId now (run trace (initial templates)) = (Success reply (Some s), w') ->
  messagesSent s = 0%nat.
Proof.
  destruct (sound_run trace (initial templates) (sound_initial templates))
    as (_ & _ & Hun).
  unfold FunEngine.stopFun.
  destruct (activeFuns (run trace (initial templates)) !! threadId) as [f|] eqn:Hf; [|done].
  intros [= _ <- _]. simpl. by destruct (Hun threadId f Hf).
Qed.

(** *** The order of the lines *)

Lemma tick_delivered (h : positive) (c : closure) (now : Z) (w : world) :
  timers w !! h = Some c ->
  (currentIndex c <= length (c_lines c))%nat ->
  c_lines c <> [] ->
  let i := (currentIndex c mod length (c_lines c))%nat in
  tick h Delivered now w
  = World (activeFuns w) (funTemplates w)
          (<[h := Closure (c_threadId c) (c_funType c) (c_userId c) (c_lines c) (S i)]>
             (timers w))
          (nextTimer w)
          (outbox w ++ [(c_threadId c, default "undefined" (c_lines c !! i))])%list.
Proof.
  intros Hc Hle Hne i. subst i. unfold FunEngine.tick. rewrite Hc.
  assert (Hlen : length (c_lines c) <> 0%nat) by (by destruct (c_lines c)).
  case_decide as Hwrap.
  - assert (currentIndex c = length (c_lines c)) as -> by lia.
    by rewrite Nat.Div0.mod_same.
  - by rewrite Nat.mod_small by lia.
Qed.

(** The firings of one interval, all delivered, at the given times. *)
Definition deliveries (h : positive) (times : list Z) : list (action * Z) :=
  firings ((fun now => (h, Delivered, now)) <$> times).

(** The line of the [j]-th firing from a closure whose index is [start]. *)
Definition lineAt (c : closure) (start j : nat) : string * string :=
  (c_threadId c, default "undefined" (c_lines c !! ((start + j) mod length (c_lines c))%nat)).

Lemma deliveries_cycle (h : positive) (times : list Z) :
  forall (c : closure) (w : world),
    timers w !! h = Some c ->
    (currentIndex c <= length (c_lines c))%nat ->
    c_lines c <> [] ->
    outbox (run (deliveries h times) w)
    = (outbox w ++ (lineAt c (currentIndex c) <$> seq 0 (length times)))%list
    /\ activeFuns (run (deliveries h times) w) = activeFuns w.
Proof.
  induction times as [|now times IH]; intros c w Hc Hle Hne.
  { simpl. by rewrite app_nil_r. }
  assert (Hlen : length (c_lines c) <> 0%nat) by (by destruct (c_lines c)).
  change (run (deliveries h (now :: times)) w)
    with (run (deliveries h times) (tick h Delivered now w)).
  rewrite (tick_delivered h c now w Hc Hle Hne).
  match goal with |- context [FunEngine.run _ _ ?w1] =>
    destruct (IH (Closure (c_threadId c) (c_funType c) (c_userId c) (c_lines c)
                          (S (currentIndex c mod length (c_lines c)))) w1)
      as [Hout Hact] end.
  - simpl. by rewrite lookup_insert_eq.
  - simpl. pose proof (Nat.mod_upper_bound (currentIndex c) (length (c_lines c)) Hlen). lia.
  - done.
  - rewrite Hout, Hact. split; [|done].
    simpl. rewrite <- app_assoc. f_equal. simpl. f_equal.
    + unfold lineAt. by rewrite Nat.add_0_r.
    + rewrite <- fmap_S_seq, <- list_fmap_compose. apply list_fmap_ext.
      intros _ j _. unfold lineAt. cbn [compose currentIndex c_threadId c_lines].
      assert (Hshift : ((S (currentIndex c mod length (c_lines c)) + j)
                        mod length (c_lines c)
                        = (currentIndex c + S j) mod length (c_lines c))%nat).
      { replace (S (currentIndex c mod length (c_lines c)) + j)%nat
          with (currentIndex c mod length (c_lines c) + S j)%nat by lia.
        apply Nat.Div0.add_mod_idemp_l. }
      by rewrite Hshift.
Qed.


(** *** Stop, stop again, start again *)

(** After a stop the thread is free.  A second stop of the same thread is
    refused and changes nothing, and a start with a known, non-empty
    template set succeeds. *)
Theorem stop_frees_the_thread (threadId funType : string) (user : value)
    (now1 now2 now3 : Z) (w : world) (templateLines : list string) :
  funTemplates w !! funType = Some templateLines ->
  templateLines <> [] ->
  let w1 := snd (stopFun threadId now1 w) in
  stopFun threadId now2 w1 = (Failure errNoActive, w1)
  /\ success (fst (startFun threadId funType user now3 w1)) = true
  /\ is_Some (activeFuns (snd (startFun threadId funType user now3 w1)) !! threadId).
Proof.
  intros Htpl Hne w1.
  assert (Hfree : activeFuns w1 !! threadId = None).
  { subst w1. unfold FunEngine.stopFun.
    destruct (activeFuns w !! threadId) eqn:Hf; simpl; [apply lookup_delete_eq|done]. }
  assert (Htpl1 : funTemplates w1 !! funType = Some templateLines).
  { subst w1. unfold FunEngine.stopFun. by destruct (activeFuns w !! threadId). }
  split; [unfold FunEngine.stopFun; by rewrite Hfree|].
  rewrite (startFun_fresh threadId funType user now3 w1 templateLines Hfree Htpl1 Hne).
  simpl. split; [done|]. rewrite lookup_insert_eq. by eexists.
Qed.

(** *** Stopping all loops *)

Lemma lookup_cleared (entries : list (string * activeFun)) (live : gmap positive closure)
    (h : positive) :
  foldr (fun e l => delete (interval e.2) l) live entries !! h
  = if decide (h ∈ (fun e => interval e.2) <$> entries) then None else live !! h.
Proof.
  induction entries as [|e entries IH].
  - done.
  - rewrite fmap_cons. cbn [foldr].
    destruct (decide (interval e.2 = h)) as [<-|Hne].
    + clear IH. rewrite lookup_delete_eq.
      destruct (decide (interval e.2 ∈ interval e.2 :: _)) as [|Hin]; [done|].
      exfalso. apply Hin. apply list_elem_of_here.
    + rewrite lookup_delete_ne by done. rewrite IH. clear IH.
      destruct (decide (h ∈ (fun e0 : string * activeFun => interval e0.2) <$> entries))
        as [Hin|Hin];
        destruct (decide (h ∈ interval e.2 :: _)) as [Hin'|Hin']; try done.
      * exfalso. by apply Hin', list_elem_of_further.
      * exfalso. apply elem_of_cons in Hin' as [?|?]; [congruence|done].
Qed.

Lemma run_without_timers (l : list (positive * outcome * Z)) (w : world) :
  timers w = ∅ -> run (firings l) w = w.
Proof.
  intros Hnone. induction l as [|[[h o] now] l IH]; [done|].
  simpl. unfold FunEngine.tick. rewrite Hnone, lookup_empty. exact IH.
Qed.

(** [stopAllFuns] leaves nothing running.  On a state of the engine that
    satisfies its invariant, the table is empty afterwards and so is the set
    of live intervals, the array returned has one element for each entry
    there was, and whatever the scheduler fires afterwards changes nothing. *)
Theorem stopAllFuns_stops_all (now : Z) (w : world) :
  wf w ->
  let stopped := fst (stopAllFuns now w) in
  let w' := snd (stopAllFuns now w) in
  activeFuns w' = ∅
  /\ timers w' = ∅
  /\ length stopped = size (activeFuns w)
  /\ (forall t, t ∈ sf_threadId <$> stopped <-> is_Some (activeFuns w !! t))
  /\ (forall l, run (firings l) w' = w').
Proof.
  intros [Hown _] stopped w'. subst stopped w'. unfold stopAllFuns. simpl.
  assert (Hnone : foldr (fun e l => delete (interval e.2) l) (timers w)
                        (map_to_list (activeFuns w)) = ∅).
  { apply map_eq. intros h. rewrite lookup_cleared, lookup_empty.
    case_decide as Hin; [done|].
    destruct (timers w !! h) as [c|] eqn:Hc; [|done].
    destruct (Hown h c Hc) as (f & Hf & Hi). exfalso. apply Hin.
    apply list_elem_of_fmap. exists (c_threadId c, f). split; [done|].
    by apply elem_of_map_to_list. }
  split; [done|]. split; [done|]. split.
  { by rewrite length_fmap, length_map_to_list. }
  split.
  - intros t. rewrite list_elem_of_fmap. split.
    + intros (sf & -> & Hsf). apply list_elem_of_fmap in Hsf as ([t' f] & -> & Hin).
      apply elem_of_map_to_list in Hin. simpl. by exists f.
    + intros [f Hf]. exists (StoppedFun t (type f) (now - startTime f)). split; [done|].
      apply list_elem_of_fmap. exists (t, f). split; [done|].
      by apply elem_of_map_to_list.
  - intros l. by apply run_without_timers.
Qed.

(** *** One thread's failure *)

(** A firing touches its own thread only.  Whatever its outcome, the
    firing of an interval leaves the entry of every other thread, the
    interval of every other thread and the messages sent to every other
    thread as they were. *)
Theorem firing_touches_own_thread_only (w : world) (h : positive) (c : closure)
    (o : outcome) (now : Z) (other : string) :
  wf w ->
  timers w !! h = Some c ->
  other <> c_threadId c ->
  let w' := tick h o now w in
  activeFuns w' !! other = activeFuns w !! other
  /\ sentTo other w' = sentTo other w
  /\ (forall h' c', timers w !! h' = Some c' -> c_threadId c' = other ->
        timers w' !! h' = Some c').
Proof.
  intros [Hown _] Hc Hother w'. subst w'. unfold FunEngine.tick. rewrite Hc.
  destruct (Hown h c Hc) as (f & Hf & Hi).
  assert (Hkeep : forall h' c', timers w !! h' = Some c' -> c_threadId c' = other -> h' <> h).
  { intros h' c' Hc' Ht' ->. congruence. }
  destruct o; unfold tickFailed, FunEngine.stopFun; simpl; rewrite ?Hf; simpl;
    rewrite ?Hi; (split; [|split]);
    try (by rewrite lookup_delete_ne);
    try done;
    try (unfold sentTo; simpl; rewrite ?filter_app, ?filter_cons, ?filter_nil;
         rewrite ?decide_False by (simpl; congruence);
         by rewrite ?app_nil_r);
    try (intros h' c' Hc' Ht'; pose proof (Hkeep h' c' Hc' Ht');
         rewrite ?lookup_delete_ne by done; by rewrite lookup_insert_ne).
Qed.
End Runs.

(** Two threads with a loop each, over three lines. *)
Definition aviary : world := initial {[ "murgi" := ["a"; "b"; "c"] ]}.

Definition twoLoops : world :=
  run GuardFacts.toyNumber
      [(AStart "t1" "murgi" (VStr "1001"), 0%Z); (AStart "t2" "murgi" (VStr "1002"), 10%Z)]
      aviary.

(** Two messages delivered, then a stop. *)
Lemma stopFun_reports_no_message_witness :
  let trace := [(AStart "t1" "murgi" (VStr "1001"), 0%Z);
                (ATick 1 Delivered, 500%Z); (ATick 1 Delivered, 1000%Z)] in
  let w := run GuardFacts.toyNumber trace aviary in
  sentTo "t1" w = ["a"; "b"]
  /\ messagesSent (Stats "murgi" 2 0 (VStr "1001")) = 0%nat.
Proof.
  split; [reflexivity|].
  apply (stopFun_reports_no_message GuardFacts.toyNumber {[ "murgi" := ["a"; "b"; "c"] ]}
           [(AStart "t1" "murgi" (VStr "1001"), 0%Z);
            (ATick 1 Delivered, 500%Z); (ATick 1 Delivered, 1000%Z)]
           "t1" 1500
           (stoppedMessage GuardFacts.toyNumber (Stats "murgi" 2 0 (VStr "1001")))
           (Stats "murgi" 2 0 (VStr "1001"))
           (World ∅ {[ "murgi" := ["a"; "b"; "c"] ]} ∅ 2 [("t1", "a"); ("t1", "b")])).
  vm_compute. reflexivity.
Defined.


Lemma stop_frees_the_thread_witness :
  let w1 := snd (stopFun GuardFacts.toyNumber "t1" 700 twoLoops) in
  stopFun GuardFacts.toyNumber "t1" 800 w1 = (Failure errNoActive, w1)
  /\ success (fst (startFun "t1" "murgi" (VStr "1003") 900 w1)) = true
  /\ is_Some (activeFuns (snd (startFun "t1" "murgi" (VStr "1003") 900 w1)) !! "t1").
Proof.
  apply (stop_frees_the_thread GuardFacts.toyNumber "t1" "murgi" (VStr "1003") 700 800 900
           twoLoops ["a"; "b"; "c"]).
  - vm_compute; reflexivity.
  - discriminate.
Defined.

Lemma stopAllFuns_stops_all_witness :
  let stopped := fst (stopAllFuns 700 twoLoops) in
  let w' := snd (stopAllFuns 700 twoLoops) in
  activeFuns w' = ∅
  /\ timers w' = ∅
  /\ length stopped = size (activeFuns twoLoops)
  /\ (forall t, t ∈ sf_threadId <$> stopped <-> is_Some (activeFuns twoLoops !! t))
  /\ (forall l, run GuardFacts.toyNumber (firings l) w' = w').
Proof.
  apply (stopAllFuns_stops_all GuardFacts.toyNumber 700 twoLoops).
  apply wf_run, wf_initial.
Defined.

(** The send of the first thread is refused; the second thread keeps its
    loop. *)
Lemma firing_touches_own_thread_only_witness :
  let w' := tick GuardFacts.toyNumber 1 SendFails 500 twoLoops in
  activeFuns w' !! "t1" = None
  /\ activeFuns w' !! "t2" = activeFuns twoLoops !! "t2"
  /\ sentTo "t2" w' = sentTo "t2" twoLoops
  /\ (forall h' c', timers twoLoops !! h' = Some c' -> c_threadId c' = "t2" ->
        timers w' !! h' = Some c').
Proof.
  split; [reflexivity|].
  apply (firing_touches_own_thread_only GuardFacts.toyNumber twoLoops 1
           (Closure "t1" "murgi" (VStr "1001") ["a"; "b"; "c"] 0) SendFails 500 "t2").
  - apply wf_run, wf_initial.
  - vm_compute; reflexivity.
  - discriminate.
Defined.

End FunEngineRuns.

(** ** The hash of the cache keys *)

Module CacheFacts.
Import Cache.

Local Open Scope Z_scope.

(** The sum the hash computes: every code unit times a power of 31. *)
Definition polyStep (hash char : Z) : Z := 31 * hash + char.
Definition poly (units : list Z) : Z := fold_left polyStep units 0.

(** Equal up to a multiple of [2 ^ 32]. *)
Definition congruent (a b : Z) : Prop := exists k, a = b + k * 2 ^ 32.

Lemma toInt32_congruent (z : Z) : congruent (toInt32 z) z.
Proof.
  unfold congruent, toInt32. exists (- ((z + 2 ^ 31) / 2 ^ 32)).
  pose proof (Z.div_mod (z + 2 ^ 31) (2 ^ 32) ltac:(lia)). lia.
Qed.

Lemma toInt32_proper (a b : Z) : congruent a b -> toInt32 a = toInt32 b.
Proof.
  intros [k ->]. unfold toInt32.
  replace (b + k * 2 ^ 32 + 2 ^ 31) with (b + 2 ^ 31 + k * 2 ^ 32) by lia.
  by rewrite Z_mod_plus_full.
Qed.

Lemma toInt32_range (z : Z) : - 2 ^ 31 <= toInt32 z < 2 ^ 31.
Proof.
  unfold toInt32. pose proof (Z.mod_pos_bound (z + 2 ^ 31) (2 ^ 32) ltac:(lia)). lia.
Qed.

Lemma toInt32_injective (a b : Z) : toInt32 a = toInt32 b -> congruent a b.
Proof.
  intros Heq. destruct (toInt32_congruent a) as [ka Ha], (toInt32_congruent b) as [kb Hb].
  exists (kb - ka). lia.
Qed.

Lemma hashStep_polyStep (a hash char : Z) :
  congruent hash a -> hashStep hash char = toInt32 (polyStep a char).
Proof.
  intros [k ->]. unfold hashStep, shl5, polyStep. apply toInt32_proper.
  destruct (toInt32_congruent (a + k * 2 ^ 32)) as [k1 H1].
  destruct (toInt32_congruent (toInt32 (a + k * 2 ^ 32) * 32)) as [k2 H2].
  exists (k2 + 32 * k1 + 31 * k). lia.
Qed.

Lemma fold_hashStep (units : list Z) :
  forall a hash, congruent hash a ->
    congruent (fold_left hashStep units hash) (fold_left polyStep units a).
Proof.
  induction units as [|c units IH]; intros a hash Hc; [done|].
  simpl. apply IH. rewrite (hashStep_polyStep a hash c Hc). apply toInt32_congruent.
Qed.

Lemma fold_hashStep_range (units : list Z) (hash : Z) :
  - 2 ^ 31 <= hash < 2 ^ 31 -> - 2 ^ 31 <= fold_left hashStep units hash < 2 ^ 31.
Proof.
  revert hash. induction units as [|c units IH]; intros hash Hr; [done|].
  simpl. apply IH, toInt32_range.
Qed.

Lemma in_range_fixed (z : Z) : - 2 ^ 31 <= z < 2 ^ 31 -> toInt32 z = z.
Proof.
  intros Hr. unfold toInt32. rewrite Z.mod_small by lia. lia.
Qed.

Lemma fold_polyStep_linear (units : list Z) :
  forall a, fold_left polyStep units a = 31 ^ Z.of_nat (length units) * a + poly units.
Proof.
  unfold poly. induction units as [|c units IH]; intros a.
  - simpl. lia.
  - cbn [fold_left length]. rewrite (IH (polyStep a c)), (IH (polyStep 0 c)).
    rewrite Nat2Z.inj_succ, Z.pow_succ_r by lia. unfold polyStep. lia.
Qed.

Lemma hashCodeOf_poly (units : list Z) :
  hashCodeOf units = toInt32 (poly units)
  /\ - 2 ^ 31 <= hashCodeOf units < 2 ^ 31.
Proof.
  assert (Hr : - 2 ^ 31 <= hashCodeOf units < 2 ^ 31).
  { apply fold_hashStep_range. lia. }
  split; [|done].
  rewrite <- (in_range_fixed (hashCodeOf units) Hr).
  apply toInt32_proper. apply fold_hashStep. exists 0. lia.
Qed.

Lemma hashCodeOf_app (p x : list Z) :
  hashCodeOf (p ++ x) = toInt32 (31 ^ Z.of_nat (length x) * hashCodeOf p + poly x).
Proof.
  destruct (hashCodeOf_poly (p ++ x)) as [-> _].
  apply toInt32_proper. unfold poly at 1. rewrite fold_left_app.
  rewrite fold_polyStep_linear. fold (poly p).
  destruct (hashCodeOf_poly p) as [-> _].
  destruct (toInt32_congruent (poly p)) as [k ->].
  exists (- 31 ^ Z.of_nat (length x) * k). lia.
Qed.

(** [hashCode] is the polynomial hash with multiplier 31, wrapped once.
    Wrapping to 32 bits at every character gives the same number as
    computing the sum of [char * 31 ^ (length - 1 - i)] exactly and wrapping
    it at the end; the hash is always a signed 32-bit number. *)
Theorem hashCode_polynomial (units : list Z) :
  hashCodeOf units = toInt32 (poly units)
  /\ - 2 ^ 31 <= hashCodeOf units < 2 ^ 31.
Proof. exact (hashCodeOf_poly units). Qed.

Section Keys.
Variable numberToString : Z -> string.
Variable jsonStringify : list value -> string.

Abbreviation commandKey := (commandKey numberToString jsonStringify).

End Keys.

(** [JSON.stringify] on arrays of one string without a character to
    escape. *)
Definition quoteOne (l : list value) : string :=
  match l with
  | [VStr s] => "[" +:+ String "034" EmptyString +:+ s +:+ String "034" EmptyString +:+ "]"
  | _ => "[...]"
  end.


End CacheFacts.

(** ** Stopping every loop at once *)

Module StopFunFacts.
Import Bot StopFun.

Lemma stopOne_frame (acc : nat * bot) (t : string) :
  heap (stopOne acc t).2 = heap acc.2
  /\ outbox (stopOne acc t).2 = outbox acc.2
  /\ timeouts (stopOne acc t).2 = timeouts acc.2.
Proof. unfold stopOne. by destruct (liveHandle t acc.2). Qed.

Lemma funThreads_stopOne_other (acc : nat * bot) (t t' : string) :
  t' <> t -> funThreads (stopOne acc t).2 !! t' = funThreads acc.2 !! t'.
Proof.
  intros Hne. unfold stopOne. destruct (liveHandle t acc.2); [|done].
  simpl. by rewrite lookup_delete_ne.
Qed.

Lemma liveHandle_stopOne_other (acc : nat * bot) (t t' : string) :
  t' <> t -> liveHandle t' (stopOne acc t).2 = liveHandle t' acc.2.
Proof.
  intros Hne. unfold liveHandle, getThread.
  rewrite (funThreads_stopOne_other acc t t' Hne).
  by destruct (stopOne_frame acc t) as (-> & _).
Qed.

Lemma liveHandle_entry (t : string) (b : bot) (h : positive) :
  liveHandle t b = Some h -> is_Some (funThreads b !! t).
Proof.
  unfold liveHandle, getThread. destruct (funThreads b !! t); [by eexists|done].
Qed.

Lemma liveHandle_without_entry (t : string) (b : bot) :
  funThreads b !! t = None -> liveHandle t b = None.
Proof. intros Hnone. unfold liveHandle, getThread. by rewrite Hnone. Qed.

(** The table after the loop of [stopAllFun] over the threads [ts]. *)
Lemma funThreads_stopped (ts : list string) :
  forall (acc : nat * bot) (t : string),
    funThreads (foldl stopOne acc ts).2 !! t
    = if decide (t ∈ ts /\ is_Some (liveHandle t acc.2)) then None
      else funThreads acc.2 !! t.
Proof.
  induction ts as [|t0 ts IH]; intros acc t.
  { cbn [foldl]. rewrite decide_False; [done|]. intros [H _]. by apply elem_of_nil in H. }
  cbn [foldl]. rewrite IH. destruct (decide (t = t0)) as [->|Hne].
  - destruct (liveHandle t0 acc.2) as [h|] eqn:Hlive.
    + assert (Hgone : funThreads (stopOne acc t0).2 !! t0 = None).
      { unfold stopOne. rewrite Hlive. simpl. apply lookup_delete_eq. }
      rewrite (liveHandle_without_entry _ _ Hgone), Hgone.
      rewrite (decide_True (P := t0 ∈ t0 :: ts /\ _)); [by case_decide|].
      split; [apply list_elem_of_here|by eexists].
    + assert (Hsame : stopOne acc t0 = acc) by (unfold stopOne; by rewrite Hlive).
      rewrite Hsame, Hlive.
      rewrite !decide_False; [done|by intros [_ [? ?]]|by intros [_ [? ?]]].
  - rewrite (liveHandle_stopOne_other acc t0 t Hne), (funThreads_stopOne_other acc t0 t Hne).
    destruct (decide (t ∈ ts /\ is_Some (liveHandle t acc.2))) as [[Hin Hl]|Hno].
    + rewrite decide_True; [done|]. split; [by apply list_elem_of_further|done].
    + rewrite decide_False; [done|]. intros [Hin Hl]. apply Hno. split; [|done].
      apply elem_of_cons in Hin as [?|?]; [done|done].
Qed.

Lemma intervals_stay_cleared (ts : list string) :
  forall (acc : nat * bot) (h : positive),
    intervals acc.2 !! h = None -> intervals (foldl stopOne acc ts).2 !! h = None.
Proof.
  induction ts as [|t0 ts IH]; intros acc h Hnone; [done|].
  cbn [foldl]. apply IH. unfold stopOne. destruct (liveHandle t0 acc.2) as [h0|]; [|done].
  simpl. destruct (decide (h0 = h)) as [->|Hne].
  - apply lookup_delete_eq.
  - by rewrite lookup_delete_ne.
Qed.

Lemma intervals_stopped (ts : list string) :
  forall (acc : nat * bot) (t : string) (h : positive),
    t ∈ ts -> liveHandle t acc.2 = Some h ->
    intervals (foldl stopOne acc ts).2 !! h = None.
Proof.
  induction ts as [|t0 ts IH]; intros acc t h Hin Hlive.
  { by apply elem_of_nil in Hin. }
  cbn [foldl]. destruct (decide (t = t0)) as [->|Hne].
  - apply intervals_stay_cleared. unfold stopOne. rewrite Hlive. simpl.
    apply lookup_delete_eq.
  - apply elem_of_cons in Hin as [?|Hin]; [done|].
    apply (IH _ t); [done|]. by rewrite liveHandle_stopOne_other.
Qed.

Lemma frame_stopped (ts : list string) :
  forall acc : nat * bot,
    heap (foldl stopOne acc ts).2 = heap acc.2
    /\ outbox (foldl stopOne acc ts).2 = outbox acc.2
    /\ timeouts (foldl stopOne acc ts).2 = timeouts acc.2.
Proof.
  induction ts as [|t0 ts IH]; intros acc; [done|].
  cbn [foldl]. destruct (IH (stopOne acc t0)) as (-> & -> & ->). apply stopOne_frame.
Qed.

Lemma stopOne_balance (acc : nat * bot) (t : string) :
  ((stopOne acc t).1 + size (funThreads (stopOne acc t).2)
   = acc.1 + size (funThreads acc.2))%nat.
Proof.
  unfold stopOne. destruct (liveHandle t acc.2) as [h|] eqn:Hlive; [|done].
  destruct (liveHandle_entry _ _ _ Hlive) as [loc Hloc]. simpl.
  rewrite <- (insert_delete_id (funThreads acc.2) t loc Hloc) at 2.
  rewrite map_size_insert_None by apply lookup_delete_eq. lia.
Qed.

Lemma count_stopped (ts : list string) :
  forall acc : nat * bot,
    ((foldl stopOne acc ts).1 + size (funThreads (foldl stopOne acc ts).2)
     = acc.1 + size (funThreads acc.2))%nat.
Proof.
  induction ts as [|t0 ts IH]; intros acc; [done|].
  cbn [foldl]. rewrite IH. apply stopOne_balance.
Qed.

Lemma keys_of_table (m : gmap string positive) (t : string) :
  t ∈ (map_to_list m).*1 <-> is_Some (m !! t).
Proof.
  rewrite list_elem_of_fmap. split.
  - intros ([t' loc] & -> & Hin). apply elem_of_map_to_list in Hin. by exists loc.
  - intros [loc Hloc]. exists (t, loc). split; [done|]. by apply elem_of_map_to_list.
Qed.

Section Facts.
Variable numberToString : Z -> string.

Abbreviation stopAllFun := (stopAllFun numberToString).
Abbreviation emergencyStop := (emergencyStop numberToString).

Lemma notices_sent (text : string) (ts : list string) :
  forall b : bot,
    let b' := foldl (fun b' t => send t text b') b ts in
    outbox b' = (outbox b ++ ((fun t => (t, text)) <$> ts))%list
    /\ funThreads b' = funThreads b /\ intervals b' = intervals b
    /\ funActive b' = funActive b.
Proof.
  induction ts as [|t0 ts IH]; intros b; simpl.
  - by rewrite app_nil_r.
  - destruct (IH (send t0 text b)) as (-> & -> & -> & ->). simpl.
    by rewrite <- app_assoc.
Qed.

Lemma stopAllFun_table (b : bot) (t : string) :
  funThreads (stopAllFun b).2 !! t
  = if decide (is_Some (liveHandle t b)) then None else funThreads b !! t.
Proof.
  unfold StopFun.stopAllFun. cbn [snd setFunActive funThreads].
  rewrite funThreads_stopped. cbn [snd].
  destruct (decide (is_Some (liveHandle t b))) as [Hl|Hl].
  - rewrite decide_True; [done|]. split; [|done].
    apply keys_of_table. destruct Hl as [h Hh]. by eapply liveHandle_entry.
  - rewrite decide_False; [done|]. by intros [_ ?].
Qed.

Lemma stopAllFun_spec (b : bot) :
  let r := (stopAllFun b).1 in
  let b' := (stopAllFun b).2 in
  success r = true
  /\ funActive b' = false
  /\ (forall t h, liveHandle t b = Some h ->
        funThreads b' !! t = None /\ intervals b' !! h = None)
  /\ (forall t, liveHandle t b = None -> funThreads b' !! t = funThreads b !! t)
  /\ (stoppedCount r + size (funThreads b') = size (funThreads b))%nat
  /\ outbox b' = outbox b.
Proof.
  intros r b'. split; [done|]. split; [done|]. split; [|split; [|split]].
  - intros t h Hlive. split.
    + subst b'. rewrite stopAllFun_table. rewrite decide_True; [done|by eexists].
    + subst b'. unfold StopFun.stopAllFun. cbn [snd setFunActive intervals].
      apply (intervals_stopped _ _ t); [|done].
      apply keys_of_table. by eapply liveHandle_entry.
  - intros t Hnone. subst b'. rewrite stopAllFun_table, Hnone.
    rewrite decide_False; [done|by intros [? ?]].
  - subst r b'. unfold StopFun.stopAllFun. cbn [fst snd stoppedCount setFunActive funThreads].
    by rewrite count_stopped.
  - subst b'. unfold StopFun.stopAllFun. cbn [snd setFunActive outbox].
    by destruct (frame_stopped (map_to_list (funThreads b)).*1 (0%nat, b)) as (_ & -> & _).
Qed.

(** [stopAllFun] stops exactly the loops that have a handle.  Every entry
    whose [interval] is set is removed and its interval cleared; an entry
    whose [interval] is still [null] stays; the count returned is the number
    of entries removed; nothing is sent; and the bot is marked as running no
    fun. *)
Theorem stopAllFun_stops_loops_with_handle (b : bot) :
  let r := (stopAllFun b).1 in
  let b' := (stopAllFun b).2 in
  success r = true
  /\ funActive b' = false
  /\ (forall t h, liveHandle t b = Some h ->
        funThreads b' !! t = None /\ intervals b' !! h = None)
  /\ (forall t, liveHandle t b = None -> funThreads b' !! t = funThreads b !! t)
  /\ (stoppedCount r + size (funThreads b') = size (funThreads b))%nat
  /\ outbox b' = outbox b.
Proof. exact (stopAllFun_spec b). Qed.

(** The emergency notice goes to no thread whose loop was stopped.
    [emergencyStop] reads the threads to notify after [stopAllFun] has
    removed the entries it stopped: the notice is sent exactly to the
    threads whose entry has no interval yet, and a thread whose loop was
    running loses its entry and its interval without a word. *)
Theorem emergency_notice_skips_stopped_loops (reason : string) (b : bot) :
  let r := (emergencyStop reason b).1 in
  let b' := (emergencyStop reason b).2 in
  exists notified,
    outbox b' = (outbox b ++ ((fun t => (t, msgEmergency reason)) <$> notified))%list
    /\ threadsNotified r = length notified
    /\ (forall t, t ∈ notified <-> is_Some (funThreads b !! t) /\ liveHandle t b = None)
    /\ (forall t h, liveHandle t b = Some h ->
          (t ∉ notified) /\ funThreads b' !! t = None /\ intervals b' !! h = None)
    /\ funActive b' = false.
Proof.
  intros r b'. exists (map_to_list (funThreads (stopAllFun b).2)).*1.
  destruct (stopAllFun_spec b) as (_ & Hflag & Hstop & Hkeep & _ & Hout).
  destruct (notices_sent (msgEmergency reason)
              (map_to_list (funThreads (stopAllFun b).2)).*1 (stopAllFun b).2)
    as (Hsent & Htable & Hint & Hact).
  assert (Hnotified : forall t,
             t ∈ (map_to_list (funThreads (stopAllFun b).2)).*1
             <-> is_Some (funThreads b !! t) /\ liveHandle t b = None).
  { intros t. rewrite keys_of_table, stopAllFun_table.
    destruct (liveHandle t b) as [h|] eqn:Hl.
    - rewrite decide_True by (by eexists). split; [by intros [? ?]|by intros [_ ?]].
    - rewrite decide_False by (by intros [? ?]). split; [done|by intros [? _]]. }
  split; [|split; [|split; [|split]]].
  - subst b'. unfold StopFun.emergencyStop. cbn [snd]. by rewrite Hsent, Hout.
  - done.
  - exact Hnotified.
  - intros t h Hlive. destruct (Hstop t h Hlive) as [Ht Hh]. split; [|split].
    + rewrite Hnotified, Hlive. by intros [_ ?].
    + subst b'. unfold StopFun.emergencyStop. cbn [snd]. by rewrite Htable.
    + subst b'. unfold StopFun.emergencyStop. cbn [snd]. by rewrite Hint.
  - subst b'. unfold StopFun.emergencyStop. cbn [snd]. by rewrite Hact.
Qed.
End Facts.

End StopFunFacts.

(** ** Runs of a murgi loop *)

Module MurgiRuns.
Import Bot Murgi.

(** A firing that meets no failure. *)
Definition smooth (inp : tickInput) : Prop :=
  messageSent inp = true /\ pausesReturn inp = true /\ statusSent inp = true.

Section Runs.
Variable numberToString : Z -> string.
Variable toUpperCase : string -> string.
Variable siblingStop : string -> string -> bot -> bool * bot.

Abbreviation tick := (tick numberToString).
Abbreviation statusReport := (statusReport numberToString).

(** The firings of one interval, in order. *)
Definition ticks (handle : positive) (inps : list tickInput) (b : bot) : bot :=
  foldl (fun b' inp => tick handle inp b') b inps.

(** The line of the firing number [j], counted from 0. *)
Definition lineOf (funData : list string) (j : nat) (inp : tickInput) : string :=
  let message := default "undefined" (funData !! (j mod length funData)%nat) in
  if decide (j mod 3 = 0)%nat
  then pick chickenEmojis (emojiDraw inp) +:+ " " +:+ message +:+ " "
       +:+ pick chickenEmojis (emojiDraw inp)
  else message.

(** What the firing number [j] sends: its line, and after every fifteenth
    line the status with the count. *)
Definition sentBy (funData : list string) (j : nat) (inp : tickInput) : list string :=
  lineOf funData j inp
  :: (if decide (S j mod 15 = 0)%nat
      then [statusReport (pick statusMessages (statusDraw inp)) (S j)]
      else []).

Fixpoint sentFrom (funData : list string) (j : nat) (inps : list tickInput) : list string :=
  match inps with
  | [] => []
  | inp :: rest => (sentBy funData j inp ++ sentFrom funData (S j) rest)%list
  end.

Lemma tick_smooth (h : positive) (k : tickClosure) (ft : funThread) (inp : tickInput)
    (b : bot) :
  intervals b !! h = Some k ->
  heap b !! k_funThread k = Some ft ->
  active ft = true ->
  index ft = iteration k ->
  smooth inp ->
  tick h inp b
  = Bot (<[k_funThread k := FunThread (type ft) (S (index ft)) (interval ft) true (userID ft)]>
           (heap b))
        (nextLoc b) (funThreads b)
        (<[h := TickClosure (k_threadID k) (k_funThread k) (k_funData k) (S (iteration k))]>
           (intervals b))
        (timeouts b) (nextTimer b)
        (outbox b ++ (pair (k_threadID k) <$> sentBy (k_funData k) (iteration k) inp))%list
        (funActive b).
Proof.
  intros Hk Hft Hact Hsync (Hm & Hp & Hs). unfold Murgi.tick.
  rewrite Hk, Hft, Hact, Hm, Hp, Hs. cbn [negb]. unfold sentBy, lineOf. rewrite Hsync.
  cbn [iteration]. destruct (decide (S (iteration k) mod 15 = 0)%nat); cbn [negb].
  - unfold send. cbn [heap nextLoc funThreads intervals timeouts nextTimer outbox funActive].
    rewrite <- app_assoc. reflexivity.
  - reflexivity.
Qed.

Lemma ticks_smooth (h : positive) (inps : list tickInput) :
  forall (b : bot) (k : tickClosure) (ft : funThread),
    intervals b !! h = Some k ->
    heap b !! k_funThread k = Some ft ->
    active ft = true ->
    index ft = iteration k ->
    Forall smooth inps ->
    let b' := ticks h inps b in
    outbox b'
    = (outbox b ++ (pair (k_threadID k) <$> sentFrom (k_funData k) (iteration k) inps))%list
    /\ heap b' !! k_funThread k
       = Some (FunThread (type ft) (index ft + length inps) (interval ft) true (userID ft))
    /\ funThreads b' = funThreads b
    /\ is_Some (intervals b' !! h)
    /\ timeouts b' = timeouts b.
Proof.
  induction inps as [|inp inps IH]; intros b k ft Hk Hft Hact Hsync Hall.
  { simpl. rewrite app_nil_r, Nat.add_0_r, Hft. destruct ft; simpl in *. by subst. }
  apply Forall_cons in Hall as [Hinp Hall].
  unfold ticks. cbn [foldl]. fold (ticks h inps (tick h inp b)).
  rewrite (tick_smooth h k ft inp b Hk Hft Hact Hsync Hinp).
  match goal with |- context [ticks h inps ?b1] =>
    destruct (IH b1 (TickClosure (k_threadID k) (k_funThread k) (k_funData k) (S (iteration k)))
                 (FunThread (type ft) (S (index ft)) (interval ft) true (userID ft)))
      as (Hout & Hheap & Htable & Hlive & Htime) end.
  - simpl. by rewrite lookup_insert_eq.
  - simpl. by rewrite lookup_insert_eq.
  - done.
  - simpl. by rewrite Hsync.
  - done.
  - cbn [k_threadID k_funThread k_funData iteration type index interval userID] in *.
    rewrite Hout, Hheap, Htable, Htime. cbn [outbox funThreads timeouts length].
    rewrite <- app_assoc, <- fmap_app. repeat split; try done.
    by rewrite Nat.add_succ_comm.
Qed.

(** What [execute] leaves in a thread without an entry. *)
Lemma execute_fresh (funData : list string) (threadID : string) (user : value) (b : bot) :
  funThreads b !! threadID = None ->
  execute (FileData funData) true threadID user b
  = (Ok tt,
     Bot (<[nextLoc b := FunThread "murgi" 0 (Some (nextTimer b)) true user]> (heap b))
         (Pos.succ (nextLoc b)) (<[threadID := nextLoc b]> (funThreads b))
         (<[nextTimer b := TickClosure threadID (nextLoc b) funData 0]> (intervals b))
         (<[Pos.succ (nextTimer b) := ExpiryClosure threadID (nextLoc b)]> (timeouts b))
         (Pos.succ (Pos.succ (nextTimer b)))
         (outbox b ++ [(threadID, msgStarting)])%list (funActive b)).
Proof.
  intros Hfree. unfold execute, send. rewrite Hfree.
  cbn [negb heap nextLoc funThreads intervals timeouts nextTimer outbox funActive].
  rewrite lookup_insert_eq. f_equal. f_equal. apply map_eq. intros loc.
  destruct (decide (loc = nextLoc b)) as [->|Hne].
  - by rewrite lookup_alter_eq, !lookup_insert_eq.
  - by rewrite lookup_alter_ne, !lookup_insert_ne.
Qed.

Lemma started_then_ticks (funData : list string) (threadID : string) (user : value)
    (b : bot) (inps : list tickInput) :
  funThreads b !! threadID = None ->
  Forall smooth inps ->
  let b1 := (execute (FileData funData) true threadID user b).2 in
  let b2 := ticks (nextTimer b) inps b1 in
  outbox b2
  = (outbox b ++ (threadID, msgStarting) :: (pair threadID <$> sentFrom funData 0 inps))%list
  /\ funThreads b2 !! threadID = Some (nextLoc b)
  /\ heap b2 !! nextLoc b
     = Some (FunThread "murgi" (length inps) (Some (nextTimer b)) true user)
  /\ is_Some (intervals b2 !! nextTimer b)
  /\ timeouts b2 = <[Pos.succ (nextTimer b) := ExpiryClosure threadID (nextLoc b)]> (timeouts b).
Proof.
  intros Hfree Hall b1 b2. subst b1 b2. rewrite (execute_fresh funData threadID user b Hfree).
  cbn [snd].
  match goal with |- context [ticks _ inps ?b1] =>
    destruct (ticks_smooth (nextTimer b) inps b1
                (TickClosure threadID (nextLoc b) funData 0)
                (FunThread "murgi" 0 (Some (nextTimer b)) true user))
      as (Hout & Hheap & Htable & Hlive & Htime) end.
  - simpl. by rewrite lookup_insert_eq.
  - simpl. by rewrite lookup_insert_eq.
  - done.
  - done.
  - done.
  - cbn [k_threadID k_funThread k_funData iteration type index interval userID] in *.
    rewrite Hout, Hheap, Htable, Htime. cbn [outbox funThreads timeouts].
    rewrite <- app_assoc, lookup_insert_eq. done.
Qed.


End Runs.

(** A firing where every send and every pause goes through. *)
Definition fine : tickInput := TickInput 0 0 true true true.

Definition noSiblingStop (_ _ : string) (b : bot) : bool * bot := (false, b).



End MurgiRuns.

(** ** A start that fails half-way *)

Module StartFunFailures.
Import Bot StartFun StartFunFacts.

Section Failures.
Variable numberToString : Z -> string.
Variable toLowerCase : string -> string.
Variable toUpperCase : string -> string.
Variable siblingExecute : string -> string -> value -> bot -> result unit * bot.

Abbreviation execute := (execute numberToString toLowerCase toUpperCase siblingExecute).

End Failures.

(** The transport takes everything but the start message of [murgi]. *)
Definition deaf : callInput :=
  CallInput MurgiFacts.lines
            (fun _ text => negb (String.eqb text Murgi.msgStarting)) true.


End StartFunFailures.

(** ** The roles of the guard *)

Module GuardRoles.
Import Guard.

Section Roles.
Variable numberToString : Z -> string.
Variable sha256hex : string -> string.

Abbreviation isOwner := (isOwner numberToString sha256hex).
Abbreviation isAdmin := (isAdmin numberToString).
Abbreviation isUser := (isUser numberToString sha256hex).
Abbreviation requireOwner := (requireOwner numberToString sha256hex).
Abbreviation requireAdmin := (requireAdmin numberToString sha256hex).

Lemma isOwner_answers (lock : lockFile) (userId : value) :
  exists b, isOwner lock userId = Ok b.
Proof.
  unfold Guard.isOwner, verifyOwner. destruct (verifyOwner_try _ _ _ _); by eexists.
Qed.

Lemma isOwner_has_string (lock : lockFile) (userId : value) :
  isOwner lock userId = Ok true -> exists s, toStringMethod numberToString userId = Ok s.
Proof.
  unfold Guard.isOwner, verifyOwner, verifyOwner_try, hashUid.
  destruct (toStringMethod numberToString userId) as [s|e]; [by eexists|].
  by destruct lock.
Qed.

(** [requireAdmin] lets through exactly the ids that [isUser] denies.
    The two functions ask [isOwner] and [isAdmin] in opposite orders and
    still agree: [requireAdmin] returns when [isUser] returns [false], throws
    its access error when [isUser] returns [true], and on [null] and
    [undefined] both throw the error of [toString]; whoever passes
    [requireOwner] passes [requireAdmin]. *)
Theorem requireAdmin_accepts_exactly_non_users (lock : lockFile) (admins : list value)
    (userId : value) :
  (requireAdmin lock admins userId = Ok tt <-> isUser lock admins userId = Ok false)
  /\ (requireAdmin lock admins userId = Throw (Error "Admin access required.")
      <-> isUser lock admins userId = Ok true)
  /\ (forall e, requireAdmin lock admins userId = Throw (TypeError e)
                <-> isUser lock admins userId = Throw (TypeError e))
  /\ (requireOwner lock userId = Ok tt -> requireAdmin lock admins userId = Ok tt).
Proof.
  destruct (isOwner_answers lock userId) as [owner Howner].
  pose proof (isOwner_has_string lock userId) as Hstring.
  unfold Guard.requireAdmin, Guard.isUser, Guard.requireOwner, Guard.isAdmin.
  rewrite Howner in *.
  destruct userId as [| |[|]|n|s]; cbn [toStringMethod] in *;
    try (destruct owner; [by destruct (Hstring eq_refl)|];
         repeat split; intros; congruence);
    match goal with |- context [bool_decide ?P] => destruct (bool_decide P) end;
    destruct owner; repeat split; intros; simpl in *; congruence.
Qed.
End Roles.

End GuardRoles.
